(** * orchestra-imap: a shallow embedding of the IMAP proxy server

    The development follows the server's source: the body-structure walker
    [extractPdfAttachments], the fallback locator [findPdfParts], the
    [/search] and [/search-stream] scan loops, the [/attachment] retry
    loop, the handlers [/test], [/search-text], [/mailbox-stats] and
    [/message], and [decodeContent].  The repository holds the server twice: the current one, with
    resumable streaming and the retried download, and the earlier
    [src/index.js], whose walker numbers parts differently; that walker is
    [Mime.Legacy].

    Modelling choices:
    - numbers that the handlers count, compare and add are integers ([Z], or
      [nat] for a length); [daysBack] is a whole number of days and a date
      is its day number;
    - strings are [string], kept as the bytes of their UTF-8 encoding; the
      text that [/attachment] reads from a payload is decoded as
      [toString('utf-8')] decodes it, an ill-formed part replaced by U+FFFD,
      while [toLowerCase] changes the 7-bit letters only;
    - a field that may be [undefined] or [null] is an [option];
    - the mail client is a collaborator: what each of its calls returns or
      throws is an input of the handlers;
    - a handler's writes ([res.json], [sendEvent], [console.log], the
      back-off delay) are returned as values, in the order of the writes;
      a log line is kept by template, with the values it interpolates;
    - the event fields computed from the wall clock or in floating point
      ([estimatedPdfs], [percentComplete], [etaSeconds], [emailsPerSecond])
      are left out. *)

From Stdlib Require Import ZArith List String Ascii Bool Lia Arith.
From Stdlib Require Import DecimalString.
From Stdlib Require Strings.Byte DecimalNat.
From Stdlib Require Import Sorted Permutation.
Import ListNotations.

Local Open Scope string_scope.
Local Open Scope list_scope.

(** ** JavaScript helpers *)

Module JS.

(** [a || b] on a possibly-undefined string: the empty string is falsy. *)
Definition orElse (a : option string) (b : string) : string :=
  match a with
  | Some (String c r) => String c r
  | _ => b
  end.

(** Truthiness of a string value. *)
Definition truthy (s : string) : bool :=
  match s with
  | EmptyString => false
  | String _ _ => true
  end.

(** [String.prototype.toLowerCase] on the 7-bit letters; other characters
    are left as they are. *)
Definition lowerChar (c : ascii) : ascii :=
  let n := nat_of_ascii c in
  if (65 <=? n)%nat && (n <=? 90)%nat then ascii_of_nat (n + 32) else c.

Fixpoint toLowerCase (s : string) : string :=
  match s with
  | EmptyString => EmptyString
  | String c r => String (lowerChar c) (toLowerCase r)
  end.

Definition startsWith (s pre : string) : bool := String.prefix pre s.

Definition endsWith (s suf : string) : bool :=
  let n := String.length s in
  let m := String.length suf in
  (m <=? n)%nat && String.eqb (String.substring (n - m) m s) suf.

(** [String.prototype.includes]. *)
Fixpoint includes (s needle : string) : bool :=
  String.prefix needle s ||
  match s with
  | EmptyString => false
  | String _ r => includes r needle
  end.

(** Template-literal rendering of a count. *)
Definition showNat (n : nat) : string :=
  NilZero.string_of_uint (Nat.to_uint n).

(** [array.forEach((x, index) => ...)] where the callback updates a
    shared value: the calls are threaded through it, from [index] on. *)
Definition forEach {A S : Type} (f : A -> nat -> S -> S)
  : list A -> nat -> S -> S :=
  fix go (l : list A) (index : nat) (s : S) : S :=
    match l with
    | [] => s
    | x :: rest => go rest (Datatypes.S index) (f x index s)
    end.

(** What a call of the mail client does: it returns or it throws an error
    whose [message] may be missing. *)
Inductive Outcome (A : Type) : Type :=
| Ok (a : A)
| Throws (message : option string).
Arguments Ok {A} a.
Arguments Throws {A} message.

(** [!field] on an optional string field of the request body. *)
Definition missing (field : option string) : bool :=
  negb (truthy (orElse field "")).

End JS.

(** ** The MIME body structure and the PDF walkers *)

Set Warnings "-register-all".

Module Mime.

(** A node of ImapFlow's [bodyStructure].  Optional fields are the ones the
    walkers read through [||] or [?.]. *)
Inductive Part : Type :=
  mkPart {
    type : option string;
    subtype : option string;
    dispositionFilename : option string; (* dispositionParameters?.filename *)
    parametersName : option string;      (* parameters?.name *)
    size : option Z;
    encoding : option string;
    childNodes : option (list Part)
  }.

(** An entry pushed on [attachments]. *)
Record Descriptor : Type :=
  mkDescriptor {
    filename : string;
    mimeType : string;
    dsize : Z;
    partId : string;
    dencoding : option string
  }.

Definition mimeTypeOf (ty sub : option string) : string :=
  JS.toLowerCase (JS.orElse ty "" ++ "/" ++ JS.orElse sub "").

Definition resolveFilename (disp name : option string) : string :=
  JS.orElse disp (JS.orElse name "").

Definition isPdf (mime fname : string) : bool :=
  String.eqb mime "application/pdf" || JS.endsWith (JS.toLowerCase fname) ".pdf".

Definition isMultipart (mime : string) : bool := JS.startsWith mime "multipart/".

(** [path ? `${path}.${index + 1}` : `${index + 1}`] *)
Definition childPath (path : string) (index : nat) : string :=
  if JS.truthy path then path ++ "." ++ JS.showNat (index + 1)
  else JS.showNat (index + 1).

Definition sizeOr0 (s : option Z) : Z :=
  match s with Some z => z | None => 0%Z end.

(** [walk] of [extractPdfAttachments]; [acc] is the shared [attachments]
    array, returned after the pushes of this call.  [isMultipart] is
    computed by the source and read nowhere, as here. *)
Fixpoint walk (part : Part) (path : string) (acc : list Descriptor)
  : list Descriptor :=
  match part with
  | mkPart ty sub disp name sz enc children =>
      let mime := mimeTypeOf ty sub in
      let fname := resolveFilename disp name in
      let _unused := isMultipart mime in
      let acc1 :=
        if isPdf mime fname
        then acc ++ [ mkDescriptor (JS.orElse (Some fname) "document.pdf")
                        mime (sizeOr0 sz) (JS.orElse (Some path) "1") enc ]
        else acc in
      match children with
      | None => acc1
      | Some cs =>
          JS.forEach
            (fun child index a => walk child (childPath path index) a)
            cs 0%nat acc1
      end
  end.

(** [extractPdfAttachments(bodyStructure)]: a missing structure gives no
    attachment. *)
Definition extractPdfAttachments (bodyStructure : option Part)
  : list Descriptor :=
  match bodyStructure with
  | None => []
  | Some part => walk part "" []
  end.

(** The entry pushed on [pdfParts] by the fallback of [/attachment]. *)
Record PdfPart : Type :=
  mkPdfPart {
    ppath : string;
    pfilename : string;
    psize : option Z;
    pencoding : option string
  }.

Fixpoint findPdfParts (part : Part) (path : string) (acc : list PdfPart)
  : list PdfPart :=
  match part with
  | mkPart ty sub disp name sz enc children =>
      let mime := mimeTypeOf ty sub in
      let fname := resolveFilename disp name in
      let acc1 :=
        if isPdf mime fname
        then acc ++ [ mkPdfPart (JS.orElse (Some path) "1") fname sz enc ]
        else acc in
      match children with
      | None => acc1
      | Some cs =>
          JS.forEach
            (fun child idx a => findPdfParts child (childPath path idx) a)
            cs 0%nat acc1
      end
  end.

(** The walker of [src/index.js]: the root call starts at part id ["1"] and
    every child appends its index. *)
Module Legacy.

Record Descriptor : Type :=
  mkDescriptor {
    filename : string;
    mimeType : string;
    dsize : Z;
    partId : string
  }.

Fixpoint walk (part : Part) (partId : string) (acc : list Descriptor)
  : list Descriptor :=
  match part with
  | mkPart ty sub disp name sz _ children =>
      let mime := mimeTypeOf ty sub in
      let fname := resolveFilename disp name in
      let acc1 :=
        if isPdf mime fname
        then acc ++ [ mkDescriptor (JS.orElse (Some fname) "document.pdf")
                        mime (sizeOr0 sz) partId ]
        else acc in
      match children with
      | None => acc1
      | Some cs =>
          JS.forEach
            (fun child index a =>
               walk child (partId ++ "." ++ JS.showNat (index + 1)) a)
            cs 0%nat acc1
      end
  end.

Definition extractPdfAttachments (bodyStructure : option Part)
  : list Descriptor :=
  match bodyStructure with
  | None => []
  | Some part => walk part "1" []
  end.

End Legacy.

End Mime.

(** ** The scan handlers: [/search] and [/search-stream] *)

Module Scan.

Import Mime.
Export JS(Outcome, Ok, Throws, missing).

(** A numeric request field after JSON parsing: a number or [null]; an
    absent field is [None] and takes the destructuring default. *)
Inductive NumOrNull : Type :=
| Null
| Num (z : Z).

Definition destructure (default : NumOrNull) (field : option NumOrNull)
  : NumOrNull :=
  match field with
  | None => default
  | Some v => v
  end.

(** Truthiness: [null] and [0] are falsy. *)
Definition truthyN (v : NumOrNull) : bool :=
  match v with
  | Null => false
  | Num z => negb (z =? 0)%Z
  end.

(** Numeric conversion in a comparison or an addition: [null] is [0]. *)
Definition toNumber (v : NumOrNull) : Z :=
  match v with
  | Null => 0%Z
  | Num z => z
  end.

(** [daysBack >= 3650 ? 3650 : (daysBack || 365)] *)
Definition effectiveDaysBack (daysBack : NumOrNull) : Z :=
  if (3650 <=? toNumber daysBack)%Z then 3650%Z
  else if truthyN daysBack then toNumber daysBack else 365%Z.

(** [sinceDate.setDate(sinceDate.getDate() - effectiveDaysBack)], with a
    date as its day number. *)
Definition sinceDateOf (now : Z) (daysBack : NumOrNull) : Z :=
  (now - effectiveDaysBack daysBack)%Z.

Record Address : Type :=
  mkAddress {
    name : option string;
    mailbox : option string;
    host : option string
  }.

Definition formatAddress (addr : option Address) : string :=
  match addr with
  | None => ""
  | Some a =>
      let nm := JS.orElse (name a) "" in
      let email :=
        (JS.orElse (mailbox a) "" ++ "@" ++ JS.orElse (host a) "")%string in
      if JS.truthy nm then (nm ++ " <" ++ email ++ ">")%string else email
  end.

(** A fetched message: [uid], the envelope fields the handlers read, and
    [bodyStructure]. *)
Record Message : Type :=
  mkMessage {
    uid : Z;
    subject : option string;
    from : option Address;   (* envelope.from?.[0] *)
    date : option string;    (* envelope.date?.toISOString() *)
    bodyStructure : option Part
  }.

Record PdfMsg : Type :=
  mkPdfMsg {
    m_uid : Z;
    m_subject : option string;
    m_from : string;
    m_date : option string;
    m_attachments : list Descriptor
  }.

Definition pdfMsgOf (msg : Message) (attachments : list Descriptor) : PdfMsg :=
  mkPdfMsg (uid msg) (subject msg) (formatAddress (from msg)) (date msg)
    attachments.

Inductive Criteria : Type :=
| Since (sinceDate : Z)
| UidFrom (first : Z).      (* uid: `${sinceUid + 1}:*` *)

(** The mail session of one request.  [search] answers [None] when the
    result is not an array; [fetch] yields messages and may then throw. *)
Record Session : Type :=
  mkSession {
    connect : Outcome unit;
    status : Outcome Z;
    mailboxOpen : Outcome unit;
    search : Criteria -> Outcome (option (list Z));
    fetch : list Z -> list Message * option (option string);
    logout : Outcome unit
  }.

(** [allUids.sort((a, b) => b - a)] *)
Fixpoint insertDesc (x : Z) (l : list Z) : list Z :=
  match l with
  | [] => [x]
  | y :: r => if (y <=? x)%Z then x :: l else y :: insertDesc x r
  end.

Definition sortDesc (l : list Z) : list Z := fold_right insertDesc [] l.

Definition FETCH_BATCH_SIZE : nat := 100.
Definition PROGRESS_INTERVAL : Z := 50.
Definition PDF_BATCH_SIZE : nat := 10.

(** The slices [allUids.slice(i, i + FETCH_BATCH_SIZE)] of the batch loop;
    [fuel] bounds the number of iterations. *)
Fixpoint slices (fuel : nat) (l : list Z) : list (list Z) :=
  match fuel with
  | O => []
  | S fuel' =>
      match l with
      | [] => []
      | _ :: _ =>
          firstn FETCH_BATCH_SIZE l :: slices fuel' (skipn FETCH_BATCH_SIZE l)
      end
  end.

Definition batches (allUids : list Z) : list (list Z) :=
  slices (List.length allUids) allUids.

Definition hasPdf (msg : Message) : bool :=
  (0 <? List.length (extractPdfAttachments (bodyStructure msg)))%nat.

(** *** [/search] *)

Record SearchRequest : Type :=
  mkSearchRequest {
    email : option string;
    password : option string;
    daysBack : option NumOrNull;
    maxResults : option NumOrNull
  }.

Record SearchBody : Type :=
  mkSearchBody {
    messages : list PdfMsg;
    totalEmailsScanned : Z;
    totalWithPdf : Z;
    r_daysBack : Z
  }.

Inductive SearchResponse : Type :=
| Json (body : SearchBody)
| Status (code : Z) (error : string).

(** One turn of the [for await] body of [/search]. *)
Definition scanOne (maxResults : NumOrNull) (st : list PdfMsg * Z * Z)
  (msg : Message) : list PdfMsg * Z * Z :=
  let '(msgs, scanned, withPdf) := st in
  let scanned := (scanned + 1)%Z in
  let attachments := extractPdfAttachments (bodyStructure msg) in
  if (0 <? List.length attachments)%nat then
    let withPdf := (withPdf + 1)%Z in
    if (Z.of_nat (List.length msgs) <? toNumber maxResults)%Z
    then (msgs ++ [pdfMsgOf msg attachments], scanned, withPdf)
    else (msgs, scanned, withPdf)
  else (msgs, scanned, withPdf).

Fixpoint scanBatches (s : Session) (maxResults : NumOrNull)
  (bs : list (list Z)) (st : list PdfMsg * Z * Z)
  : Outcome (list PdfMsg * Z * Z) :=
  match bs with
  | [] => Ok st
  | batchUids :: rest =>
      let '(yielded, thrown) := fetch s batchUids in
      let st' := fold_left (scanOne maxResults) yielded st in
      match thrown with
      | Some message => Throws message
      | None => scanBatches s maxResults rest st'
      end
  end.

Definition bind {A B : Type} (o : Outcome A) (k : A -> Outcome B) : Outcome B :=
  match o with
  | Ok a => k a
  | Throws m => Throws m
  end.

Local Notation "x <- o ;; k" := (bind o (fun x => k))
  (at level 61, o at next level, right associativity).

Definition postSearch (req : SearchRequest) (s : Session) (now : Z)
  : SearchResponse :=
  let daysBack := destructure (Num 365) (daysBack req) in
  let maxResults := destructure (Num 5000) (maxResults req) in
  if missing (email req) || missing (password req)
  then Status 400 "Email and password required"
  else
    let body :=
      _ <- connect s ;;
      _ <- mailboxOpen s ;;
      let effective := effectiveDaysBack daysBack in
      searchResult <- search s (Since (sinceDateOf now daysBack)) ;;
      let allUids :=
        sortDesc (match searchResult with Some l => l | None => [] end) in
      st <- scanBatches s maxResults (batches allUids) ([], 0%Z, 0%Z) ;;
      _ <- logout s ;;
      let '(msgs, scanned, withPdf) := st in
      Ok (mkSearchBody msgs scanned withPdf effective) in
    match body with
    | Ok b => Json b
    | Throws message => Status 500 (JS.orElse message "Search failed")
    end.

(** *** [/search-stream] *)

Record StreamRequest : Type :=
  mkStreamRequest {
    s_email : option string;
    s_password : option string;
    s_daysBack : option NumOrNull;
    s_maxResults : option NumOrNull;
    resumeAfterUid : option NumOrNull;
    sinceUid : option NumOrNull;
    previousScanned : option Z;
    previousWithPdf : option Z
  }.

(** The objects handed to [sendEvent].  The fields computed from the wall
    clock or in floating point ([estimatedPdfs], [percentComplete],
    [etaSeconds], [emailsPerSecond]) are not part of the model. *)
Inductive Event : Type :=
| Start (totalInMailbox : Z) (resuming incremental : bool)
    (sinceUid : NumOrNull) (previousScanned previousWithPdf : Z)
| Progress (scanned : Z) (totalInMailbox : nat) (withPdf : Z)
    (lastUid : NumOrNull)
| PdfBatch (messages : list PdfMsg) (totalWithPdfSoFar : Z)
| Complete (totalEmailsScanned totalWithPdf daysBack : Z)
    (lastUid : NumOrNull)
| Error (error : string).

(** The [console.log] lines of the handler, by template. *)
Inductive ScanLog : Type :=
| LogIncremental (sinceUid : NumOrNull)
| LogFound (count : nat) (incremental : bool) (sinceUid : NumOrNull)
    (sinceDate : Z).

(** The variables of the loop, with the events written so far. *)
Record ScanState : Type :=
  mkScanState {
    st_messages : list PdfMsg;
    pendingMessages : list PdfMsg;
    st_totalEmailsScanned : Z;
    st_totalWithPdf : Z;
    lastProcessedUid : NumOrNull;
    skippedToResume : Z;
    sent : list Event
  }.

Section StreamLoop.

Variable resumeAfter : NumOrNull.
Variable maxResults : NumOrNull.
Variable previous : Z.
Variable allUidsLength : nat.

(** One turn of the [for await] body of [/search-stream]. *)
Definition streamOne (st : ScanState) (msg : Message) : ScanState :=
  if truthyN resumeAfter && (toNumber resumeAfter <=? uid msg)%Z then
    mkScanState (st_messages st) (pendingMessages st)
      (st_totalEmailsScanned st) (st_totalWithPdf st) (lastProcessedUid st)
      (skippedToResume st + 1) (sent st)
  else
    let scanned := (st_totalEmailsScanned st + 1)%Z in
    let last := Num (uid msg) in
    let attachments := extractPdfAttachments (bodyStructure msg) in
    let '(msgs, pending, withPdf, out) :=
      if (0 <? List.length attachments)%nat then
        let withPdf := (st_totalWithPdf st + 1)%Z in
        if (Z.of_nat (List.length (st_messages st)) <? toNumber maxResults)%Z
        then
          let pdfMsg := pdfMsgOf msg attachments in
          let msgs := st_messages st ++ [pdfMsg] in
          let pending := pendingMessages st ++ [pdfMsg] in
          if (PDF_BATCH_SIZE <=? List.length pending)%nat
          then (msgs, [], withPdf, sent st ++ [PdfBatch pending withPdf])
          else (msgs, pending, withPdf, sent st)
        else (st_messages st, pendingMessages st, withPdf, sent st)
      else (st_messages st, pendingMessages st, st_totalWithPdf st, sent st)
    in
    let out :=
      if (Z.rem (scanned - previous) PROGRESS_INTERVAL =? 0)%Z
      then out ++ [Progress scanned allUidsLength withPdf last]
      else out in
    mkScanState msgs pending scanned withPdf last (skippedToResume st) out.

(** The batch loop: on a throw the state reached so far is kept with the
    error. *)
Fixpoint streamBatches (s : Session) (bs : list (list Z)) (st : ScanState)
  : ScanState * option (option string) :=
  match bs with
  | [] => (st, None)
  | batchUids :: rest =>
      let '(yielded, thrown) := fetch s batchUids in
      let st' := fold_left streamOne yielded st in
      match thrown with
      | Some message => (st', Some message)
      | None => streamBatches s rest st'
      end
  end.

End StreamLoop.

Inductive StreamResponse : Type :=
| BadRequest (error : string)
| EventStream (logs : list ScanLog) (events : list Event).

Definition failWith (logs : list ScanLog) (events : list Event)
  (message : option string) : StreamResponse :=
  EventStream logs (events ++ [Error (JS.orElse message "Search failed")]).

Definition orZero (z : option Z) : Z :=
  match z with Some v => v | None => 0%Z end.

Definition postSearchStream (req : StreamRequest) (s : Session) (now : Z)
  : StreamResponse :=
  let daysBack := destructure (Num 365) (s_daysBack req) in
  let maxResults := destructure (Num 5000) (s_maxResults req) in
  let resumeAfter := destructure Null (resumeAfterUid req) in
  let since := destructure Null (sinceUid req) in
  let prevScanned := orZero (previousScanned req) in
  let prevWithPdf := orZero (previousWithPdf req) in
  if missing (s_email req) || missing (s_password req)
  then BadRequest "Email and password required"
  else
    match connect s with
    | Throws m => failWith [] [] m
    | Ok _ =>
    match status s with
    | Throws m => failWith [] [] m
    | Ok totalInMailbox =>
    let isIncremental := truthyN since in
    let ev0 := [Start totalInMailbox (truthyN resumeAfter) isIncremental
                  since prevScanned prevWithPdf] in
    match mailboxOpen s with
    | Throws m => failWith [] ev0 m
    | Ok _ =>
    let effective := effectiveDaysBack daysBack in
    let sinceDate := sinceDateOf now daysBack in
    let searchCriteria :=
      if isIncremental then UidFrom (toNumber since + 1) else Since sinceDate in
    let log1 := if isIncremental then [LogIncremental since] else [] in
    match search s searchCriteria with
    | Throws m => failWith log1 ev0 m
    | Ok searchResult =>
    let allUids :=
      sortDesc (match searchResult with Some l => l | None => [] end) in
    let logs :=
      log1 ++ [LogFound (List.length allUids) isIncremental since sinceDate] in
    let st0 := mkScanState [] [] prevScanned prevWithPdf resumeAfter 0 ev0 in
    let '(st, thrown) :=
      streamBatches resumeAfter maxResults prevScanned (List.length allUids)
        s (batches allUids) st0 in
    match thrown with
    | Some m => failWith logs (sent st) m
    | None =>
    let flushed :=
      if (0 <? List.length (pendingMessages st))%nat
      then sent st ++ [PdfBatch (pendingMessages st) (st_totalWithPdf st)]
      else sent st in
    match logout s with
    | Throws m => failWith logs flushed m
    | Ok _ =>
        EventStream logs
          (flushed ++ [Complete (st_totalEmailsScanned st) (st_totalWithPdf st)
                         effective (lastProcessedUid st)])
    end end end end end end.

End Scan.

(** ** The attachment handler: [/attachment] *)

Module Attachment.

Import Mime.
Export JS(Outcome, Ok, Throws, missing).

Definition Buffer : Type := list Byte.byte.

(** A text is kept as the bytes of its UTF-8 encoding (a surrogate that
    stands alone as the three bytes of its code). *)
Definition inRange (lo hi : nat) (b : Byte.byte) : bool :=
  (lo <=? Byte.to_nat b)%nat && (Byte.to_nat b <=? hi)%nat.

Definition continuation (b : Byte.byte) : bool := inRange 128 191 b.

(** U+FFFD, the replacement character. *)
Definition replacement : Buffer := [Byte.xef; Byte.xbf; Byte.xbd].

(** The values allowed for the byte after the lead byte [b0] of a sequence
    of three or four bytes. *)
Definition secondRange (b0 : Byte.byte) : nat * nat :=
  if Byte.eqb b0 Byte.xe0 then (160, 191)%nat
  else if Byte.eqb b0 Byte.xed then (128, 159)%nat
  else if Byte.eqb b0 Byte.xf0 then (144, 191)%nat
  else if Byte.eqb b0 Byte.xf4 then (128, 143)%nat
  else (128, 191)%nat.

(** The UTF-8 decoder of [toString]: a well-formed sequence is kept; the
    longest start of a sequence that is followed by a byte that cannot
    continue it, or by the end, becomes one U+FFFD and the decoder goes on at
    that byte; a byte that starts no sequence becomes one U+FFFD. *)
Fixpoint decodeUtf8 (bs : Buffer) : Buffer :=
  match bs with
  | [] => []
  | b0 :: r0 =>
      if inRange 0 127 b0 then b0 :: decodeUtf8 r0
      else if inRange 194 223 b0 then
        match r0 with
        | b1 :: r1 =>
            if continuation b1 then b0 :: b1 :: decodeUtf8 r1
            else replacement ++ decodeUtf8 r0
        | [] => replacement
        end
      else if inRange 224 239 b0 then
        match r0 with
        | b1 :: r1 =>
            if inRange (fst (secondRange b0)) (snd (secondRange b0)) b1 then
              match r1 with
              | b2 :: r2 =>
                  if continuation b2 then b0 :: b1 :: b2 :: decodeUtf8 r2
                  else replacement ++ decodeUtf8 r1
              | [] => replacement
              end
            else replacement ++ decodeUtf8 r0
        | [] => replacement
        end
      else if inRange 240 244 b0 then
        match r0 with
        | b1 :: r1 =>
            if inRange (fst (secondRange b0)) (snd (secondRange b0)) b1 then
              match r1 with
              | b2 :: r2 =>
                  if continuation b2 then
                    match r2 with
                    | b3 :: r3 =>
                        if continuation b3
                        then b0 :: b1 :: b2 :: b3 :: decodeUtf8 r3
                        else replacement ++ decodeUtf8 r2
                    | [] => replacement
                    end
                  else replacement ++ decodeUtf8 r1
              | [] => replacement
              end
            else replacement ++ decodeUtf8 r0
        | [] => replacement
        end
      else replacement ++ decodeUtf8 r0
  end.

(** [buffer.toString('utf-8')] *)
Definition toStringUtf8 (b : Buffer) : string :=
  string_of_list_byte (decodeUtf8 b).

(** The first half of the surrogate pair of the character whose four bytes
    start with [c0 c1 c2]. *)
Definition highSurrogate (c0 c1 c2 : ascii) : string :=
  let top :=
    ((nat_of_ascii c0 mod 8) * 256 + (nat_of_ascii c1 mod 64) * 4
     + (nat_of_ascii c2 mod 64) / 16 - 64)%nat in
  String (ascii_of_nat 237)
    (String (ascii_of_nat (160 + top / 64))
       (String (ascii_of_nat (128 + top mod 64)) EmptyString)).

(** [text.substring(0, n)]: [n] counts UTF-16 units, one for a character of
    one to three bytes and two for a character of four bytes, which the end
    may cut in two. *)
Fixpoint substring0 (n : nat) (text : string) : string :=
  match n with
  | O => EmptyString
  | S n1 =>
      match text with
      | EmptyString => EmptyString
      | String c0 r0 =>
          if (nat_of_ascii c0 <? 192)%nat then String c0 (substring0 n1 r0)
          else if (nat_of_ascii c0 <? 224)%nat then
            match r0 with
            | String c1 r1 => String c0 (String c1 (substring0 n1 r1))
            | EmptyString => text
            end
          else if (nat_of_ascii c0 <? 240)%nat then
            match r0 with
            | String c1 (String c2 r2) =>
                String c0 (String c1 (String c2 (substring0 n1 r2)))
            | _ => text
            end
          else
            match r0 with
            | String c1 (String c2 (String c3 r3)) =>
                match n1 with
                | O => highSurrogate c0 c1 c2
                | S n2 =>
                    String c0
                      (String c1 (String c2 (String c3 (substring0 n2 r3))))
                end
            | _ => text
            end
      end
  end.

(** The readable stream given to [streamToBuffer]: it ends with its chunks
    concatenated or it emits an error. *)
Inductive Stream : Type :=
| Ends (data : Buffer)
| Fails (message : option string).

Record DownloadResult : Type :=
  mkDownloadResult {
    content : option Stream;
    metaFilename : option string     (* meta?.filename *)
  }.

(** What the mail client does during one attempt.  [fetchOne] answers
    [None] for no message and [Some None] for a message without
    [bodyStructure]; [download] may answer a falsy result. *)
Record Attempt : Type :=
  mkAttempt {
    createClient : Outcome unit;
    mailboxOpen : Outcome unit;
    download : Outcome (option DownloadResult);
    fetchOne : Outcome (option (option Part));
    downloadPart : string -> Outcome (option DownloadResult);
    logout : Outcome unit
  }.

Record Request : Type :=
  mkRequest {
    email : option string;
    password : option string;
    messageUid : Z;          (* [0] is the falsy value *)
    partId : option string
  }.

(** What the handler does besides answering: the [console] lines, by
    template, the connections it opens and the delays it waits. *)
Inductive Effect : Type :=
| CreateClient (timeout : Z)
| LogDownloading (messageUid : Z) (partId : string) (attempt : nat)
| LogDirectFailed (partId : string) (message : option string)
| LogFoundParts (pdfParts : list PdfPart)
| LogTrying (path filename : string)
| LogPartFailed (path : string) (message : option string)
| LogNotPdf (preview : string)
| LogSuccess (bytes : nat)
| LogDownloadError (attempt : nat) (message : option string)
| LogWaiting (waitMs : Z)
| Sleep (waitMs : Z)
| LogAllFailed (messageUid : Z) (partId : string) (message : option string).

(** The JSON answer; [base64] holds the bytes that [buffer.toString('base64')]
    encodes. *)
Inductive Response : Type :=
| Pdf (base64 : Buffer) (filename : string) (size : nat)
| Status (code : Z) (error : string).

(** A computation of the [try] block: the effects so far and a value or a
    thrown error. *)
Definition M (A : Type) : Type := list Effect * Outcome A.

Definition ret {A : Type} (a : A) : M A := ([], Ok a).

Definition throw {A : Type} (message : string) : M A :=
  ([], Throws (Some message)).

Definition tell (e : Effect) : M unit := ([e], Ok tt).

Definition call {A : Type} (o : Outcome A) : M A := ([], o).

Definition bind {A B : Type} (m : M A) (k : A -> M B) : M B :=
  match m with
  | (es, Ok a) => let '(es', r) := k a in (es ++ es', r)
  | (es, Throws msg) => (es, Throws msg)
  end.

Local Notation "x <- m ;; k" := (bind m (fun x => k))
  (at level 61, m at next level, right associativity).
Local Notation "m ;;; k" := (bind m (fun _ => k))
  (at level 61, right associativity).

(** The loop [for (const pdfPart of pdfParts)] of the fallback: the first
    part whose download does not throw. *)
Fixpoint tryParts (a : Attempt) (pdfParts : list PdfPart)
  : M (option DownloadResult) :=
  match pdfParts with
  | [] => throw "Could not download any PDF attachment"
  | pdfPart :: rest =>
      tell (LogTrying (ppath pdfPart) (pfilename pdfPart)) ;;;
      match downloadPart a (ppath pdfPart) with
      | Ok r => ret r
      | Throws m =>
          tell (LogPartFailed (ppath pdfPart) m) ;;; tryParts a rest
      end
  end.

Definition locate (a : Attempt) (partId : string) (downloadErr : option string)
  : M (option DownloadResult) :=
  tell (LogDirectFailed partId downloadErr) ;;;
  structMsg <- call (fetchOne a) ;;
  match structMsg with
  | Some (Some bodyStructure) =>
      let pdfParts := findPdfParts bodyStructure "" [] in
      tell (LogFoundParts pdfParts) ;;;
      match pdfParts with
      | [] => throw "No PDF attachments found in message"
      | _ :: _ => tryParts a pdfParts
      end
  | _ => throw "Could not get message structure"
  end.

(** [buffer[0] === 0x25 && buffer[1] === 0x50 && buffer[2] === 0x44 &&
    buffer[3] === 0x46] *)
Definition isPdfBuffer (buffer : Buffer) : bool :=
  match buffer with
  | b0 :: b1 :: b2 :: b3 :: _ =>
      Byte.eqb b0 Byte.x25 && Byte.eqb b1 Byte.x50 &&
      Byte.eqb b2 Byte.x44 && Byte.eqb b3 Byte.x46
  | _ => false
  end.

Definition streamToBuffer (s : Stream) : M Buffer :=
  match s with
  | Ends data => ret data
  | Fails m => call (Throws m)
  end.

Definition notPdfMessage (buffer : Buffer) : string :=
  let preview := toStringUtf8 (firstn 100 buffer) in
  ("Downloaded content is not a valid PDF (got "
     ++ JS.showNat (List.length buffer) ++ " bytes, starts with: "
     ++ substring0 50 preview ++ ")")%string.

(** The first part of the [try] block: the direct download, and the
    fallback when it throws. *)
Definition obtain (a : Attempt) (partId : string) : M (option DownloadResult) :=
  match download a with
  | Ok r => ret r
  | Throws downloadErr => locate a partId downloadErr
  end.

(** The second part: the checks on what was downloaded, and the answer. *)
Definition validate (a : Attempt) (downloadResult : option DownloadResult)
  : M Response :=
  match downloadResult with
  | Some (mkDownloadResult (Some stream) metaName) =>
      buffer <- streamToBuffer stream ;;
      match buffer with
      | [] => throw "Downloaded attachment is empty"
      | _ :: _ =>
          if isPdfBuffer buffer then
            tell (LogSuccess (List.length buffer)) ;;;
            call (logout a) ;;;
            ret (Pdf buffer (JS.orElse metaName "document.pdf")
                   (List.length buffer))
          else
            tell (LogNotPdf (toStringUtf8 (firstn 100 buffer))) ;;;
            throw (notPdfMessage buffer)
      end
  | _ => throw "No content returned from download"
  end.

(** The [try] block of one attempt. *)
Definition tryAttempt (req : Request) (a : Attempt) (attempt : nat)
  : M Response :=
  let partId := JS.orElse (partId req) "" in
  tell (CreateClient 30000) ;;;
  call (createClient a) ;;;
  call (mailboxOpen a) ;;;
  tell (LogDownloading (messageUid req) partId attempt) ;;;
  downloadResult <- obtain a partId ;;
  validate a downloadResult.

Definition MAX_RETRIES : nat := 3.

(** [1000 * Math.pow(2, attempt - 1)] *)
Definition waitMs (attempt : nat) : Z := (1000 * 2 ^ Z.of_nat (attempt - 1))%Z.

(** The iterations of [for (let attempt = 1; attempt <= MAX_RETRIES;
    attempt++)] that are left, [remaining = MAX_RETRIES - attempt + 1];
    [script] gives the mail client's behaviour at each attempt. *)
Fixpoint retry (req : Request) (script : nat -> Attempt) (remaining : nat)
  (attempt : nat) (lastError : option (option string))
  : list Effect * Response :=
  match remaining with
  | O =>
      let message :=
        match lastError with Some m => m | None => None end in
      ([LogAllFailed (messageUid req) (JS.orElse (partId req) "") message],
       Status 500 (JS.orElse message "Download failed after retries"))
  | S remaining' =>
      match tryAttempt req (script attempt) attempt with
      | (es, Ok response) => (es, response)
      | (es, Throws err) =>
          let caught := [LogDownloadError attempt err] in
          let waited :=
            if (attempt <? MAX_RETRIES)%nat
            then [LogWaiting (waitMs attempt); Sleep (waitMs attempt)]
            else [] in
          let '(es', response) :=
            retry req script remaining' (S attempt) (Some err) in
          (es ++ caught ++ waited ++ es', response)
      end
  end.

Definition postAttachment (req : Request) (script : nat -> Attempt)
  : list Effect * Response :=
  if missing (email req) || missing (password req)
     || (messageUid req =? 0)%Z || missing (partId req)
  then ([], Status 400 "Missing required parameters")
  else retry req script MAX_RETRIES 1 None.

End Attachment.

(** ** The other handlers: [/test] and [/search-text] *)

Module Handlers.

Import Mime.
Import Scan.

(** The answer of [/test]. *)
Inductive TestResponse : Type :=
| Success
| Failure (code : Z) (error : string).

(** [/test]: the session is opened and closed again; a failure is classified
    by what its message includes. *)
Definition postTest (email password : option string) (s : Session)
  : TestResponse :=
  if missing email || missing password
  then Failure 400 "Email and password required"
  else
    match bind (connect s) (fun _ => logout s) with
    | Ok _ => Success
    | Throws message =>
        let msg := JS.orElse message "Connection failed" in
        if JS.includes msg "AUTHENTICATIONFAILED"
        then Failure 401 "Invalid email or app password"
        else if JS.includes msg "Please log in via your web browser"
        then Failure 401 "Please use an App Password (2FA required)"
        else Failure 500 msg
    end.

Record TextRequest : Type :=
  mkTextRequest {
    t_email : option string;
    t_password : option string;
    fromFilter : option string;
    subjectFilter : option string;
    t_daysBack : option NumOrNull;
    t_maxResults : option NumOrNull
  }.

(** The search criteria object of [/search-text]: [since], and [from] and
    [subject] when the filters are truthy. *)
Record TextCriteria : Type :=
  mkTextCriteria {
    c_since : Z;
    c_from : option string;
    c_subject : option string
  }.

Definition truthyFilter (f : option string) : option string :=
  match f with
  | Some (String c r) => Some (String c r)
  | _ => None
  end.

(** The session of [/search-text]: [fetch] is given the criteria. *)
Record TextSession : Type :=
  mkTextSession {
    x_connect : Outcome unit;
    x_mailboxOpen : Outcome unit;
    x_fetch : TextCriteria -> list Message * option (option string);
    x_logout : Outcome unit
  }.

Record TextMsg : Type :=
  mkTextMsg {
    x_uid : Z;
    x_subject : option string;
    x_from : string;
    x_date : option string;
    hasPdf : bool;
    x_attachments : list Descriptor
  }.

Definition textMsgOf (msg : Message) : TextMsg :=
  let pdfAttachments := extractPdfAttachments (bodyStructure msg) in
  mkTextMsg (uid msg) (subject msg) (formatAddress (from msg)) (date msg)
    (0 <? List.length pdfAttachments)%nat pdfAttachments.

(** The [for await] loop of [/search-text]: it breaks on the first message
    received once [count >= maxResults]; the iterator may throw when it has
    no message left. *)
Fixpoint textLoop (maxResults : Z) (yielded : list Message)
  (thrown : option (option string)) (messages : list TextMsg) (count : Z)
  : Outcome (list TextMsg) :=
  match yielded with
  | [] =>
      match thrown with
      | Some message => Throws message
      | None => Ok messages
      end
  | msg :: rest =>
      if (maxResults <=? count)%Z then Ok messages
      else textLoop maxResults rest thrown (messages ++ [textMsgOf msg])
             (count + 1)%Z
  end.

Inductive TextResponse : Type :=
| TextJson (messages : list TextMsg)
| TextStatus (code : Z) (error : string).

Definition postSearchText (req : TextRequest) (s : TextSession) (now : Z)
  : TextResponse :=
  let daysBack := destructure (Num 30) (t_daysBack req) in
  let maxResults := destructure (Num 50) (t_maxResults req) in
  if missing (t_email req) || missing (t_password req)
  then TextStatus 400 "Email and password required"
  else
    let body :=
      bind (x_connect s) (fun _ =>
      bind (x_mailboxOpen s) (fun _ =>
      let searchCriteria :=
        mkTextCriteria (now - toNumber daysBack)%Z
          (truthyFilter (fromFilter req)) (truthyFilter (subjectFilter req)) in
      let '(yielded, thrown) := x_fetch s searchCriteria in
      bind (textLoop (toNumber maxResults) yielded thrown [] 0%Z)
        (fun messages =>
      bind (x_logout s) (fun _ => Ok messages)))) in
    match body with
    | Ok messages => TextJson messages
    | Throws message => TextStatus 500 (JS.orElse message "Search failed")
    end.

End Handlers.

(** ** The lookups: [/mailbox-stats] and [/message] *)

Module Lookup.

Import Mime.
Import Scan.








End Lookup.

(** ** Decoding of a message body: [decodeContent] *)

Module Body.

Definition isChar (n : nat) (c : ascii) : bool := (nat_of_ascii c =? n)%nat.

(** [content.replace(/=\r?\n/g, '')] *)
Fixpoint removeSoftBreaks (s : string) : string :=
  match s with
  | EmptyString => EmptyString
  | String c r =>
      if isChar 61 c then
        match r with
        | String c1 r1 =>
            if isChar 10 c1 then removeSoftBreaks r1
            else if isChar 13 c1 then
              match r1 with
              | String c2 r2 =>
                  if isChar 10 c2 then removeSoftBreaks r2
                  else String c (removeSoftBreaks r)
              | EmptyString => String c (removeSoftBreaks r)
              end
            else String c (removeSoftBreaks r)
        | EmptyString => String c (removeSoftBreaks r)
        end
      else String c (removeSoftBreaks r)
  end.

(** The value of a character of the class [[0-9A-F]] under the flag [i]. *)
Definition hexVal (c : ascii) : option nat :=
  let n := nat_of_ascii c in
  if (48 <=? n)%nat && (n <=? 57)%nat then Some (n - 48)
  else if (65 <=? n)%nat && (n <=? 70)%nat then Some (n - 55)
  else if (97 <=? n)%nat && (n <=? 102)%nat then Some (n - 87)
  else None.

(** [content.replace(/=([0-9A-F]{2})/gi, (_, hex) =>
    String.fromCharCode(parseInt(hex, 16)))] *)
Fixpoint decodeHex (s : string) : string :=
  match s with
  | EmptyString => EmptyString
  | String c r =>
      if isChar 61 c then
        match r with
        | String h1 (String h2 r2) =>
            match hexVal h1, hexVal h2 with
            | Some a, Some b => String (ascii_of_nat (16 * a + b)) (decodeHex r2)
            | _, _ => String c (decodeHex r)
            end
        | _ => String c (decodeHex r)
        end
      else String c (decodeHex r)
  end.

Definition decodeContent (content : string) : string :=
  if JS.includes content "=" then decodeHex (removeSoftBreaks content)
  else content.

End Body.

(** * The vocabulary of the properties *)

Module MimeSpec.

Import Mime.

(** The equations of [walk]. *)
Definition pushPdf (ty sub disp name : option string) (sz : option Z)
  (enc : option string) (path : string) (acc : list Descriptor)
  : list Descriptor :=
  if isPdf (mimeTypeOf ty sub) (resolveFilename disp name)
  then acc ++ [ mkDescriptor
                  (JS.orElse (Some (resolveFilename disp name)) "document.pdf")
                  (mimeTypeOf ty sub) (sizeOr0 sz)
                  (JS.orElse (Some path) "1") enc ]
  else acc.

(** The scenario tree [multipart/mixed[ text/plain, application/pdf ]], the
    PDF named through its disposition. *)
Definition scenarioTree (sz1 sz2 : option Z) (enc1 enc2 : option string) : Part :=
  mkPart (Some "multipart") (Some "mixed") None None None None
    (Some [ mkPart (Some "text") (Some "plain") None None sz1 enc1 None;
            mkPart (Some "application") (Some "pdf") (Some "inv.pdf") None
              sz2 enc2 None ]).

(** A [multipart/mixed] container that carries the name ["bundle.pdf"]. *)
Definition namedContainer : Part :=
  mkPart (Some "multipart") (Some "mixed") None (Some "bundle.pdf") None None
    (Some [ mkPart (Some "text") (Some "plain") None None None None None ]).

End MimeSpec.

Module ScanSpec.

Import Mime.
Import Scan.

Local Open Scope Z_scope.

(** The messages of the answer when [l] is what was fetched. *)
Definition pdfMsgs (l : list Message) : list PdfMsg :=
  map (fun msg => pdfMsgOf msg (extractPdfAttachments (bodyStructure msg)))
    (filter hasPdf l).

(** Everything the batch loop is handed by [fetch]. *)
Definition fetchedMessages (s : Session) (allUids : list Z) : list Message :=
  flat_map (fun batchUids => fst (fetch s batchUids)) (batches allUids).

(** The UIDs the handlers iterate on, for a search criteria. *)
Definition candidates (s : Session) (c : Criteria) : list Z :=
  sortDesc (match search s c with Ok (Some l) => l | _ => [] end).

(** A session in which no call throws. *)
Record healthy (s : Session) : Prop :=
  mkHealthy {
    h_connect : connect s = Ok tt;
    h_status : exists n, status s = Ok n;
    h_mailboxOpen : Scan.mailboxOpen s = Ok tt;
    h_search : forall c, exists r, search s c = Ok r;
    h_fetch : forall uids, snd (fetch s uids) = None;
    h_logout : Scan.logout s = Ok tt
  }.

(** A message the resume test lets through. *)
Definition keep (resumeAfter : NumOrNull) (msg : Message) : bool :=
  negb (truthyN resumeAfter && (toNumber resumeAfter <=? uid msg)).

(** The messages carried by the [pdf_batch] events, in order. *)
Definition batched (events : list Event) : list PdfMsg :=
  flat_map (fun e => match e with PdfBatch msgs _ => msgs | _ => [] end) events.

(** A [progress] event whose counts stay within [scanned] and [withPdf]. *)
Definition progressWithin (scanned withPdf : Z) (e : Event) : Prop :=
  match e with
  | Progress sc _ wp _ => sc <= scanned /\ wp <= withPdf
  | _ => True
  end.

(** The session that hands over only the messages that pass [f]. *)
Definition restrictFetch (f : Message -> bool) (s : Session) : Session :=
  mkSession (connect s) (status s) (Scan.mailboxOpen s) (search s)
    (fun uids => (filter f (fst (fetch s uids)), snd (fetch s uids)))
    (Scan.logout s).

(** What of the loop state reaches an event: everything but
    [skippedToResume]. *)
Definition core (st : ScanState) :=
  (st_messages st, pendingMessages st, st_totalEmailsScanned st,
   st_totalWithPdf st, lastProcessedUid st, sent st).

(** The counters that [/search] keeps as well. *)
Definition counters (st : ScanState) : list PdfMsg * Z * Z :=
  (st_messages st, st_totalEmailsScanned st, st_totalWithPdf st).

(** The criteria of a streaming request. *)
Definition criteriaOf (req : StreamRequest) (now : Z) : Criteria :=
  let since := destructure Null (sinceUid req) in
  if truthyN since then UidFrom (toNumber since + 1)
  else Since (sinceDateOf now (destructure (Num 365) (s_daysBack req))).

(** A mailbox served without failure: [search] answers every UID and [fetch]
    hands over the messages of the batch, in mailbox order. *)
Definition mailboxSession (mailbox : list Message) : Session :=
  mkSession (Ok tt) (Ok (Z.of_nat (List.length mailbox))) (Ok tt)
    (fun _ => Ok (Some (map uid mailbox)))
    (fun uids =>
       (filter (fun msg => existsb (Z.eqb (uid msg)) uids) mailbox, None))
    (Ok tt).

Definition pdfLeaf : Part :=
  mkPart (Some "application") (Some "pdf") (Some "inv.pdf") None (Some 1024)
    (Some "base64") None.

Definition textLeaf : Part :=
  mkPart (Some "text") (Some "plain") None None (Some 12) (Some "7bit") None.

(** The scenario mailbox: UIDs 1 to 120, a PDF in every twentieth message. *)
Definition scenarioMailbox : list Message :=
  map (fun n =>
         mkMessage (Z.of_nat n) (Some "invoice") None None
           (Some (if (n mod 20 =? 0)%nat then pdfLeaf else textLeaf)))
    (seq 1 120).

Definition scenarioRequest : SearchRequest :=
  mkSearchRequest (Some "user@example.com") (Some "app-password") None
    (Some (Num 5)).

Definition resumeRequest : StreamRequest :=
  mkStreamRequest (Some "user@example.com") (Some "app-password") None None
    (Some (Num 100)) None (Some 21) (Some 1).

(** A request that resumes after the number 0. *)
Definition zeroResumeRequest : StreamRequest :=
  mkStreamRequest (Some "user@example.com") (Some "app-password") None None
    (Some (Num 0)) None None None.

(** The session that answers every search as [s] answers the search for
    [c]. *)
Definition searchedAt (c : Criteria) (s : Session) : Session :=
  mkSession (connect s) (status s) (Scan.mailboxOpen s) (fun _ => search s c)
    (fetch s) (Scan.logout s).

(** A session that shows the date bound it is searched with: the search
    since a date finds one message, whose UID is the date, and that message
    holds a PDF. *)
Definition boundEcho : Session :=
  mkSession (Ok tt) (Ok 1) (Ok tt)
    (fun c => match c with
              | Since sinceDate => Ok (Some [sinceDate])
              | UidFrom _ => Ok (Some [])
              end)
    (fun uids =>
       (map (fun u => mkMessage u None None None (Some pdfLeaf)) uids, None))
    (Ok tt).

Definition allTimeRequest : SearchRequest :=
  mkSearchRequest (Some "user@example.com") (Some "app-password")
    (Some (Num 100000)) None.

End ScanSpec.

Module AttachmentSpec.

Import Mime.
Import Attachment.

Local Open Scope nat_scope.

(** The connections opened: one per attempt. *)
Definition connections (es : list Effect) : nat :=
  List.length
    (filter (fun e => match e with CreateClient _ => true | _ => false end) es).

(** The delays waited, in order. *)
Definition sleeps (es : list Effect) : list Z :=
  flat_map (fun e => match e with Sleep ms => [ms] | _ => [] end) es.

(** The bytes [%PDF]. *)
Definition pdfMagic : Buffer := [Byte.x25; Byte.x50; Byte.x44; Byte.x46].

(** An attempt that serves [payload] on the direct download. *)
Definition serving (payload : Buffer) : Attempt :=
  mkAttempt (Ok tt) (Ok tt)
    (Ok (Some (mkDownloadResult (Some (Ends payload)) (Some "inv.pdf"%string))))
    (Ok None) (fun _ => Throws None) (Ok tt).

Definition attachmentRequest : Request :=
  mkRequest (Some "user@example.com"%string) (Some "app-password"%string) 42
    (Some "2"%string).

(** The payloads of the scenario: [%PDF-1.4] and [<html]. *)
Definition pdfPayload : Buffer :=
  [Byte.x25; Byte.x50; Byte.x44; Byte.x46; Byte.x2d; Byte.x31; Byte.x2e;
   Byte.x34].

Definition htmlPayload : Buffer :=
  [Byte.x3c; Byte.x68; Byte.x74; Byte.x6d; Byte.x6c].

(** A computation that opens no connection and waits for nothing. *)
Definition calm {A : Type} (m : M A) : Prop :=
  connections (fst m) = 0 /\ sleeps (fst m) = [].

(** An attempt that always fails with [message]. *)
Definition failing (message : option string) : Attempt :=
  mkAttempt (Throws message) (Ok tt) (Ok None) (Ok None) (fun _ => Ok None)
    (Ok tt).








End AttachmentSpec.

Module WalkSpec.

Import Mime.

(** The test of the walkers on a node. *)
Definition isPdfNode (p : Part) : bool :=
  isPdf (mimeTypeOf (type p) (subtype p))
    (resolveFilename (dispositionFilename p) (parametersName p)).

(** The nodes of a structure with their paths, in document order; [acc]
    holds the nodes met so far. *)
Fixpoint preorder (part : Part) (path : string) (acc : list (string * Part))
  : list (string * Part) :=
  match part with
  | mkPart ty sub disp name sz enc children =>
      let acc1 := acc ++ [(path, part)] in
      match children with
      | None => acc1
      | Some cs =>
          JS.forEach
            (fun child index a => preorder child (childPath path index) a)
            cs 0%nat acc1
      end
  end.

(** The descriptor of a node at a path. *)
Definition descriptorOf (path : string) (p : Part) : Descriptor :=
  mkDescriptor
    (JS.orElse (Some (resolveFilename (dispositionFilename p) (parametersName p)))
       "document.pdf")
    (mimeTypeOf (type p) (subtype p)) (sizeOr0 (size p))
    (JS.orElse (Some path) "1") (encoding p).

Definition reported (node : string * Part) : list Descriptor :=
  if isPdfNode (snd node) then [descriptorOf (fst node) (snd node)] else [].

(** A part id at or below the path [P]: [P] itself or [P.] and more. *)
Definition under (P id : string) : Prop :=
  exists r, id = (P ++ r)%string /\ (r = "" \/ exists r', r = String "." r').

Definition isDigit (c : ascii) : bool :=
  let n := nat_of_ascii c in (48 <=? n)%nat && (n <=? 57)%nat.

Fixpoint allDigits (s : string) : bool :=
  match s with
  | EmptyString => true
  | String c r => isDigit c && allDigits r
  end.

(** The digits a string starts with. *)
Fixpoint leadingDigits (s : string) : string :=
  match s with
  | EmptyString => EmptyString
  | String c r => if isDigit c then String c (leadingDigits r) else EmptyString
  end.

(** What is put before the index to make a child path. *)
Definition childPrefix (path : string) : string :=
  if JS.truthy path then (path ++ ".")%string else "".

(** A descriptor of the current walker, as [src/index.js] numbers it below
    the root. *)
Definition legacyOf (d : Descriptor) : Legacy.Descriptor :=
  Legacy.mkDescriptor (filename d) (mimeType d) (dsize d)
    ("1." ++ partId d)%string.

(** A node with its type, subtype and names in lower case. *)
Definition lowerFields (ty sub disp name : option string)
  : option string * option string * option string * option string :=
  (option_map JS.toLowerCase ty, option_map JS.toLowerCase sub,
   option_map JS.toLowerCase disp, option_map JS.toLowerCase name).

(** A structure whose root fails the PDF test. *)
Definition plainRoot : Part :=
  mkPart (Some "multipart") (Some "mixed") None None None None
    (Some [ mkPart (Some "multipart") (Some "alternative") None None None None
              (Some [ mkPart (Some "text") (Some "plain") None None None None None;
                      mkPart (Some "application") (Some "pdf") None
                        (Some "a.pdf") None None None ]);
            mkPart (Some "application") (Some "pdf") (Some "b.pdf") None None
              None None ]).

End WalkSpec.

Module StreamSpec.

Import Mime.
Import Scan.
Import ScanSpec.

Local Open Scope Z_scope.

(** The loop variables before the first message, [n] being the message count
    of the mailbox. *)
Definition initialState (req : StreamRequest) (n : Z) : ScanState :=
  let resumeAfter := destructure Null (resumeAfterUid req) in
  let since := destructure Null (sinceUid req) in
  mkScanState [] [] (orZero (previousScanned req)) (orZero (previousWithPdf req))
    resumeAfter 0
    [Start n (truthyN resumeAfter) (truthyN since) since
       (orZero (previousScanned req)) (orZero (previousWithPdf req))].

(** The loop body of a request, [N] being the number of candidate UIDs. *)
Definition stepOf (req : StreamRequest) (N : nat) : ScanState -> Message -> ScanState :=
  streamOne (destructure Null (resumeAfterUid req))
    (destructure (Num 5000) (s_maxResults req))
    (orZero (previousScanned req)) N.

(** The events written once the pending messages are flushed. *)
Definition flushed (st : ScanState) : list Event :=
  if (0 <? List.length (pendingMessages st))%nat
  then sent st ++ [PdfBatch (pendingMessages st) (st_totalWithPdf st)]
  else sent st.

Definition completeOf (req : StreamRequest) (st : ScanState) : Event :=
  Complete (st_totalEmailsScanned st) (st_totalWithPdf st)
    (effectiveDaysBack (destructure (Num 365) (s_daysBack req)))
    (lastProcessedUid st).

Definition isStart (e : Event) : bool :=
  match e with Start _ _ _ _ _ _ => true | _ => false end.

Definition isTerminal (e : Event) : bool :=
  match e with Complete _ _ _ _ | Error _ => true | _ => false end.

(** A [progress] or [pdf_batch] event. *)
Definition isInner (e : Event) : bool :=
  match e with Progress _ _ _ _ | PdfBatch _ _ => true | _ => false end.

(** The sizes of the [pdf_batch] events, in order. *)
Definition batchSizes (events : list Event) : list nat :=
  flat_map (fun e => match e with
                     | PdfBatch msgs _ => [List.length msgs]
                     | _ => []
                     end) events.

(** The [scanned] counts of the [progress] events, in order. *)
Definition progressCounts (events : list Event) : list Z :=
  flat_map (fun e => match e with
                     | Progress scanned _ _ _ => [scanned]
                     | _ => []
                     end) events.

(** The UID of the last message of [l], or [default]. *)
Definition lastUidOf (default : NumOrNull) (l : list Message) : NumOrNull :=
  fold_left (fun _ msg => Num (uid msg)) l default.

(** Messages in strictly descending order of UID. *)
Definition newestFirst (l : list Message) : Prop :=
  StronglySorted (fun a b => uid b < uid a) l.

Definition oldestFirst (l : list Message) : Prop :=
  StronglySorted (fun a b => uid a < uid b) l.

Definition descending (l : list Z) : Prop :=
  StronglySorted (fun a b => b <= a) l.

(** The counts [previous + 50], [previous + 100], ... up to [scanned]. *)
Definition everyFifty (previous scanned : Z) : list Z :=
  map (fun k => previous + 50 * Z.of_nat k)
    (seq 1 (Z.to_nat ((scanned - previous) / 50))).

(** A mailbox that delivers its five messages newest first, with a PDF in the
    messages 4 and 1. *)
Definition descendingMailbox : list Message :=
  map (fun n =>
         mkMessage n (Some "invoice") None None
           (Some (if (n =? 4) || (n =? 1) then pdfLeaf else textLeaf)))
    [5; 4; 3; 2; 1].

Definition ascendingMailbox : list Message := rev descendingMailbox.

(** The request that resumes after UID 4, two messages scanned, one with a
    PDF. *)
Definition resumeAfter4 : StreamRequest :=
  mkStreamRequest (Some "user@example.com") (Some "app-password") None None
    (Some (Num 4)) None (Some 2) (Some 1).

End StreamSpec.

Module HandlersSpec.

Import JS Scan.

(** A session of [/search-text] that yields [yielded] and then throws, or
    ends, as [thrown] says. *)
Definition textSession (yielded : list Message)
  (thrown : option (option string)) : Handlers.TextSession :=
  Handlers.mkTextSession (Ok tt) (Ok tt) (fun _ => (yielded, thrown)) (Ok tt).

End HandlersSpec.

Module RetrievalSpec.

Import JS Mime Attachment.

(** A candidate whose download throws. *)
Definition throwsAt (a : Attempt) (q : PdfPart) : Prop :=
  exists m, downloadPart a (ppath q) = Throws m.

(** A candidate whose download returns. *)
Definition works (a : Attempt) (q : PdfPart) : bool :=
  match downloadPart a (ppath q) with
  | Ok _ => true
  | Throws _ => false
  end.

End RetrievalSpec.

Module BodySpec.

Import Body.

(** The quoted-printable encoding of RFC 2045: a byte is written [=XX], its
    code in two upper-case hexadecimal digits, when it is the equals sign or
    is not printable, and as it is otherwise. *)
Definition hexDigit (n : nat) : ascii :=
  if (n <? 10)%nat then ascii_of_nat (48 + n) else ascii_of_nat (55 + n).

Definition literal (c : ascii) : bool :=
  let n := nat_of_ascii c in
  (33 <=? n)%nat && (n <=? 126)%nat && negb (isChar 61 c).

Fixpoint encode (s : string) : string :=
  match s with
  | EmptyString => EmptyString
  | String c r =>
      if literal c then String c (encode r)
      else String "="%char
             (String (hexDigit (nat_of_ascii c / 16))
                (String (hexDigit (nat_of_ascii c mod 16)) (encode r)))
  end.

(** The encoded chunks of a body, joined by soft line breaks. *)
Fixpoint wrapped (eol : string) (chunks : list string) : string :=
  match chunks with
  | [] => EmptyString
  | chunk :: rest => (encode chunk ++ "=" ++ eol ++ wrapped eol rest)%string
  end.

Fixpoint joined (chunks : list string) : string :=
  match chunks with
  | [] => EmptyString
  | chunk :: rest => (chunk ++ joined rest)%string
  end.

End BodySpec.

Module LeakSpec.

Import Mime.
Import Scan.

Local Open Scope nat_scope.

(** Where a text comes from: it is one of the [fixed] texts of the handler,
    or one of the [sources]. *)
Definition passedOn (fixed : list string) (sources : string -> Prop)
  (text : string) : Prop :=
  In text fixed \/ sources text.





(** A download result that the mail client gave in the attempt. *)
Definition obtained (a : Attachment.Attempt)
  (dl : option Attachment.DownloadResult) : Prop :=
  Attachment.download a = Ok dl
  \/ exists path, Attachment.downloadPart a path = Ok dl.

(** A payload that the mail client delivered in the attempt. *)
Definition delivered (a : Attachment.Attempt) (b : Attachment.Buffer) : Prop :=
  exists meta,
    obtained a
      (Some (Attachment.mkDownloadResult (Some (Attachment.Ends b)) meta)).

(** The message of an error that the mail client threw in the attempt and
    that the attempt does not catch. *)
Definition thrownInAttempt (a : Attachment.Attempt) (m : option string)
  : Prop :=
  Attachment.createClient a = Throws m
  \/ Attachment.mailboxOpen a = Throws m
  \/ Attachment.fetchOne a = Throws m
  \/ Attachment.logout a = Throws m
  \/ exists meta,
       obtained a
         (Some (Attachment.mkDownloadResult (Some (Attachment.Fails m)) meta)).

(** The texts of the errors that an attempt throws itself. *)
Definition attemptTexts : list string :=
  ["Could not get message structure"%string;
   "No PDF attachments found in message"%string;
   "Could not download any PDF attachment"%string;
   "No content returned from download"%string;
   "Downloaded attachment is empty"%string].

(** A text that an attempt may hand on besides its own. *)
Definition attemptSource (a : Attachment.Attempt) (text : string) : Prop :=
  thrownInAttempt a (Some text)
  \/ exists b, delivered a b /\ text = Attachment.notPdfMessage b.

(** The message of the error that fails an attempt. *)
Definition attemptError (a : Attachment.Attempt) (m : option string) : Prop :=
  thrownInAttempt a m
  \/ exists text, m = Some text /\ passedOn attemptTexts (attemptSource a) text.

(** Where the fields of a log line of [/attachment] come from, [made] being
    the attempts made. *)
Definition effectOrigin (req : Attachment.Request)
  (made : Attachment.Attempt -> Prop) (e : Attachment.Effect) : Prop :=
  match e with
  | Attachment.CreateClient _ | Attachment.LogSuccess _
  | Attachment.LogWaiting _ | Attachment.Sleep _ => True
  | Attachment.LogDownloading uid part _ =>
      uid = Attachment.messageUid req
      /\ part = JS.orElse (Attachment.partId req) ""
  | Attachment.LogDirectFailed part m =>
      part = JS.orElse (Attachment.partId req) ""
      /\ exists a, made a /\ Attachment.download a = Throws m
  | Attachment.LogFoundParts pdfParts =>
      exists a bs,
        made a /\ Attachment.fetchOne a = Ok (Some (Some bs))
        /\ pdfParts = findPdfParts bs "" []
  | Attachment.LogTrying path filename =>
      exists a bs q,
        made a /\ Attachment.fetchOne a = Ok (Some (Some bs))
        /\ In q (findPdfParts bs "" [])
        /\ path = ppath q /\ filename = pfilename q
  | Attachment.LogPartFailed path m =>
      exists a, made a /\ Attachment.downloadPart a path = Throws m
  | Attachment.LogNotPdf preview =>
      exists a b,
        made a /\ delivered a b
        /\ preview = Attachment.toStringUtf8 (firstn 100 b)
  | Attachment.LogDownloadError _ m => exists a, made a /\ attemptError a m
  | Attachment.LogAllFailed uid part m =>
      uid = Attachment.messageUid req
      /\ part = JS.orElse (Attachment.partId req) ""
      /\ (m = None \/ exists a, made a /\ attemptError a m)
  end.




End LeakSpec.

(** * Properties *)

(** ** The walkers *)

Import Mime.
Import MimeSpec.

(** Induction on a body structure, with the property on every child. *)
Section PartInduction.

Variable P : Part -> Prop.

Hypothesis P_leaf :
  forall ty sub disp name sz enc, P (mkPart ty sub disp name sz enc None).

Hypothesis P_node :
  forall ty sub disp name sz enc cs,
    Forall P cs -> P (mkPart ty sub disp name sz enc (Some cs)).

Fixpoint Part_induction (p : Part) : P p :=
  match p with
  | mkPart ty sub disp name sz enc None => P_leaf ty sub disp name sz enc
  | mkPart ty sub disp name sz enc (Some cs) =>
      P_node ty sub disp name sz enc cs
        ((fix all (l : list Part) : Forall P l :=
            match l with
            | [] => Forall_nil P
            | c :: r => Forall_cons c (Part_induction c) (all r)
            end) cs)
  end.

End PartInduction.

(** A [forEach] whose callback only appends to the accumulator only appends. *)
Lemma forEach_appends {A B : Type} (f : A -> nat -> list B -> list B)
  (l : list A) :
  Forall (fun x => forall i acc, f x i acc = acc ++ f x i []) l ->
  forall i acc, JS.forEach f l i acc = acc ++ JS.forEach f l i [].
Proof.
  induction 1 as [|x r Hx _ IH]; intros i acc; simpl.
  - now rewrite app_nil_r.
  - rewrite IH, (IH _ (f x i [])), Hx. now rewrite app_assoc.
Qed.

(** Every element pushed during a [forEach] satisfies what each call
    guarantees. *)
Lemma forEach_Forall {A B : Type} (Q : B -> Prop)
  (f : A -> nat -> list B -> list B) (l : list A) :
  Forall (fun x => forall i acc, Forall Q acc -> Forall Q (f x i acc)) l ->
  forall i acc, Forall Q acc -> Forall Q (JS.forEach f l i acc).
Proof.
  induction 1 as [|x r Hx _ IH]; intros i acc Hacc; simpl; auto.
Qed.

Lemma walk_leaf ty sub disp name sz enc path acc :
  walk (mkPart ty sub disp name sz enc None) path acc
  = pushPdf ty sub disp name sz enc path acc.
Proof. reflexivity. Qed.

Lemma walk_node ty sub disp name sz enc cs path acc :
  walk (mkPart ty sub disp name sz enc (Some cs)) path acc
  = JS.forEach (fun child index a => walk child (childPath path index) a)
      cs 0%nat (pushPdf ty sub disp name sz enc path acc).
Proof. reflexivity. Qed.

Lemma pushPdf_appends ty sub disp name sz enc path acc :
  pushPdf ty sub disp name sz enc path acc
  = acc ++ pushPdf ty sub disp name sz enc path [].
Proof.
  unfold pushPdf. destruct (isPdf _ _); simpl; auto using app_nil_r.
Qed.

Lemma pushPdf_truthy ty sub disp name sz enc path acc :
  Forall (fun d => JS.truthy (filename d) = true) acc ->
  Forall (fun d => JS.truthy (filename d) = true)
    (pushPdf ty sub disp name sz enc path acc).
Proof.
  intros Hacc. unfold pushPdf. destruct (isPdf _ _); auto.
  apply Forall_app. split; auto. constructor; auto.
  simpl. now destruct (resolveFilename disp name).
Qed.

Lemma walk_appends (p : Part) :
  forall path acc, walk p path acc = acc ++ walk p path [].
Proof.
  induction p as [ty sub disp name sz enc|ty sub disp name sz enc cs IH]
    using Part_induction; intros path acc.
  - rewrite !walk_leaf. apply pushPdf_appends.
  - rewrite !walk_node.
    set (f := fun child index a => walk child (childPath path index) a).
    assert (Hf : Forall (fun x => forall i a, f x i a = a ++ f x i []) cs).
    { eapply Forall_impl; [|exact IH]. intros c Hc i a. apply Hc. }
    rewrite (forEach_appends f cs Hf).
    rewrite (forEach_appends f cs Hf _ (pushPdf _ _ _ _ _ _ _ [])).
    rewrite pushPdf_appends. now rewrite app_assoc.
Qed.

Lemma walk_filename_truthy (p : Part) :
  forall path acc,
    Forall (fun d => JS.truthy (filename d) = true) acc ->
    Forall (fun d => JS.truthy (filename d) = true) (walk p path acc).
Proof.
  induction p as [ty sub disp name sz enc|ty sub disp name sz enc cs IH]
    using Part_induction; intros path acc Hacc.
  - rewrite walk_leaf. now apply pushPdf_truthy.
  - rewrite walk_node. apply forEach_Forall.
    + eapply Forall_impl; [|exact IH]. intros c Hc i a. apply Hc.
    + now apply pushPdf_truthy.
Qed.

(** C1.  On the scenario tree the walker of the current server returns the
    single descriptor of ["inv.pdf"] at part id ["2"]: every child of a node
    is walked at its child path, which is the index alone under the empty
    path and [p.i] under a non-empty one.  The walker of [src/index.js]
    starts at ["1"] and answers part id ["1.2"] for the same tree. *)
Theorem scenario_part_ids :
  forall sz1 sz2 enc1 enc2,
    (extractPdfAttachments (Some (scenarioTree sz1 sz2 enc1 enc2))
       = [ mkDescriptor "inv.pdf" "application/pdf" (sizeOr0 sz2) "2" enc2 ])
    /\ (forall ty sub disp name sz enc cs path acc,
           walk (mkPart ty sub disp name sz enc (Some cs)) path acc
           = JS.forEach
               (fun child index a => walk child (childPath path index) a)
               cs 0%nat (pushPdf ty sub disp name sz enc path acc))
    /\ (forall i, childPath "" i = JS.showNat (i + 1))
    /\ (forall c p i,
           childPath (String c p) i
           = (String c p ++ "." ++ JS.showNat (i + 1))%string)
    /\ (Legacy.extractPdfAttachments (Some (scenarioTree sz1 sz2 enc1 enc2))
          = [ Legacy.mkDescriptor "inv.pdf" "application/pdf" (sizeOr0 sz2)
                "1.2" ]).
Proof.
  intros. repeat split.
Qed.

(** C2.  A multipart container whose name ends in [.pdf] is pushed by the
    walk: [isMultipart] is computed and guards nothing. *)
Theorem multipart_container_is_reported :
  isMultipart (mimeTypeOf (type namedContainer) (subtype namedContainer)) = true
  /\ extractPdfAttachments (Some namedContainer)
     = [ mkDescriptor "bundle.pdf" "multipart/mixed" 0 "1" None ]
  /\ Legacy.extractPdfAttachments (Some namedContainer)
     = [ Legacy.mkDescriptor "bundle.pdf" "multipart/mixed" 0 "1" ].
Proof.
  repeat split.
Qed.

(** C9, as stated, fails: an [application/pdf] leaf without any name is
    reported by the walk under ["document.pdf"], not under the empty
    string. *)
Lemma unnamed_pdf_filename_not_empty :
  exists d,
    resolveFilename None None = ""
    /\ extractPdfAttachments
         (Some (mkPart (Some "application") (Some "pdf") None None None None None))
       = [d]
    /\ filename d <> "".
Proof.
  eexists. repeat split. discriminate.
Qed.

(** C9, amended.  A node classified as a PDF whose filename does not resolve
    is pushed by the walk itself under the name ["document.pdf"], and no
    descriptor of any walk has an empty filename; the fallback locator of
    [/attachment] is the one that keeps the empty name. *)
Theorem walker_substitutes_document_pdf :
  forall ty sub disp name sz enc children path acc,
    resolveFilename disp name = "" ->
    isPdf (mimeTypeOf ty sub) "" = true ->
    (exists rest,
        walk (mkPart ty sub disp name sz enc children) path acc
        = acc ++ mkDescriptor "document.pdf" (mimeTypeOf ty sub) (sizeOr0 sz)
                   (JS.orElse (Some path) "1") enc :: rest)
    /\ (forall bs, Forall (fun d => filename d <> "")
                     (extractPdfAttachments bs))
    /\ (exists rest,
           findPdfParts (mkPart ty sub disp name sz enc None) path []
           = mkPdfPart (JS.orElse (Some path) "1") "" sz enc :: rest).
Proof.
  intros ty sub disp name sz enc children path acc Hname Hpdf.
  assert (Hpush : pushPdf ty sub disp name sz enc path []
                  = [ mkDescriptor "document.pdf" (mimeTypeOf ty sub)
                        (sizeOr0 sz) (JS.orElse (Some path) "1") enc ]).
  { unfold pushPdf. now rewrite Hname, Hpdf. }
  repeat split.
  - rewrite walk_appends. destruct children as [cs|].
    + rewrite walk_node, forEach_appends, Hpush.
      * eexists. simpl. reflexivity.
      * apply Forall_forall. intros c _ i a. apply walk_appends.
    + rewrite walk_leaf, Hpush. eexists. reflexivity.
  - intros [p|]; simpl; [|constructor].
    eapply Forall_impl; [|apply (walk_filename_truthy p "" []); constructor].
    intros d Hd E. simpl in Hd. rewrite E in Hd. discriminate.
  - simpl. rewrite Hname, Hpdf. eexists. reflexivity.
Qed.

Lemma walker_substitutes_document_pdf_witness :
  exists rest,
    walk (mkPart (Some "application") (Some "pdf") None None (Some 7%Z) None None)
      "2" []
    = [] ++ mkDescriptor "document.pdf" "application/pdf" 7 "2" None :: rest.
Proof.
  apply (walker_substitutes_document_pdf (Some "application") (Some "pdf")
           None None (Some 7%Z) None None "2" []); reflexivity.
Defined.

(** ** The scans *)

Import Scan.
Import ScanSpec.

Local Open Scope Z_scope.

(** The batch loop visits every candidate UID once, in order: the fuel of
    [slices] is enough. *)
Lemma slices_concat (fuel : nat) :
  forall l, (List.length l <= fuel)%nat -> List.concat (slices fuel l) = l.
Proof.
  induction fuel as [|fuel IH]; intros l Hl.
  - destruct l; simpl in *; [reflexivity|lia].
  - destruct l as [|x r]; [reflexivity|].
    cbn [slices List.concat]. rewrite IH.
    + apply firstn_skipn.
    + rewrite length_skipn. unfold FETCH_BATCH_SIZE. simpl List.length in *. lia.
Qed.

Lemma batches_concat (allUids : list Z) : List.concat (batches allUids) = allUids.
Proof. apply slices_concat. lia. Qed.

(** Equality of tuples whose numeric components differ by arithmetic. *)
Ltac tuple_eq :=
  repeat match goal with |- (_, _) = (_, _) => apply f_equal2 end;
  try reflexivity; try (cbn [List.length]; lia).

Lemma scanOne_fold (maxResults : NumOrNull) (l : list Message) :
  forall msgs scanned withPdf,
    fold_left (scanOne maxResults) l (msgs, scanned, withPdf)
    = (msgs ++ firstn (Z.to_nat (toNumber maxResults) - List.length msgs)
                 (pdfMsgs l),
       scanned + Z.of_nat (List.length l),
       withPdf + Z.of_nat (List.length (filter hasPdf l))).
Proof.
  induction l as [|msg l IH]; intros msgs scanned withPdf.
  - simpl. rewrite firstn_nil, app_nil_r. tuple_eq.
  - cbn [fold_left]. unfold scanOne at 2. unfold pdfMsgs. cbn [filter].
    fold (hasPdf msg). destruct (hasPdf msg).
    + destruct (Z.ltb_spec (Z.of_nat (List.length msgs)) (toNumber maxResults))
        as [Hlt|Hge].
      * rewrite IH. rewrite length_app. cbn [List.length map].
        replace (Z.to_nat (toNumber maxResults) - List.length msgs)%nat
          with (S (Z.to_nat (toNumber maxResults)
                   - (List.length msgs + 1)))%nat by lia.
        cbn [firstn]. rewrite <- app_assoc. cbn [app].
        unfold pdfMsgs. tuple_eq.
      * rewrite IH.
        replace (Z.to_nat (toNumber maxResults) - List.length msgs)%nat
          with 0%nat by lia.
        cbn [firstn]. tuple_eq.
    + rewrite IH. unfold pdfMsgs. tuple_eq.
Qed.

Lemma scanBatches_healthy (s : Session) (maxResults : NumOrNull) :
  (forall uids, snd (fetch s uids) = None) ->
  forall bs st,
    scanBatches s maxResults bs st
    = Ok (fold_left (scanOne maxResults)
            (flat_map (fun b => fst (fetch s b)) bs) st).
Proof.
  intros Hq bs. induction bs as [|b bs IH]; intros st; [reflexivity|].
  cbn [scanBatches flat_map]. specialize (Hq b).
  destruct (fetch s b) as [yielded thrown]. simpl in Hq. subst thrown.
  rewrite IH, fold_left_app. reflexivity.
Qed.

Section StreamLoopFacts.

Variable resumeAfter : NumOrNull.
Variable maxResults : NumOrNull.
Variable previous : Z.
Variable allUidsLength : nat.

Let step := streamOne resumeAfter maxResults previous allUidsLength.

Ltac split_ifs :=
  repeat match goal with
    | |- context [if ?c then _ else _] => destruct c
    end.

Lemma streamOne_skipped st msg :
  keep resumeAfter msg = false -> core (step st msg) = core st.
Proof.
  unfold keep, step, streamOne. intros H.
  apply negb_false_iff in H. rewrite H. reflexivity.
Qed.

Lemma streamOne_core st st' msg :
  core st = core st' -> core (step st msg) = core (step st' msg).
Proof.
  destruct st, st'. unfold core. cbn. intros H. injection H as -> -> -> -> -> ->.
  unfold step, streamOne. cbn. split_ifs; reflexivity.
Qed.

(** A message that is not skipped is counted as [/search] counts it. *)
Lemma streamOne_counters st msg :
  keep resumeAfter msg = true ->
  counters (step st msg) = scanOne maxResults (counters st) msg.
Proof.
  unfold keep, step, streamOne, scanOne, counters. intros H.
  apply negb_true_iff in H. rewrite H. cbn. split_ifs; reflexivity.
Qed.

(** The messages sent in batches and the pending ones are the messages
    kept. *)
Lemma streamOne_batched st msg :
  batched (sent st) ++ pendingMessages st = st_messages st ->
  batched (sent (step st msg)) ++ pendingMessages (step st msg)
  = st_messages (step st msg).
Proof.
  unfold step, streamOne, batched. intros H.
  split_ifs; cbn; rewrite ?flat_map_app; cbn;
    rewrite ?app_nil_r, <- ?H, <- ?app_assoc; reflexivity.
Qed.

Lemma stream_fold_core l :
  forall st st',
    core st = core st' ->
    core (fold_left step l st)
    = core (fold_left step (filter (keep resumeAfter) l) st').
Proof.
  induction l as [|msg l IH]; intros st st' H; [exact H|].
  cbn [fold_left filter]. destruct (keep resumeAfter msg) eqn:K.
  - cbn [fold_left]. apply IH. now apply streamOne_core.
  - apply IH. now rewrite streamOne_skipped.
Qed.

Lemma stream_fold_counters l :
  forall st,
    counters (fold_left step l st)
    = fold_left (scanOne maxResults) (filter (keep resumeAfter) l)
        (counters st).
Proof.
  induction l as [|msg l IH]; intros st; [reflexivity|].
  cbn [fold_left filter]. rewrite IH. destruct (keep resumeAfter msg) eqn:K.
  - cbn [fold_left]. now rewrite streamOne_counters.
  - f_equal. pose proof (streamOne_skipped st msg K) as E.
    unfold core in E. unfold counters. now injection E as -> _ -> -> _ _.
Qed.

Lemma stream_fold_batched l :
  forall st,
    batched (sent st) ++ pendingMessages st = st_messages st ->
    batched (sent (fold_left step l st)) ++ pendingMessages (fold_left step l st)
    = st_messages (fold_left step l st).
Proof.
  induction l as [|msg l IH]; intros st H; [exact H|].
  cbn [fold_left]. apply IH. now apply streamOne_batched.
Qed.

Lemma progressWithin_mono a b a' b' e :
  a <= a' -> b <= b' -> progressWithin a b e -> progressWithin a' b' e.
Proof.
  destruct e; cbn; auto. lia.
Qed.

(** The counts of the [progress] events never exceed the running totals. *)
Lemma streamOne_progress st msg :
  Forall (progressWithin (st_totalEmailsScanned st) (st_totalWithPdf st))
    (sent st) ->
  Forall (progressWithin (st_totalEmailsScanned (step st msg))
            (st_totalWithPdf (step st msg)))
    (sent (step st msg)).
Proof.
  intros H. unfold step, streamOne.
  assert (grow : forall a' b',
             st_totalEmailsScanned st <= a' -> st_totalWithPdf st <= b' ->
             Forall (progressWithin a' b') (sent st)).
  { intros a' b' Ha Hb. eapply Forall_impl; [|exact H].
    intros e. now apply progressWithin_mono. }
  split_ifs; cbn; rewrite ?Forall_app; repeat split;
    try (apply grow; lia); repeat constructor; lia.
Qed.

Lemma stream_fold_progress l :
  forall st,
    Forall (progressWithin (st_totalEmailsScanned st) (st_totalWithPdf st))
      (sent st) ->
    Forall (progressWithin (st_totalEmailsScanned (fold_left step l st))
              (st_totalWithPdf (fold_left step l st)))
      (sent (fold_left step l st)).
Proof.
  induction l as [|msg l IH]; intros st H; [exact H|].
  cbn [fold_left]. apply IH. now apply streamOne_progress.
Qed.

Lemma streamBatches_restrict (f : Message -> bool) s bs :
  (forall msg, f msg = keep resumeAfter msg) ->
  forall st st',
    core st = core st' ->
    core (fst (streamBatches resumeAfter maxResults previous allUidsLength
                 s bs st))
    = core (fst (streamBatches resumeAfter maxResults previous allUidsLength
                   (restrictFetch f s) bs st'))
    /\ snd (streamBatches resumeAfter maxResults previous allUidsLength
              s bs st)
       = snd (streamBatches resumeAfter maxResults previous allUidsLength
                (restrictFetch f s) bs st').
Proof.
  intros Hf. induction bs as [|b bs IH]; intros st st' H; [now split|].
  cbn [streamBatches restrictFetch fetch].
  destruct (fetch s b) as [yielded thrown]. cbn [fst snd].
  pose proof (stream_fold_core yielded st st' H) as E.
  rewrite <- (filter_ext _ _ Hf yielded) in E.
  destruct thrown as [m|]; [now split|]. now apply IH.
Qed.

Lemma streamBatches_healthy s :
  (forall uids, snd (fetch s uids) = None) ->
  forall bs st,
    streamBatches resumeAfter maxResults previous allUidsLength s bs st
    = (fold_left step (flat_map (fun b => fst (fetch s b)) bs) st, None).
Proof.
  intros Hq bs. induction bs as [|b bs IH]; intros st; [reflexivity|].
  cbn [streamBatches flat_map]. specialize (Hq b).
  destruct (fetch s b) as [yielded thrown]. simpl in Hq. subst thrown.
  rewrite IH, fold_left_app. reflexivity.
Qed.

End StreamLoopFacts.

Lemma restrictFetch_healthy f s : healthy s -> healthy (restrictFetch f s).
Proof.
  intros [H1 H2 H3 H4 H5 H6]. constructor; cbn; auto.
Qed.

Lemma fetchedMessages_restrict f s allUids :
  fetchedMessages (restrictFetch f s) allUids
  = filter f (fetchedMessages s allUids).
Proof.
  unfold fetchedMessages. induction (batches allUids) as [|b bs IH];
    [reflexivity|].
  cbn [flat_map]. rewrite filter_app, IH. reflexivity.
Qed.

(** The answer of [/search] on a healthy session. *)
Lemma postSearch_healthy (req : SearchRequest) (s : Session) (now : Z) :
  missing (email req) = false -> missing (password req) = false ->
  healthy s ->
  let daysBack := destructure (Num 365) (daysBack req) in
  let fetched :=
    fetchedMessages s (candidates s (Since (sinceDateOf now daysBack))) in
  postSearch req s now
  = Json (mkSearchBody
            (firstn (Z.to_nat (toNumber (destructure (Num 5000) (maxResults req))))
               (pdfMsgs fetched))
            (Z.of_nat (List.length fetched))
            (Z.of_nat (List.length (filter hasPdf fetched)))
            (effectiveDaysBack daysBack)).
Proof.
  intros He Hp [H1 H2 H3 H4 H5 H6]. cbv zeta.
  unfold postSearch, candidates, fetchedMessages. rewrite He, Hp, H1, H3.
  cbn [orb Scan.bind].
  destruct (H4 (Since (sinceDateOf now (destructure (Num 365) (daysBack req)))))
    as [r Hr].
  rewrite Hr. cbn [Scan.bind].
  rewrite (scanBatches_healthy s _ H5), scanOne_fold, H6.
  cbn [Scan.bind app List.length]. rewrite Nat.sub_0_r. reflexivity.
Qed.

(** The events of [/search-stream] on a healthy session. *)
Lemma postSearchStream_healthy (req : StreamRequest) (s : Session) (now : Z) :
  missing (s_email req) = false -> missing (s_password req) = false ->
  healthy s ->
  let kept :=
    filter (keep (destructure Null (resumeAfterUid req)))
      (fetchedMessages s (candidates s (criteriaOf req now))) in
  exists logs evs last,
    postSearchStream req s now
    = EventStream logs
        (evs ++ [Complete
                   (orZero (previousScanned req) + Z.of_nat (List.length kept))
                   (orZero (previousWithPdf req)
                    + Z.of_nat (List.length (filter hasPdf kept)))
                   (effectiveDaysBack (destructure (Num 365) (s_daysBack req)))
                   last])
    /\ batched evs
       = firstn (Z.to_nat (toNumber (destructure (Num 5000) (s_maxResults req))))
           (pdfMsgs kept)
    /\ Forall (progressWithin
                 (orZero (previousScanned req) + Z.of_nat (List.length kept))
                 (orZero (previousWithPdf req)
                  + Z.of_nat (List.length (filter hasPdf kept)))) evs.
Proof.
  intros He Hp [H1 [n H2] H3 H4 H5 H6]. cbv zeta.
  unfold postSearchStream, candidates, fetchedMessages, criteriaOf.
  rewrite He, Hp, H1, H2, H3. cbn [orb].
  match goal with |- context [search s ?c] => destruct (H4 c) as [r Hr] end.
  rewrite Hr. rewrite (streamBatches_healthy _ _ _ _ s H5).
  match goal with |- context [fold_left ?f ?l ?st0] =>
    set (st := fold_left f l st0);
    pose proof (stream_fold_counters _ _ _ _ l st0 : counters st = _) as Hc;
    pose proof (stream_fold_batched _ _ _ _ l st0 eq_refl
                : batched (sent st) ++ pendingMessages st = st_messages st)
      as Hb;
    assert (Hprog : Forall (progressWithin (st_totalEmailsScanned st)
                              (st_totalWithPdf st)) (sent st))
      by (apply (stream_fold_progress _ _ _ _ l st0); repeat constructor)
  end.
  unfold counters in Hc.
  cbn [st_messages st_totalEmailsScanned st_totalWithPdf] in Hc.
  rewrite scanOne_fold in Hc. cbn [app List.length] in Hc.
  injection Hc as Hm Hs Hw. rewrite Nat.sub_0_r in Hm.
  rewrite H6. rewrite Hs, Hw in *. do 3 eexists. split; [reflexivity|].
  rewrite <- Hm, <- Hb.
  destruct (pendingMessages st) as [|x pending]; cbn [List.length Nat.ltb Nat.leb].
  - split; [now rewrite app_nil_r|exact Hprog].
  - split.
    + unfold batched. rewrite flat_map_app. cbn. now rewrite app_nil_r.
    + apply Forall_app. split; [exact Hprog|]. repeat constructor.
Qed.

(** The events of a scan are those of the scan of a mailbox from which the
    messages that fail the resume test are never delivered. *)
Lemma postSearchStream_restrict (f : Message -> bool) (req : StreamRequest)
  (s : Session) (now : Z) :
  (forall msg, f msg = keep (destructure Null (resumeAfterUid req)) msg) ->
  postSearchStream req s now = postSearchStream req (restrictFetch f s) now.
Proof.
  intros Hf. unfold postSearchStream.
  cbn [restrictFetch connect status Scan.mailboxOpen search Scan.logout].
  destruct (missing (s_email req) || missing (s_password req))%bool;
    [reflexivity|].
  destruct (connect s); [|reflexivity].
  destruct (status s); [|reflexivity].
  destruct (Scan.mailboxOpen s); [|reflexivity].
  match goal with |- context [search s ?c] => destruct (search s c) as [r|m] end;
    [|reflexivity].
  match goal with
  | |- context [streamBatches ?a ?b ?c ?d s ?bs ?st0] =>
      pose proof (streamBatches_restrict a b c d f s bs Hf st0 st0 eq_refl)
        as [Hcore Hthrown];
      destruct (streamBatches a b c d s bs st0) as [st thrown];
      destruct (streamBatches a b c d (restrictFetch _ s) bs st0)
        as [st' thrown']
  end.
  cbn [fst snd] in Hcore, Hthrown. subst thrown'.
  unfold core in Hcore. injection Hcore as E1 E2 E3 E4 E5 E6.
  rewrite E2, E3, E4, E5, E6. reflexivity.
Qed.

Lemma streamBatches_yielded resumeAfter maxResults previous n s bs :
  forall st,
    exists l,
      fst (streamBatches resumeAfter maxResults previous n s bs st)
      = fold_left (streamOne resumeAfter maxResults previous n) l st.
Proof.
  induction bs as [|b bs IH]; intros st; [now exists []|].
  cbn [streamBatches]. destruct (fetch s b) as [yielded [m|]].
  - now exists yielded.
  - destruct (IH (fold_left (streamOne resumeAfter maxResults previous n)
                    yielded st)) as [l Hl].
    exists (yielded ++ l). now rewrite fold_left_app.
Qed.

Lemma batched_snoc_error evs msg : batched (evs ++ [Error msg]) = batched evs.
Proof. unfold batched. rewrite flat_map_app. cbn. apply app_nil_r. Qed.

Lemma batched_snoc_complete evs a b c d :
  batched (evs ++ [Complete a b c d]) = batched evs.
Proof. unfold batched. rewrite flat_map_app. cbn. apply app_nil_r. Qed.

(** Whatever the session does, the messages streamed in [pdf_batch] events
    are the first of the messages kept, up to the cap. *)
Lemma postSearchStream_batched (req : StreamRequest) (s : Session) (now : Z) :
  forall logs events,
    postSearchStream req s now = EventStream logs events ->
    exists l rest,
      batched events ++ rest
      = firstn (Z.to_nat (toNumber (destructure (Num 5000) (s_maxResults req))))
          (pdfMsgs (filter (keep (destructure Null (resumeAfterUid req))) l)).
Proof.
  intros logs events. unfold postSearchStream, failWith.
  assert (trivial : forall k, exists (l : list Message) (rest : list PdfMsg),
             [] ++ rest = firstn k (pdfMsgs (filter
               (keep (destructure Null (resumeAfterUid req))) l))).
  { intros k. exists [], []. now rewrite firstn_nil. }
  destruct (missing (s_email req) || missing (s_password req))%bool;
    [discriminate|].
  destruct (connect s);
    [|intros H; injection H as <- <-; apply trivial].
  destruct (status s);
    [|intros H; injection H as <- <-; apply trivial].
  destruct (Scan.mailboxOpen s);
    [|intros H; injection H as <- <-; apply trivial].
  match goal with |- context [search s ?c] => destruct (search s c) as [r|m] end;
    [|intros H; injection H as <- <-; apply trivial].
  match goal with
  | |- context [streamBatches ?a ?b ?c ?d s ?bs ?st0] =>
      destruct (streamBatches_yielded a b c d s bs st0) as [l Hl];
      pose proof (stream_fold_counters a b c d l st0) as Hc;
      pose proof (stream_fold_batched a b c d l st0 eq_refl) as Hb;
      destruct (streamBatches a b c d s bs st0) as [st thrown]
  end.
  cbn [fst] in Hl. rewrite <- Hl in Hc, Hb.
  unfold counters in Hc.
  cbn [st_messages st_totalEmailsScanned st_totalWithPdf] in Hc.
  rewrite scanOne_fold in Hc. cbn [app List.length] in Hc.
  injection Hc as Hm _ _. rewrite Nat.sub_0_r in Hm.
  assert (flush : batched
            (if (0 <? List.length (pendingMessages st))%nat
             then sent st ++ [PdfBatch (pendingMessages st) (st_totalWithPdf st)]
             else sent st) = st_messages st).
  { rewrite <- Hb. destruct (pendingMessages st); cbn [List.length Nat.ltb Nat.leb].
    - now rewrite app_nil_r.
    - unfold batched. rewrite flat_map_app. cbn. now rewrite app_nil_r. }
  destruct thrown as [m|].
  - intros H; injection H as <- <-. rewrite batched_snoc_error.
    exists l, (pendingMessages st). now rewrite Hb.
  - destruct (Scan.logout s); intros H; injection H as <- <-;
      rewrite ?batched_snoc_error, ?batched_snoc_complete, flush;
      exists l, []; now rewrite app_nil_r.
Qed.

Lemma pdfMsgs_uid (f : Message -> bool) (l : list Message) :
  Forall (fun m => exists msg, m_uid m = uid msg /\ f msg = true)
    (pdfMsgs (filter f l)).
Proof.
  unfold pdfMsgs. apply Forall_forall. intros m Hin.
  apply in_map_iff in Hin. destruct Hin as [msg [<- Hin]].
  apply filter_In in Hin. destruct Hin as [Hin _].
  apply filter_In in Hin. destruct Hin as [_ Hf]. now exists msg.
Qed.

Lemma Forall_firstn_of {A : Type} (P : A -> Prop) (n : nat) :
  forall l, Forall P l -> Forall P (firstn n l).
Proof.
  induction n as [|n IH]; intros l H; [constructor|].
  destruct H; cbn [firstn]; constructor; auto.
Qed.

Lemma keep_unset msg : keep Null msg = true.
Proof. reflexivity. Qed.

Lemma keep_uid U msg : U <> 0 -> keep (Num U) msg = (uid msg <? U).
Proof.
  intros HU. unfold keep. cbn [truthyN toNumber].
  destruct (Z.eqb_spec U 0); [contradiction|]. cbn [negb andb].
  rewrite Z.ltb_antisym. reflexivity.
Qed.

Lemma filter_all {A : Type} (f : A -> bool) (l : list A) :
  (forall x, f x = true) -> filter f l = l.
Proof.
  intros H. induction l as [|x l IH]; [reflexivity|].
  cbn [filter]. now rewrite H, IH.
Qed.

(** The handlers read [daysBack] through [effectiveDaysBack] only. *)
Lemma postSearch_daysBack e p m d1 d2 s now :
  effectiveDaysBack (destructure (Num 365) d1)
  = effectiveDaysBack (destructure (Num 365) d2) ->
  postSearch (mkSearchRequest e p d1 m) s now
  = postSearch (mkSearchRequest e p d2 m) s now.
Proof.
  intros H. unfold postSearch, sinceDateOf.
  cbn [email password daysBack maxResults]. now rewrite H.
Qed.

Lemma postSearchStream_daysBack e p m r u ps pp d1 d2 s now :
  effectiveDaysBack (destructure (Num 365) d1)
  = effectiveDaysBack (destructure (Num 365) d2) ->
  postSearchStream (mkStreamRequest e p d1 m r u ps pp) s now
  = postSearchStream (mkStreamRequest e p d2 m r u ps pp) s now.
Proof.
  intros H. unfold postSearchStream, sinceDateOf.
  cbn [s_email s_password s_daysBack s_maxResults resumeAfterUid sinceUid
       previousScanned previousWithPdf].
  now rewrite H.
Qed.

Lemma mailboxSession_healthy mailbox : healthy (mailboxSession mailbox).
Proof.
  constructor; cbn; eauto.
Qed.

(** C4.  On a session that does not fail, [/search] answers the first
    [maxResults] PDF-bearing messages of those fetched, while
    [totalEmailsScanned] counts every fetched message and [totalWithPdf]
    every PDF-bearing one; 120 fetched messages with 6 PDF-bearing and
    [maxResults = 5] give 5 messages and the totals 6 and 120.  A fresh
    [/search-stream] streams the same messages in its [pdf_batch] events and
    completes with the same totals, and no stream, failing or not, carries
    more than [maxResults] messages. *)
Theorem cap_limits_messages_not_counts :
  forall (req : SearchRequest) (s : Session) (now m : Z),
    missing (email req) = false ->
    missing (password req) = false ->
    maxResults req = Some (Num m) ->
    healthy s ->
    let fetched :=
      fetchedMessages s
        (candidates s
           (Since (sinceDateOf now (destructure (Num 365) (daysBack req))))) in
    exists body,
      postSearch req s now = Json body
      /\ messages body = firstn (Z.to_nat m) (pdfMsgs fetched)
      /\ (0 <= m -> Z.of_nat (List.length (messages body)) <= m)
      /\ totalEmailsScanned body = Z.of_nat (List.length fetched)
      /\ totalWithPdf body = Z.of_nat (List.length (filter hasPdf fetched))
      /\ (List.length fetched = 120%nat ->
          List.length (filter hasPdf fetched) = 6%nat ->
          m = 5 ->
          List.length (messages body) = 5%nat
          /\ totalWithPdf body = 6
          /\ totalEmailsScanned body = 120)
      /\ (forall prevScanned prevWithPdf,
             exists logs evs last,
               postSearchStream
                 (mkStreamRequest (email req) (password req) (daysBack req)
                    (maxResults req) None None prevScanned prevWithPdf) s now
               = EventStream logs
                   (evs ++ [Complete
                              (orZero prevScanned
                               + Z.of_nat (List.length fetched))
                              (orZero prevWithPdf
                               + Z.of_nat (List.length (filter hasPdf fetched)))
                              (r_daysBack body) last])
               /\ batched evs = messages body)
      /\ (forall (sreq : StreamRequest) (s' : Session) logs events,
             s_maxResults sreq = Some (Num m) ->
             postSearchStream sreq s' now = EventStream logs events ->
             0 <= m ->
             Z.of_nat (List.length (batched events)) <= m).
Proof.
  intros req s now m He Hp Hm Hs fetched.
  pose proof (postSearch_healthy req s now He Hp Hs) as Hsearch.
  cbv zeta in Hsearch. rewrite Hm in Hsearch. cbn [destructure toNumber] in Hsearch.
  fold fetched in Hsearch.
  eexists. split; [exact Hsearch|]. cbn [messages totalEmailsScanned totalWithPdf
                                           r_daysBack].
  assert (Hlen : List.length (pdfMsgs fetched)
                 = List.length (filter hasPdf fetched)).
  { unfold pdfMsgs. apply length_map. }
  repeat split.
  - intros Hm0. pose proof (firstn_le_length (Z.to_nat m) (pdfMsgs fetched)). lia.
  - rewrite length_firstn, Hlen. lia.
  - lia.
  - lia.
  - intros prevScanned prevWithPdf.
    destruct (postSearchStream_healthy
                (mkStreamRequest (email req) (password req) (daysBack req)
                   (maxResults req) None None prevScanned prevWithPdf)
                s now He Hp Hs) as [logs [evs [last [Hstream [Hb _]]]]].
    unfold criteriaOf in Hstream, Hb.
    cbn [s_daysBack s_maxResults resumeAfterUid sinceUid previousScanned
         previousWithPdf destructure truthyN] in Hstream, Hb.
    rewrite (filter_all _ _ keep_unset) in Hstream, Hb. fold fetched in Hstream, Hb.
    rewrite Hm in Hb. exists logs, evs, last. split; assumption.
  - intros sreq s' logs events Hm' Hstream Hm0.
    destruct (postSearchStream_batched sreq s' now logs events Hstream)
      as [l [rest Hpre]].
    rewrite Hm' in Hpre. cbn [destructure toNumber] in Hpre.
    apply (f_equal (@List.length PdfMsg)) in Hpre. rewrite length_app in Hpre.
    pose proof (firstn_le_length (Z.to_nat m)
                  (pdfMsgs (filter (keep (destructure Null (resumeAfterUid sreq)))
                              l))).
    lia.
Qed.

Lemma cap_limits_messages_not_counts_witness :
  exists body,
    postSearch scenarioRequest (mailboxSession scenarioMailbox) 20000 = Json body
    /\ List.length (messages body) = 5%nat
    /\ totalWithPdf body = 6
    /\ totalEmailsScanned body = 120.
Proof.
  destruct (cap_limits_messages_not_counts scenarioRequest
              (mailboxSession scenarioMailbox) 20000 5
              eq_refl eq_refl eq_refl (mailboxSession_healthy scenarioMailbox))
    as [body [Hbody [_ [_ [_ [_ [Hscenario _]]]]]]].
  exists body. split; [exact Hbody|].
  apply Hscenario; [vm_compute; reflexivity|vm_compute; reflexivity|reflexivity].
Defined.

Lemma keep_zero msg : keep (Num 0) msg = true.
Proof. reflexivity. Qed.

(** C5, as stated, fails at [U = 0]: the test [resumeAfterUid && ...] is
    then false, so no message is skipped although every UID is [>= 0].  On
    the scenario mailbox the scan counts the 120 messages, 6 of them with a
    PDF, and the message with UID 120 is in a [pdf_batch] event. *)
Lemma resume_after_zero_skips_nothing :
  exists logs events,
    postSearchStream zeroResumeRequest (mailboxSession scenarioMailbox) 20000
    = EventStream logs events
    /\ In (Complete 120 6 365 (Num 20)) events
    /\ In 120 (map m_uid (batched events)).
Proof.
  eexists. eexists. split; [vm_compute; reflexivity|].
  split; vm_compute; repeat first [left; reflexivity | right].
Qed.

(** C5, amended.  With [resumeAfterUid = U], [U] a number other than 0 (as
    every UID is), the stream of events is the stream of the same scan on a
    mailbox that never delivers a message with UID [>= U]: such a message
    reaches no event.  No [pdf_batch] event, of a failing scan or not,
    carries a message with UID [>= U], and a scan that completes reports the
    previous counts plus the messages, and the PDF-bearing messages, with
    UID [< U], which bound the counts of its [progress] events.  With
    [resumeAfterUid = 0] no message is skipped: a scan that completes
    streams and counts every message fetched. *)
Theorem resume_skips_uids_at_or_above :
  forall (req : StreamRequest) (s : Session) (now U : Z),
    resumeAfterUid req = Some (Num U) ->
    (U <> 0 ->
     let older := fun msg => uid msg <? U in
     postSearchStream req s now
     = postSearchStream req (restrictFetch older s) now
     /\ (forall logs events,
            postSearchStream req s now = EventStream logs events ->
            Forall (fun m => m_uid m < U) (batched events))
     /\ (missing (s_email req) = false ->
         missing (s_password req) = false ->
         healthy s ->
         let kept :=
           filter older
             (fetchedMessages s (candidates s (criteriaOf req now))) in
         exists logs evs daysBack last,
           postSearchStream req s now
           = EventStream logs
               (evs ++ [Complete
                          (orZero (previousScanned req)
                           + Z.of_nat (List.length kept))
                          (orZero (previousWithPdf req)
                           + Z.of_nat (List.length (filter hasPdf kept)))
                          daysBack last])
           /\ Forall (progressWithin
                        (orZero (previousScanned req)
                         + Z.of_nat (List.length kept))
                        (orZero (previousWithPdf req)
                         + Z.of_nat (List.length (filter hasPdf kept)))) evs))
    /\ (U = 0 ->
        missing (s_email req) = false ->
        missing (s_password req) = false ->
        healthy s ->
        let fetched :=
          fetchedMessages s (candidates s (criteriaOf req now)) in
        exists logs evs daysBack last,
          postSearchStream req s now
          = EventStream logs
              (evs ++ [Complete
                         (orZero (previousScanned req)
                          + Z.of_nat (List.length fetched))
                         (orZero (previousWithPdf req)
                          + Z.of_nat (List.length (filter hasPdf fetched)))
                         daysBack last])
          /\ batched evs
             = firstn (Z.to_nat (toNumber (destructure (Num 5000)
                                             (s_maxResults req))))
                 (pdfMsgs fetched)).
Proof.
  intros req s now U HU. split.
  - intros HU0 older.
    assert (Hkeep : forall msg,
               older msg = keep (destructure Null (resumeAfterUid req)) msg).
    { intros msg. rewrite HU. cbn [destructure]. now rewrite keep_uid. }
    repeat split.
    + now apply postSearchStream_restrict.
    + intros logs events Hstream.
      destruct (postSearchStream_batched req s now logs events Hstream)
        as [l [rest Hpre]].
      assert (Hall : Forall (fun m => m_uid m < U) (batched events ++ rest)).
      { rewrite Hpre. apply Forall_firstn_of.
        eapply Forall_impl; [|apply pdfMsgs_uid].
        intros m [msg [-> Hmsg]]. rewrite <- Hkeep in Hmsg.
        now apply Z.ltb_lt in Hmsg. }
      apply Forall_app in Hall. tauto.
    + intros He Hp Hs kept.
      destruct (postSearchStream_healthy req s now He Hp Hs)
        as [logs [evs [last [Hstream [_ Hprog]]]]].
      rewrite <- (filter_ext _ _ Hkeep) in Hstream, Hprog.
      fold kept in Hstream, Hprog.
      now exists logs, evs,
        (effectiveDaysBack (destructure (Num 365) (s_daysBack req))), last.
  - intros -> He Hp Hs fetched.
    destruct (postSearchStream_healthy req s now He Hp Hs)
      as [logs [evs [last [Hstream [Hbatched _]]]]].
    rewrite HU in Hstream, Hbatched. cbn [destructure] in Hstream, Hbatched.
    rewrite (filter_all _ _ keep_zero) in Hstream, Hbatched.
    fold fetched in Hstream, Hbatched.
    now exists logs, evs,
      (effectiveDaysBack (destructure (Num 365) (s_daysBack req))), last.
Qed.

Lemma resume_skips_uids_at_or_above_witness :
  postSearchStream resumeRequest (mailboxSession scenarioMailbox) 20000
  = postSearchStream resumeRequest
      (restrictFetch (fun msg => uid msg <? 100) (mailboxSession scenarioMailbox))
      20000
  /\ exists logs evs daysBack last,
       postSearchStream zeroResumeRequest (mailboxSession scenarioMailbox) 20000
       = EventStream logs (evs ++ [Complete 120 6 daysBack last])
       /\ map m_uid (batched evs) = [40; 60; 80; 100; 120; 20].
Proof.
  split.
  - apply (proj1 (resume_skips_uids_at_or_above resumeRequest
                    (mailboxSession scenarioMailbox) 20000 100 eq_refl)).
    discriminate.
  - destruct (proj2 (resume_skips_uids_at_or_above zeroResumeRequest
                       (mailboxSession scenarioMailbox) 20000 0 eq_refl)
                eq_refl eq_refl eq_refl
                (mailboxSession_healthy scenarioMailbox))
      as [logs [evs [daysBack [last [Hstream Hbatched]]]]].
    exists logs, evs, daysBack, last. split.
    + rewrite Hstream. reflexivity.
    + rewrite Hbatched. vm_compute. reflexivity.
Defined.

Lemma scanBatches_fetch s s' maxResults bs :
  fetch s' = fetch s ->
  forall st, scanBatches s' maxResults bs st = scanBatches s maxResults bs st.
Proof.
  intros Hf. induction bs as [|b bs IH]; intros st; [reflexivity|].
  cbn [scanBatches]. rewrite Hf. destruct (fetch s b) as [yielded [m|]];
    [reflexivity|apply IH].
Qed.

Lemma streamBatches_fetch s s' resumeAfter maxResults previous n bs :
  fetch s' = fetch s ->
  forall st,
    streamBatches resumeAfter maxResults previous n s' bs st
    = streamBatches resumeAfter maxResults previous n s bs st.
Proof.
  intros Hf. induction bs as [|b bs IH]; intros st; [reflexivity|].
  cbn [streamBatches]. rewrite Hf. destruct (fetch s b) as [yielded [m|]];
    [reflexivity|apply IH].
Qed.

Lemma effectiveDaysBack_min d : 1 <= d -> effectiveDaysBack (Num d) = Z.min d 3650.
Proof.
  intros Hd. unfold effectiveDaysBack. cbn [toNumber truthyN].
  destruct (Z.leb_spec 3650 d); [lia|].
  destruct (Z.eqb_spec d 0); cbn [negb]; lia.
Qed.

Lemma boundEcho_healthy : healthy boundEcho.
Proof.
  constructor; cbn; eauto. intros [d|u]; eauto.
Qed.

(** C6.  For a requested [daysBack >= 1] the effective days-back is
    [min(daysBack, 3650)] and the date bound is [now - min(daysBack, 3650)].
    [/search], and [/search-stream] in a full scan, search the mailbox since
    that date and no other: the answer is the one on a session that answers
    every search as the search since that date is answered, and when no call
    throws it is made of the messages found since that date and reports
    [min(daysBack, 3650)] as its [daysBack].  [3650] and [100000] give the
    same date bound, and so the same answers. *)
Theorem effectiveDaysBack_clamps_at_3650 :
  (forall d, 1 <= d -> effectiveDaysBack (Num d) = Z.min d 3650)
  /\ (forall now d, 1 <= d -> sinceDateOf now (Num d) = now - Z.min d 3650)
  /\ (forall req s now d,
         daysBack req = Some (Num d) -> 1 <= d ->
         postSearch req s now
         = postSearch req (searchedAt (Since (now - Z.min d 3650)) s) now
         /\ (missing (email req) = false -> missing (password req) = false ->
             healthy s ->
             let fetched :=
               fetchedMessages s
                 (candidates s (Since (now - Z.min d 3650))) in
             postSearch req s now
             = Json (mkSearchBody
                       (firstn (Z.to_nat (toNumber (destructure (Num 5000)
                                                      (maxResults req))))
                          (pdfMsgs fetched))
                       (Z.of_nat (List.length fetched))
                       (Z.of_nat (List.length (filter hasPdf fetched)))
                       (Z.min d 3650))))
  /\ (forall req s now d,
         s_daysBack req = Some (Num d) -> 1 <= d ->
         truthyN (destructure Null (sinceUid req)) = false ->
         postSearchStream req s now
         = postSearchStream req (searchedAt (Since (now - Z.min d 3650)) s) now
         /\ (missing (s_email req) = false ->
             missing (s_password req) = false ->
             healthy s ->
             let kept :=
               filter (keep (destructure Null (resumeAfterUid req)))
                 (fetchedMessages s
                    (candidates s (Since (now - Z.min d 3650)))) in
             exists logs evs last,
               postSearchStream req s now
               = EventStream logs
                   (evs ++ [Complete
                              (orZero (previousScanned req)
                               + Z.of_nat (List.length kept))
                              (orZero (previousWithPdf req)
                               + Z.of_nat (List.length (filter hasPdf kept)))
                              (Z.min d 3650) last])
               /\ batched evs
                  = firstn (Z.to_nat (toNumber (destructure (Num 5000)
                                                  (s_maxResults req))))
                      (pdfMsgs kept)))
  /\ (forall now, sinceDateOf now (Num 3650) = sinceDateOf now (Num 100000))
  /\ (forall e p m s now,
         postSearch (mkSearchRequest e p (Some (Num 3650)) m) s now
         = postSearch (mkSearchRequest e p (Some (Num 100000)) m) s now)
  /\ (forall e p m r u ps pp s now,
         postSearchStream
           (mkStreamRequest e p (Some (Num 3650)) m r u ps pp) s now
         = postSearchStream
             (mkStreamRequest e p (Some (Num 100000)) m r u ps pp) s now).
Proof.
  assert (Hsince : forall now d,
             1 <= d -> sinceDateOf now (Num d) = now - Z.min d 3650).
  { intros now d Hd. unfold sinceDateOf. now rewrite effectiveDaysBack_min. }
  split; [exact effectiveDaysBack_min|]. split; [exact Hsince|].
  split; [|split; [|split; [|split]]].
  - intros req s now d Hd H1. split.
    + unfold postSearch. rewrite Hd. cbn [destructure]. rewrite (Hsince now d H1).
      cbn [searchedAt connect Scan.mailboxOpen search Scan.logout].
      destruct (_ || _)%bool; [reflexivity|].
      destruct (connect s); [|reflexivity].
      destruct (Scan.mailboxOpen s); [|reflexivity]. cbn [Scan.bind].
      destruct (search s (Since (now - Z.min d 3650))); [|reflexivity].
      cbn [Scan.bind].
      now rewrite (scanBatches_fetch s
                     (searchedAt (Since (now - Z.min d 3650)) s) _ _ eq_refl).
    + intros He Hp Hs fetched.
      rewrite (postSearch_healthy req s now He Hp Hs). cbv zeta.
      rewrite Hd. cbn [destructure].
      now rewrite (Hsince now d H1), (effectiveDaysBack_min d H1).
  - intros req s now d Hd H1 Hinc. split.
    + unfold postSearchStream. rewrite Hd, Hinc. cbn [destructure].
      rewrite (Hsince now d H1).
      cbn [searchedAt connect status Scan.mailboxOpen search Scan.logout].
      destruct (_ || _)%bool; [reflexivity|].
      destruct (connect s); [|reflexivity].
      destruct (status s); [|reflexivity].
      destruct (Scan.mailboxOpen s); [|reflexivity].
      destruct (search s (Since (now - Z.min d 3650))); [|reflexivity].
      now rewrite (streamBatches_fetch s
                     (searchedAt (Since (now - Z.min d 3650)) s)
                     _ _ _ _ _ eq_refl).
    + intros He Hp Hs kept.
      destruct (postSearchStream_healthy req s now He Hp Hs)
        as [logs [evs [last [Hstream [Hbatched _]]]]].
      unfold criteriaOf in Hstream, Hbatched.
      rewrite Hinc, Hd in Hstream, Hbatched.
      cbn [destructure] in Hstream, Hbatched.
      rewrite (Hsince now d H1) in Hstream, Hbatched.
      rewrite (effectiveDaysBack_min d H1) in Hstream.
      now exists logs, evs, last.
  - reflexivity.
  - intros. now apply postSearch_daysBack.
  - intros. now apply postSearchStream_daysBack.
Qed.

Lemma effectiveDaysBack_clamps_at_3650_witness :
  effectiveDaysBack (Num 5000) = Z.min 5000 3650
  /\ sinceDateOf 20000 (Num 100000) = 16350
  /\ postSearch allTimeRequest boundEcho 20000
     = Json (mkSearchBody
               [pdfMsgOf (mkMessage 16350 None None None (Some pdfLeaf))
                  (extractPdfAttachments (Some pdfLeaf))]
               1 1 3650).
Proof.
  destruct effectiveDaysBack_clamps_at_3650 as [Hmin [Hsince [Hsearch _]]].
  split; [|split].
  - apply (Hmin 5000). lia.
  - apply (Hsince 20000 100000). lia.
  - apply (proj2 (Hsearch allTimeRequest boundEcho 20000 100000 eq_refl
                    ltac:(lia))
             eq_refl eq_refl boundEcho_healthy).
Defined.


(** ** The attachment retrieval *)

Import Attachment.
Import AttachmentSpec.

Local Open Scope nat_scope.

Lemma isPdfBuffer_magic (b : Buffer) :
  isPdfBuffer b = true <-> firstn 4 b = pdfMagic.
Proof.
  unfold pdfMagic.
  destruct b as [|b0 [|b1 [|b2 [|b3 r]]]]; cbn; try (split; discriminate).
  rewrite !andb_true_iff. split.
  - intros [[[H0 H1] H2] H3].
    apply Byte.byte_dec_bl in H0, H1, H2, H3. now subst.
  - intros H. injection H as -> -> -> ->. repeat split.
Qed.

(** What a [bind] that returns went through. *)
Lemma bind_Ok {A B : Type} (m : M A) (k : A -> M B) es r :
  Attachment.bind m k = (es, Ok r) ->
  exists es1 a es2, m = (es1, Ok a) /\ k a = (es2, Ok r) /\ es = es1 ++ es2.
Proof.
  unfold Attachment.bind. destruct m as [es1 [a|msg]]; [|discriminate].
  destruct (k a) as [es2 r'] eqn:Hk. intros H. injection H as <- ->.
  now exists es1, a, es2.
Qed.

(** A payload is answered only after the checks. *)
Lemma validate_Ok a dl es r :
  validate a dl = (es, Ok r) ->
  exists b fn,
    r = Pdf b fn (List.length b) /\ b <> [] /\ isPdfBuffer b = true.
Proof.
  unfold validate. destruct dl as [[[stream|] meta]|]; try discriminate.
  intros H. apply bind_Ok in H. destruct H as [es1 [buffer [es2 [_ [H _]]]]].
  destruct buffer as [|x data]; [discriminate|].
  destruct (isPdfBuffer (x :: data)) eqn:Hpdf.
  - apply bind_Ok in H. destruct H as [? [? [? [_ [H _]]]]].
    apply bind_Ok in H. destruct H as [? [? [? [_ [H _]]]]].
    injection H as _ <-. exists (x :: data), (JS.orElse meta "document.pdf").
    repeat split; [discriminate|exact Hpdf].
  - apply bind_Ok in H. destruct H as [? [? [? [_ [H _]]]]]. discriminate.
Qed.

Lemma tryAttempt_Ok req a k es r :
  tryAttempt req a k = (es, Ok r) ->
  exists b fn,
    r = Pdf b fn (List.length b) /\ b <> [] /\ isPdfBuffer b = true.
Proof.
  unfold tryAttempt. intros H.
  do 5 (apply bind_Ok in H; destruct H as [? [? [? [_ [H _]]]]]).
  exact (validate_Ok _ _ _ _ H).
Qed.

Lemma retry_Pdf req script remaining :
  forall attempt lastError es b fn n,
    retry req script remaining attempt lastError = (es, Pdf b fn n) ->
    n = List.length b /\ b <> [] /\ isPdfBuffer b = true.
Proof.
  induction remaining as [|remaining IH]; intros attempt lastError es b fn n;
    cbn [retry]; [discriminate|].
  destruct (tryAttempt req (script attempt) attempt) as [es1 [r|err]] eqn:Ht.
  - intros H. injection H as _ ->. apply tryAttempt_Ok in Ht.
    destruct Ht as [b' [fn' [E [Hne Hpdf]]]]. injection E as <- <- <-. auto.
  - destruct (retry req script remaining (S attempt) (Some err))
      as [es' r'] eqn:Hr.
    intros H. injection H as _ ->. exact (IH _ _ _ _ _ _ Hr).
Qed.

(** A payload that fails the checks fails the attempt, although the
    transport delivered it. *)
Lemma validate_rejects a b meta :
  firstn 4 b <> pdfMagic ->
  snd (validate a (Some (mkDownloadResult (Some (Ends b)) meta)))
  = Throws (Some (match b with
                  | [] => "Downloaded attachment is empty"%string
                  | _ :: _ => notPdfMessage b
                  end)).
Proof.
  intros H. destruct b as [|x data]; [reflexivity|].
  unfold validate. cbn [streamToBuffer ret Attachment.bind].
  destruct (isPdfBuffer (x :: data)) eqn:Hpdf; [|reflexivity].
  apply isPdfBuffer_magic in Hpdf. contradiction.
Qed.

Lemma tryAttempt_rejects req a k es0 b meta :
  createClient a = Ok tt ->
  Attachment.mailboxOpen a = Ok tt ->
  obtain a (JS.orElse (partId req) "")
  = (es0, Ok (Some (mkDownloadResult (Some (Ends b)) meta))) ->
  firstn 4 b <> pdfMagic ->
  snd (tryAttempt req a k)
  = Throws (Some (match b with
                  | [] => "Downloaded attachment is empty"%string
                  | _ :: _ => notPdfMessage b
                  end)).
Proof.
  intros Hc Hm Ho Hb. unfold tryAttempt. rewrite Hc, Hm, Ho.
  pose proof (validate_rejects a b meta Hb) as Hv.
  cbn [tell call Attachment.bind].
  destruct (validate a _) as [es r]. cbn [snd] in Hv. subst r. reflexivity.
Qed.

(** C7.  [/attachment] answers a payload only if it is not empty and starts
    with the bytes 25 50 44 46; an attempt whose transport delivered an empty
    payload or one that starts with other bytes throws, so that attempt
    answers nothing. *)
Theorem only_pdf_payload_is_returned :
  (forall req script es b fn n,
      postAttachment req script = (es, Pdf b fn n) ->
      b <> [] /\ firstn 4 b = pdfMagic /\ n = List.length b)
  /\ (forall req a k es0 b meta,
         createClient a = Ok tt ->
         Attachment.mailboxOpen a = Ok tt ->
         obtain a (JS.orElse (partId req) "")
         = (es0, Ok (Some (mkDownloadResult (Some (Ends b)) meta))) ->
         b = [] \/ firstn 4 b <> pdfMagic ->
         exists message, snd (tryAttempt req a k) = Throws (Some message)).
Proof.
  split.
  - intros req script es b fn n. unfold postAttachment.
    destruct (_ || _)%bool; [discriminate|]. intros H.
    apply retry_Pdf in H. destruct H as [Hn [Hne Hpdf]].
    apply isPdfBuffer_magic in Hpdf. auto.
  - intros req a k es0 b meta Hc Hm Ho Hb.
    assert (Hb' : firstn 4 b <> pdfMagic).
    { destruct Hb as [->|Hb]; [discriminate|exact Hb]. }
    rewrite (tryAttempt_rejects req a k es0 b meta Hc Hm Ho Hb'). eauto.
Qed.

Lemma only_pdf_payload_is_returned_witness :
  (pdfPayload <> [] /\ firstn 4 pdfPayload = pdfMagic
   /\ 8 = List.length pdfPayload)
  /\ exists message,
       snd (tryAttempt attachmentRequest (serving htmlPayload) 1)
       = Throws (Some message).
Proof.
  split.
  - apply (proj1 only_pdf_payload_is_returned attachmentRequest
             (fun _ => serving pdfPayload)
             [CreateClient 30000; LogDownloading 42 "2" 1; LogSuccess 8]
             pdfPayload "inv.pdf"%string 8).
    reflexivity.
  - apply (proj2 only_pdf_payload_is_returned attachmentRequest
             (serving htmlPayload) 1 [] htmlPayload (Some "inv.pdf"%string));
      [reflexivity|reflexivity|reflexivity|right; discriminate].
Defined.

Lemma connections_app es es' :
  connections (es ++ es') = connections es + connections es'.
Proof. unfold connections. now rewrite filter_app, length_app. Qed.

Lemma sleeps_app es es' : sleeps (es ++ es') = sleeps es ++ sleeps es'.
Proof. unfold sleeps. apply flat_map_app. Qed.

Lemma calm_bind {A B : Type} (m : M A) (k : A -> M B) :
  calm m -> (forall a, calm (k a)) -> calm (Attachment.bind m k).
Proof.
  unfold calm, Attachment.bind. intros [Hc Hs] Hk.
  destruct m as [es [a|msg]]; cbn [fst] in *; [|auto].
  specialize (Hk a). destruct (k a) as [es' r]. cbn [fst] in *.
  rewrite connections_app, sleeps_app. destruct Hk as [-> ->].
  rewrite Hc, Hs. auto.
Qed.

Lemma calm_call {A : Type} (o : Outcome A) : calm (call o).
Proof. now split. Qed.

Lemma calm_ret {A : Type} (a : A) : calm (ret a).
Proof. now split. Qed.

Lemma calm_throw {A : Type} msg : calm (@throw A msg).
Proof. now split. Qed.

Create HintDb calm.
#[local] Hint Resolve calm_call calm_ret calm_throw : calm.

Lemma tryParts_calm a pdfParts : calm (tryParts a pdfParts).
Proof.
  induction pdfParts as [|p rest IH]; cbn [tryParts]; [auto with calm|].
  apply calm_bind; [now split|intros _].
  destruct (downloadPart a (ppath p)); [auto with calm|].
  apply calm_bind; [now split|intros _; exact IH].
Qed.

Lemma locate_calm a partId err : calm (locate a partId err).
Proof.
  unfold locate. apply calm_bind; [now split|intros _].
  apply calm_bind; [auto with calm|intros [[bs|]|]]; auto with calm.
  apply calm_bind; [now split|intros _].
  destruct (findPdfParts bs "" []); [auto with calm|apply tryParts_calm].
Qed.

Lemma obtain_calm a partId : calm (obtain a partId).
Proof.
  unfold obtain. destruct (download a); [auto with calm|apply locate_calm].
Qed.

Lemma validate_calm a dl : calm (validate a dl).
Proof.
  unfold validate. destruct dl as [[[stream|] meta]|]; auto with calm.
  apply calm_bind.
  - destruct stream; [apply calm_ret|apply calm_call].
  - intros [|x data]; [auto with calm|].
    destruct (isPdfBuffer (x :: data)).
    + apply calm_bind; [now split|intros _].
      apply calm_bind; auto with calm.
    + apply calm_bind; [now split|intros _]. auto with calm.
Qed.

Lemma fst_bind_tell {B : Type} (e : Effect) (k : unit -> M B) :
  fst (Attachment.bind (tell e) k) = e :: fst (k tt).
Proof.
  unfold Attachment.bind, tell. now destruct (k tt).
Qed.

(** One attempt opens one connection and waits for nothing. *)
Lemma tryAttempt_effects req a k :
  connections (fst (tryAttempt req a k)) = 1
  /\ sleeps (fst (tryAttempt req a k)) = [].
Proof.
  unfold tryAttempt.
  match goal with
  | |- context [Attachment.bind (tell (CreateClient 30000)) ?k] =>
      assert (Hrest : calm (k tt)); [|set (rest := k) in *]
  end.
  { apply calm_bind; [auto with calm|intros _].
    apply calm_bind; [auto with calm|intros _].
    apply calm_bind; [now split|intros _].
    apply calm_bind; [apply obtain_calm|intros dl; apply validate_calm]. }
  rewrite fst_bind_tell. destruct Hrest as [Hc Hs].
  change (CreateClient 30000 :: fst (rest tt))
    with ([CreateClient 30000] ++ fst (rest tt)).
  rewrite connections_app, sleeps_app, Hc, Hs. now split.
Qed.

Lemma retry_effects req script remaining :
  forall attempt lastError,
    remaining + attempt = 4 ->
    let es := fst (retry req script remaining attempt lastError) in
    connections es <= remaining
    /\ (1 <= remaining -> 1 <= connections es)
    /\ sleeps es = map waitMs (seq attempt (connections es - 1)).
Proof.
  induction remaining as [|remaining IH]; intros attempt lastError Hsum;
    cbn [retry].
  - cbn. repeat split; lia.
  - destruct (tryAttempt_effects req (script attempt) attempt) as [Hc Hs].
    destruct (tryAttempt req (script attempt) attempt) as [es1 [r|err]];
      cbn [fst] in *.
    + rewrite Hc, Hs. repeat split; lia.
    + specialize (IH (S attempt) (Some err) ltac:(lia)). cbv zeta in IH.
      destruct (retry req script remaining (S attempt) (Some err)) as [es' r'].
      cbn [fst] in *. destruct IH as [IH1 [IH2 IH3]].
      rewrite !connections_app, !sleeps_app, Hc, Hs, IH3.
      unfold MAX_RETRIES. destruct (Nat.ltb_spec attempt 3) as [Hlt|Hge].
      * specialize (IH2 ltac:(lia)).
        replace (1 + (connections [LogDownloadError attempt err]
                      + (connections [LogWaiting (waitMs attempt);
                                      Sleep (waitMs attempt)]
                         + connections es')) - 1)
          with (S (connections es' - 1)) by (cbn; lia).
        cbn. repeat split; lia.
      * assert (connections es' = 0) as -> by lia.
        cbn. repeat split; lia.
Qed.

Lemma waitMs_formula k :
  1 <= k -> waitMs k = (1000 * 2 ^ (Z.of_nat k - 1))%Z.
Proof.
  intros Hk. unfold waitMs. do 2 f_equal. lia.
Qed.

(** C8.  A well-formed [/attachment] request makes between one and three
    attempts; the delays waited are those of the failed attempts [k < 3], in
    order, [1000 * 2^(k-1)] milliseconds each; when the three attempts fail
    the answer is status 500 with the message of the last error (the text
    ["Download failed after retries"] when that message is empty). *)
Theorem retries_are_bounded_with_backoff :
  forall req script,
    missing (Attachment.email req) = false ->
    missing (Attachment.password req) = false ->
    messageUid req <> 0%Z ->
    missing (partId req) = false ->
    let es := fst (postAttachment req script) in
    (1 <= connections es <= 3)
    /\ sleeps es = map waitMs (seq 1 (connections es - 1))
    /\ (forall k, 1 <= k -> waitMs k = (1000 * 2 ^ (Z.of_nat k - 1))%Z)
    /\ (forall es1 e1 es2 e2 es3 e3,
           tryAttempt req (script 1) 1 = (es1, Throws e1) ->
           tryAttempt req (script 2) 2 = (es2, Throws e2) ->
           tryAttempt req (script 3) 3 = (es3, Throws e3) ->
           postAttachment req script
           = (es1 ++ [LogDownloadError 1 e1; LogWaiting 1000; Sleep 1000]
                ++ es2 ++ [LogDownloadError 2 e2; LogWaiting 2000; Sleep 2000]
                ++ es3 ++ [LogDownloadError 3 e3;
                           LogAllFailed (messageUid req)
                             (JS.orElse (partId req) "") e3],
              Attachment.Status 500
                (JS.orElse e3 "Download failed after retries"))
           /\ (forall c text, e3 = Some (String c text) ->
               snd (postAttachment req script)
               = Attachment.Status 500 (String c text))).
Proof.
  intros req script He Hp Hu Hpart es.
  assert (Hpost : postAttachment req script = retry req script 3 1 None).
  { unfold postAttachment. rewrite He, Hp, Hpart.
    destruct (Z.eqb_spec (messageUid req) 0); [contradiction|reflexivity]. }
  subst es. rewrite Hpost.
  destruct (retry_effects req script 3 1 None eq_refl) as [H1 [H2 H3]].
  split; [lia|]. split; [exact H3|]. split; [exact waitMs_formula|].
  intros es1 e1 es2 e2 es3 e3 T1 T2 T3.
  assert (Hrun : retry req script 3 1 None
                 = (es1 ++ [LogDownloadError 1 e1; LogWaiting 1000; Sleep 1000]
                      ++ es2
                      ++ [LogDownloadError 2 e2; LogWaiting 2000; Sleep 2000]
                      ++ es3 ++ [LogDownloadError 3 e3;
                                 LogAllFailed (messageUid req)
                                   (JS.orElse (partId req) "") e3],
                    Attachment.Status 500
                      (JS.orElse e3 "Download failed after retries"))).
  { cbn [retry]. rewrite T1, T2, T3. reflexivity. }
  split; [exact Hrun|]. intros c text ->. rewrite Hrun. reflexivity.
Qed.

Lemma retries_are_bounded_with_backoff_witness :
  sleeps (fst (postAttachment attachmentRequest
                 (fun _ => failing (Some "ETIMEDOUT"%string))))
  = [1000%Z; 2000%Z]
  /\ snd (postAttachment attachmentRequest
            (fun _ => failing (Some "ETIMEDOUT"%string)))
     = Attachment.Status 500 "ETIMEDOUT".
Proof.
  destruct (retries_are_bounded_with_backoff attachmentRequest
              (fun _ => failing (Some "ETIMEDOUT"%string))
              eq_refl eq_refl ltac:(discriminate) eq_refl)
    as [_ [_ [_ Hall]]].
  destruct (Hall [CreateClient 30000] (Some "ETIMEDOUT"%string)
              [CreateClient 30000] (Some "ETIMEDOUT"%string)
              [CreateClient 30000] (Some "ETIMEDOUT"%string)
              eq_refl eq_refl eq_refl) as [Hrun Hmsg].
  split.
  - rewrite Hrun. reflexivity.
  - exact (Hmsg _ _ eq_refl).
Defined.




Section PayloadChange.

Variable f : Buffer -> Buffer.

Hypothesis f_length : forall b, List.length (f b) = List.length b.
Hypothesis f_prefix : forall b, firstn 100 (f b) = firstn 100 b.






End PayloadChange.




(** * Further properties *)

(** ** The walkers, on every structure *)

Import WalkSpec.

Local Open Scope string_scope.
Local Open Scope list_scope.
Local Open Scope nat_scope.

(** Two [forEach] loops over the same array keep a relation between their
    accumulators when every pair of calls does. *)
Lemma forEach_rel {A S S' : Type} (R : S -> S' -> Prop)
  (f : A -> nat -> S -> S) (f' : A -> nat -> S' -> S') (l : list A) :
  Forall (fun x => forall i s s', R s s' -> R (f x i s) (f' x i s')) l ->
  forall k s s', R s s' -> R (JS.forEach f l k s) (JS.forEach f' l k s').
Proof.
  induction 1 as [|x r Hx _ IH]; intros k s s' H; simpl; auto.
Qed.

(** A [forEach] of appending calls is the concatenation of what each call
    appends, child by child. *)
Lemma forEach_flat_map {A B : Type} (f : A -> nat -> list B -> list B)
  (l : list A) :
  Forall (fun x => forall i acc, f x i acc = acc ++ f x i []) l ->
  forall k acc,
    JS.forEach f l k acc
    = acc ++ flat_map (fun xi => f (fst xi) (snd xi) [])
               (combine l (seq k (List.length l))).
Proof.
  induction 1 as [|x r Hx _ IH]; intros k acc; simpl.
  - now rewrite app_nil_r.
  - rewrite IH, Hx, <- app_assoc. reflexivity.
Qed.

Lemma findPdfParts_leaf ty sub disp name sz enc path acc :
  findPdfParts (mkPart ty sub disp name sz enc None) path acc
  = if isPdf (mimeTypeOf ty sub) (resolveFilename disp name)
    then acc ++ [mkPdfPart (JS.orElse (Some path) "1")
                   (resolveFilename disp name) sz enc]
    else acc.
Proof. reflexivity. Qed.

Lemma findPdfParts_node ty sub disp name sz enc cs path acc :
  findPdfParts (mkPart ty sub disp name sz enc (Some cs)) path acc
  = JS.forEach (fun child idx a => findPdfParts child (childPath path idx) a)
      cs 0
      (if isPdf (mimeTypeOf ty sub) (resolveFilename disp name)
       then acc ++ [mkPdfPart (JS.orElse (Some path) "1")
                      (resolveFilename disp name) sz enc]
       else acc).
Proof. reflexivity. Qed.

(** X1.  The fallback locator of [/attachment] finds the parts that the scan
    reported: the same part paths in the same order, with the same size and
    encoding, and the same name but for the unnamed parts, which the scan
    calls ["document.pdf"]. *)
Theorem locator_agrees_with_walker :
  forall (p : Part) (path : string),
    map (fun q => (ppath q, JS.orElse (Some (pfilename q)) "document.pdf",
                   sizeOr0 (psize q), pencoding q))
      (findPdfParts p path [])
    = map (fun d => (Mime.partId d, filename d, dsize d, dencoding d))
        (walk p path []).
Proof.
  intros p.
  set (R := fun (acc : list PdfPart) (acc' : list Descriptor) =>
              map (fun q => (ppath q,
                             JS.orElse (Some (pfilename q)) "document.pdf",
                             sizeOr0 (psize q), pencoding q)) acc
              = map (fun d => (Mime.partId d, filename d, dsize d, dencoding d))
                  acc').
  assert (push : forall ty sub disp name sz enc path acc acc',
             R acc acc' ->
             R (if isPdf (mimeTypeOf ty sub) (resolveFilename disp name)
                then acc ++ [mkPdfPart (JS.orElse (Some path) "1")
                               (resolveFilename disp name) sz enc]
                else acc)
               (pushPdf ty sub disp name sz enc path acc')).
  { intros ty sub disp name sz enc path acc acc' H. unfold pushPdf.
    destruct (isPdf _ _); [|exact H].
    unfold R in *. rewrite !map_app, H. reflexivity. }
  assert (gen : forall path acc acc',
             R acc acc' -> R (findPdfParts p path acc) (walk p path acc')).
  { induction p as [ty sub disp name sz enc|ty sub disp name sz enc cs IH]
      using Part_induction; intros path acc acc' H.
    - rewrite findPdfParts_leaf, walk_leaf. now apply push.
    - rewrite findPdfParts_node, walk_node. apply forEach_rel.
      + eapply Forall_impl; [|exact IH]. intros c Hc i a a' Ha. now apply Hc.
      + now apply push. }
  intros path. now apply (gen path [] []).
Qed.

Lemma preorder_leaf ty sub disp name sz enc path acc :
  preorder (mkPart ty sub disp name sz enc None) path acc
  = acc ++ [(path, mkPart ty sub disp name sz enc None)].
Proof. reflexivity. Qed.

Lemma preorder_node ty sub disp name sz enc cs path acc :
  preorder (mkPart ty sub disp name sz enc (Some cs)) path acc
  = JS.forEach (fun child index a => preorder child (childPath path index) a)
      cs 0 (acc ++ [(path, mkPart ty sub disp name sz enc (Some cs))]).
Proof. reflexivity. Qed.

Lemma pushPdf_reported ty sub disp name sz enc children path acc nodes :
  acc = flat_map reported nodes ->
  pushPdf ty sub disp name sz enc path acc
  = flat_map reported
      (nodes ++ [(path, mkPart ty sub disp name sz enc children)]).
Proof.
  intros ->. rewrite flat_map_app. cbn [flat_map]. rewrite app_nil_r.
  unfold pushPdf, reported, isPdfNode, descriptorOf. cbn.
  now destruct (isPdf _ _); rewrite ?app_nil_r.
Qed.

(** X2.  The walk reports exactly the nodes that pass the PDF test, each at
    its own path, in document order: the node itself, then its children from
    the first to the last, each with its descendants. *)
Theorem walk_reports_pdf_nodes_in_document_order :
  forall (p : Part) (path : string),
    walk p path [] = flat_map reported (preorder p path []).
Proof.
  intros p.
  assert (gen : forall path acc nodes,
             acc = flat_map reported nodes ->
             walk p path acc = flat_map reported (preorder p path nodes)).
  { induction p as [ty sub disp name sz enc|ty sub disp name sz enc cs IH]
      using Part_induction; intros path acc nodes H.
    - rewrite walk_leaf, preorder_leaf. now apply pushPdf_reported.
    - rewrite walk_node, preorder_node.
      apply (forEach_rel (fun a n => a = flat_map reported n)).
      + eapply Forall_impl; [|exact IH]. intros c Hc i a n Ha. now apply Hc.
      + now apply pushPdf_reported. }
  intros path. now apply (gen path [] []).
Qed.

(** What every pushed descriptor satisfies, every reported one does. *)
Lemma walk_Forall (Q : Descriptor -> Prop) :
  (forall ty sub disp name sz enc path,
      isPdf (mimeTypeOf ty sub) (resolveFilename disp name) = true ->
      Q (mkDescriptor
           (JS.orElse (Some (resolveFilename disp name)) "document.pdf")
           (mimeTypeOf ty sub) (sizeOr0 sz) (JS.orElse (Some path) "1") enc)) ->
  forall p path acc, Forall Q acc -> Forall Q (walk p path acc).
Proof.
  intros HQ.
  assert (push : forall ty sub disp name sz enc path acc,
             Forall Q acc -> Forall Q (pushPdf ty sub disp name sz enc path acc)).
  { intros ty sub disp name sz enc path acc Hacc. unfold pushPdf.
    destruct (isPdf _ _) eqn:E; [|exact Hacc].
    apply Forall_app. split; [exact Hacc|]. constructor; [|constructor].
    now apply HQ. }
  induction p as [ty sub disp name sz enc|ty sub disp name sz enc cs IH]
    using Part_induction; intros path acc Hacc.
  - rewrite walk_leaf. now apply push.
  - rewrite walk_node. apply forEach_Forall.
    + eapply Forall_impl; [|exact IH]. intros c Hc i a. apply Hc.
    + now apply push.
Qed.

Lemma lowerChar_idempotent c : JS.lowerChar (JS.lowerChar c) = JS.lowerChar c.
Proof.
  destruct c as [[] [] [] [] [] [] [] []]; reflexivity.
Qed.

Lemma toLowerCase_idempotent s :
  JS.toLowerCase (JS.toLowerCase s) = JS.toLowerCase s.
Proof.
  induction s as [|c s IH]; [reflexivity|].
  cbn [JS.toLowerCase]. now rewrite lowerChar_idempotent, IH.
Qed.

Lemma toLowerCase_append s t :
  JS.toLowerCase (s ++ t) = (JS.toLowerCase s ++ JS.toLowerCase t)%string.
Proof.
  induction s as [|c s IH]; [reflexivity|].
  cbn [JS.toLowerCase String.append]. now rewrite IH.
Qed.

Lemma orElse_toLowerCase a b :
  JS.orElse (option_map JS.toLowerCase a) (JS.toLowerCase b)
  = JS.toLowerCase (JS.orElse a b).
Proof.
  destruct a as [[|c s]|]; reflexivity.
Qed.

Lemma orElse_toLowerCase_empty a :
  JS.orElse (option_map JS.toLowerCase a) "" = JS.toLowerCase (JS.orElse a "").
Proof. exact (orElse_toLowerCase a ""). Qed.

(** X3.  The PDF test does not look at the case of letters: a node passes it
    exactly when the node with its type, subtype, disposition filename and
    parameter name in lower case does, and the MIME type reported is in
    lower case. *)
Theorem pdf_test_ignores_case :
  forall ty sub disp name,
    let '(ty', sub', disp', name') := lowerFields ty sub disp name in
    isPdf (mimeTypeOf ty' sub') (resolveFilename disp' name')
    = isPdf (mimeTypeOf ty sub) (resolveFilename disp name)
    /\ mimeTypeOf ty' sub' = mimeTypeOf ty sub
    /\ JS.toLowerCase (mimeTypeOf ty sub) = mimeTypeOf ty sub.
Proof.
  intros ty sub disp name. cbn [lowerFields].
  assert (Hmime : mimeTypeOf (option_map JS.toLowerCase ty)
                    (option_map JS.toLowerCase sub) = mimeTypeOf ty sub).
  { unfold mimeTypeOf.
    rewrite !orElse_toLowerCase_empty, !toLowerCase_append.
    now rewrite !toLowerCase_idempotent. }
  assert (Hname : resolveFilename (option_map JS.toLowerCase disp)
                    (option_map JS.toLowerCase name)
                  = JS.toLowerCase (resolveFilename disp name)).
  { unfold resolveFilename.
    now rewrite orElse_toLowerCase_empty, orElse_toLowerCase. }
  repeat split.
  - rewrite Hmime, Hname. unfold isPdf. now rewrite toLowerCase_idempotent.
  - exact Hmime.
  - unfold mimeTypeOf. apply toLowerCase_idempotent.
Qed.

(** X4.  Every descriptor of a walk passes the PDF test on its own MIME type
    and filename, and has a part id and a filename that are not empty. *)
Theorem descriptors_pass_the_pdf_test :
  forall (bs : option Part),
    Forall (fun d => isPdf (mimeType d) (filename d) = true
                     /\ Mime.partId d <> ""
                     /\ filename d <> "")
      (extractPdfAttachments bs).
Proof.
  intros [p|]; [|constructor]. cbn [extractPdfAttachments].
  apply walk_Forall; [|constructor].
  intros ty sub disp name sz enc path Hpdf. cbn. repeat split.
  - destruct (resolveFilename disp name) as [|c r] eqn:E; [|exact Hpdf].
    unfold isPdf in *. cbn in Hpdf. rewrite orb_false_r in Hpdf.
    cbn. now rewrite Hpdf.
  - now destruct path.
  - now destruct (resolveFilename disp name).
Qed.

(** *** Part ids are addresses *)

Lemma str_app_assoc (a b c : string) :
  ((a ++ b) ++ c)%string = (a ++ b ++ c)%string.
Proof.
  induction a as [|x a IH]; [reflexivity|]. cbn. now rewrite IH.
Qed.

Lemma str_app_inv_head (p a b : string) :
  (p ++ a)%string = (p ++ b)%string -> a = b.
Proof.
  induction p as [|x p IH]; cbn; [auto|]. intros H. injection H as H. auto.
Qed.

Lemma str_app_nil_r (a : string) : (a ++ "")%string = a.
Proof.
  induction a as [|x a IH]; [reflexivity|]. cbn. now rewrite IH.
Qed.

Lemma uint_digits d : allDigits (NilEmpty.string_of_uint d) = true.
Proof.
  induction d; cbn; auto.
Qed.

Lemma to_uint_nonnil n : Nat.to_uint n <> Decimal.Nil.
Proof.
  intros H. pose proof (DecimalNat.Unsigned.of_to n) as E.
  rewrite H in E. cbn in E. subst n. discriminate H.
Qed.

Lemma showNat_digits n : allDigits (JS.showNat n) = true.
Proof.
  unfold JS.showNat, NilZero.string_of_uint.
  destruct (Nat.to_uint n); try reflexivity; apply uint_digits.
Qed.

Lemma showNat_inj n m : JS.showNat n = JS.showNat m -> n = m.
Proof.
  unfold JS.showNat. intros H.
  apply (f_equal NilZero.uint_of_string) in H.
  rewrite !NilZero.usu in H by apply to_uint_nonnil.
  injection H as H. now apply DecimalNat.Unsigned.to_uint_inj.
Qed.

Lemma showNat_truthy n : JS.truthy (JS.showNat n) = true.
Proof.
  unfold JS.showNat, NilZero.string_of_uint.
  destruct (Nat.to_uint n); reflexivity.
Qed.

Lemma leadingDigits_app s r :
  allDigits s = true ->
  r = "" \/ (exists r', r = String "." r') ->
  leadingDigits (s ++ r) = s.
Proof.
  induction s as [|c s IH]; cbn; intros Hs Hr.
  - destruct Hr as [->|[r' ->]]; reflexivity.
  - apply andb_true_iff in Hs. destruct Hs as [Hc Hs].
    rewrite Hc, IH; auto.
Qed.

Lemma childPath_prefix path i :
  childPath path i = (childPrefix path ++ JS.showNat (i + 1))%string.
Proof.
  unfold childPath, childPrefix. destruct (JS.truthy path); [|reflexivity].
  now rewrite str_app_assoc.
Qed.

Lemma childPath_truthy path i : JS.truthy (childPath path i) = true.
Proof.
  unfold childPath. destruct path as [|c r]; cbn; [|reflexivity].
  apply showNat_truthy.
Qed.

Lemma orElse_path path : JS.truthy path = true -> JS.orElse (Some path) "1" = path.
Proof. now destruct path. Qed.

(** A part id below the child [i] names [i]. *)
Lemma under_child_inj path i j id :
  under (childPath path i) id -> under (childPath path j) id -> i = j.
Proof.
  intros [r [E Hr]] [r' [E' Hr']]. subst id.
  rewrite !childPath_prefix, !str_app_assoc in E'.
  apply str_app_inv_head in E'.
  apply (f_equal leadingDigits) in E'.
  rewrite !leadingDigits_app in E' by auto using showNat_digits.
  apply showNat_inj in E'. lia.
Qed.

Lemma under_child_parent path i id :
  JS.truthy path = true -> under (childPath path i) id ->
  exists r', id = (path ++ String "." r')%string.
Proof.
  intros Hp [r [-> _]]. unfold childPath. rewrite Hp.
  rewrite !str_app_assoc. eexists. cbn. reflexivity.
Qed.

Lemma under_refl path : under path path.
Proof. exists "". split; [now rewrite str_app_nil_r|now left]. Qed.

Lemma walk_under (p : Part) :
  forall path,
    JS.truthy path = true ->
    Forall (fun d => under path (Mime.partId d)) (walk p path []).
Proof.
  assert (gen : forall path acc,
             JS.truthy path = true ->
             Forall (fun d => under path (Mime.partId d)) acc ->
             Forall (fun d => under path (Mime.partId d)) (walk p path acc)).
  { assert (push : forall ty sub disp name sz enc path acc,
               JS.truthy path = true ->
               Forall (fun d => under path (Mime.partId d)) acc ->
               Forall (fun d => under path (Mime.partId d))
                 (pushPdf ty sub disp name sz enc path acc)).
    { intros ty sub disp name sz enc path acc Hp Hacc. unfold pushPdf.
      destruct (isPdf _ _); [|exact Hacc].
      apply Forall_app. split; [exact Hacc|]. constructor; [|constructor].
      cbn [Mime.partId]. rewrite orElse_path by exact Hp. apply under_refl. }
    induction p as [ty sub disp name sz enc|ty sub disp name sz enc cs IH]
      using Part_induction; intros path acc Hp Hacc.
    - rewrite walk_leaf. now apply push.
    - rewrite walk_node. apply forEach_Forall; [|now apply push].
      eapply Forall_impl; [|exact IH]. intros c Hc i a Ha.
      rewrite walk_appends. apply Forall_app. split; [exact Ha|].
      eapply Forall_impl;
        [|apply (Hc (childPath path i) []);
          [apply childPath_truthy|constructor]].
      intros d Hd. cbn beta in *.
      destruct (under_child_parent path i _ Hp Hd) as [r' ->].
      exists (String "." r'). split; [reflexivity|right; now exists r']. }
  intros path Hp. apply gen; [exact Hp|constructor].
Qed.

Lemma NoDup_flat_map_keyed {X Y K : Type} (kx : X -> K) (h : X -> list Y)
  (l : list X) :
  NoDup (map kx l) ->
  (forall x, In x l -> NoDup (h x)) ->
  (forall x x' y, In x l -> In x' l -> In y (h x) -> In y (h x') ->
                  kx x = kx x') ->
  NoDup (flat_map h l).
Proof.
  induction l as [|x l IH]; intros Hk Hh Hd; [constructor|].
  cbn [flat_map map] in *. apply NoDup_cons_iff in Hk. destruct Hk as [Hx Hk].
  apply NoDup_app.
  - apply Hh. now left.
  - apply IH; [exact Hk|intros; apply Hh; now right|].
    intros x1 x2 y H1 H2. apply Hd; now right.
  - intros y Hy Hin. apply in_flat_map in Hin. destruct Hin as [x' [Hx' Hy']].
    apply Hx. rewrite (Hd x x' y); [|now left|now right|exact Hy|exact Hy'].
    now apply in_map.
Qed.

Lemma map_snd_combine_seq {A : Type} (l : list A) k :
  map snd (combine l (seq k (List.length l))) = seq k (List.length l).
Proof.
  revert k. induction l as [|x l IH]; intros k; [reflexivity|].
  cbn. now rewrite IH.
Qed.

Lemma map_flat_map {A B C : Type} (g : B -> C) (h : A -> list B) (l : list A) :
  map g (flat_map h l) = flat_map (fun x => map g (h x)) l.
Proof.
  induction l as [|x l IH]; [reflexivity|].
  cbn. now rewrite map_app, IH.
Qed.

(** The part ids of a node: its own, then those of each child. *)
Lemma ids_node ty sub disp name sz enc cs path :
  map Mime.partId (walk (mkPart ty sub disp name sz enc (Some cs)) path [])
  = map Mime.partId (pushPdf ty sub disp name sz enc path [])
    ++ flat_map
         (fun xi => map Mime.partId (walk (fst xi) (childPath path (snd xi)) []))
         (combine cs (seq 0 (List.length cs))).
Proof.
  rewrite walk_node.
  rewrite (forEach_flat_map
             (fun child index a => walk child (childPath path index) a)).
  - now rewrite map_app, map_flat_map.
  - apply Forall_forall. intros c _ i a. apply walk_appends.
Qed.

Lemma children_ids_NoDup cs path :
  Forall (fun c => forall path', JS.truthy path' = true ->
                                 NoDup (map Mime.partId (walk c path' []))) cs ->
  NoDup (flat_map
           (fun xi => map Mime.partId (walk (fst xi) (childPath path (snd xi)) []))
           (combine cs (seq 0 (List.length cs)))).
Proof.
  intros IH. apply (NoDup_flat_map_keyed snd).
  - rewrite map_snd_combine_seq. apply seq_NoDup.
  - intros [c i] Hin. cbn [fst snd]. apply in_combine_l in Hin.
    rewrite Forall_forall in IH. apply (IH c Hin). apply childPath_truthy.
  - intros [c i] [c' j] id _ _ Hid Hid'. cbn [fst snd] in *.
    apply in_map_iff in Hid. destruct Hid as [d [<- Hd]].
    apply in_map_iff in Hid'. destruct Hid' as [d' [E Hd']].
    pose proof (walk_under c (childPath path i) (childPath_truthy path i)) as U.
    pose proof (walk_under c' (childPath path j) (childPath_truthy path j)) as U'.
    rewrite Forall_forall in U, U'.
    apply (under_child_inj path i j (Mime.partId d)); [now apply U|].
    rewrite <- E. now apply U'.
Qed.

Lemma walk_ids_NoDup (p : Part) :
  forall path,
    JS.truthy path = true -> NoDup (map Mime.partId (walk p path [])).
Proof.
  induction p as [ty sub disp name sz enc|ty sub disp name sz enc cs IH]
    using Part_induction; intros path Hp.
  - rewrite walk_leaf. unfold pushPdf.
    destruct (isPdf _ _); cbn; repeat constructor; auto.
  - rewrite ids_node. apply NoDup_app.
    + unfold pushPdf. destruct (isPdf _ _); cbn; repeat constructor; auto.
    + now apply children_ids_NoDup.
    + intros id Hown Hin. unfold pushPdf in Hown.
      destruct (isPdf _ _); [|contradiction].
      cbn [map app Mime.partId In] in Hown.
      rewrite orElse_path in Hown by exact Hp. destruct Hown as [<-|[]].
      apply in_flat_map in Hin. destruct Hin as [[c i] [_ Hin]].
      cbn [fst snd] in Hin. apply in_map_iff in Hin.
      destruct Hin as [d [E Hd]].
      pose proof (walk_under c (childPath path i) (childPath_truthy path i)) as U.
      rewrite Forall_forall in U. specialize (U d Hd). rewrite E in U.
      destruct (under_child_parent path i path Hp U) as [r' Hr'].
      rewrite <- (str_app_nil_r path) in Hr' at 1.
      apply str_app_inv_head in Hr'. discriminate.
Qed.

(** X5.  Part ids address parts: the walk of a subtree at a non-empty path
    reports no part id twice, and neither does the walk of a message whose
    root fails the PDF test. *)
Theorem part_ids_are_unique :
  (forall p path,
      JS.truthy path = true -> NoDup (map Mime.partId (walk p path [])))
  /\ (forall p,
         isPdfNode p = false ->
         NoDup (map Mime.partId (extractPdfAttachments (Some p)))).
Proof.
  split; [intros p path; apply walk_ids_NoDup|].
  intros [ty sub disp name sz enc [cs|]] Hroot; unfold isPdfNode in Hroot;
    cbn in Hroot; cbn [extractPdfAttachments].
  - rewrite ids_node. unfold pushPdf. rewrite Hroot. cbn [map app].
    apply children_ids_NoDup. apply Forall_forall. intros c _.
    apply walk_ids_NoDup.
  - rewrite walk_leaf. unfold pushPdf. rewrite Hroot. constructor.
Qed.

Lemma part_ids_are_unique_witness :
  NoDup (map Mime.partId (extractPdfAttachments (Some plainRoot))).
Proof.
  apply (proj2 part_ids_are_unique plainRoot). reflexivity.
Defined.

Lemma walk_children_split ty sub disp name sz enc cs path :
  walk (mkPart ty sub disp name sz enc (Some cs)) path []
  = pushPdf ty sub disp name sz enc path []
    ++ JS.forEach (fun child index a => walk child (childPath path index) a)
         cs 0 [].
Proof.
  rewrite walk_node. apply forEach_appends.
  apply Forall_forall. intros c _ i a. apply walk_appends.
Qed.

(** The walk of a node that passes the PDF test starts with its
    descriptor. *)
Lemma walk_head (p : Part) path :
  isPdfNode p = true ->
  exists tail, walk p path [] = descriptorOf path p :: tail.
Proof.
  destruct p as [ty sub disp name sz enc [cs|]]; unfold isPdfNode; cbn;
    intros H.
  - change (exists tail,
               walk (mkPart ty sub disp name sz enc (Some cs)) path []
               = descriptorOf path (mkPart ty sub disp name sz enc (Some cs))
                   :: tail).
    rewrite walk_children_split. unfold pushPdf. rewrite H.
    eexists. reflexivity.
  - change (exists tail,
               walk (mkPart ty sub disp name sz enc None) path []
               = descriptorOf path (mkPart ty sub disp name sz enc None)
                   :: tail).
    rewrite walk_leaf. unfold pushPdf. rewrite H. eexists. reflexivity.
Qed.

(** X6.  When the root of a message passes the PDF test and so does its
    first child, the walk reports both under the part id ["1"]. *)
Theorem root_and_first_child_share_part_id :
  forall ty sub disp name sz enc child rest,
    isPdf (mimeTypeOf ty sub) (resolveFilename disp name) = true ->
    isPdfNode child = true ->
    exists d1 d2 tail,
      extractPdfAttachments
        (Some (mkPart ty sub disp name sz enc (Some (child :: rest))))
      = d1 :: d2 :: tail
      /\ Mime.partId d1 = "1" /\ Mime.partId d2 = "1"
      /\ mimeType d1 = mimeTypeOf ty sub
      /\ d2 = descriptorOf "1" child.
Proof.
  intros ty sub disp name sz enc child rest Hroot Hchild.
  cbn [extractPdfAttachments]. rewrite walk_children_split.
  unfold pushPdf. rewrite Hroot. cbn [JS.forEach app].
  change (childPath "" 0) with "1".
  rewrite (forEach_appends
             (fun child index a => walk child (childPath "" index) a)).
  - destruct (walk_head child "1" Hchild) as [tail ->].
    do 3 eexists. split; [cbn [app]; reflexivity|]. repeat split.
  - apply Forall_forall. intros c _ i a. apply walk_appends.
Qed.

Lemma root_and_first_child_share_part_id_witness :
  exists d1 d2 tail,
    extractPdfAttachments
      (Some (mkPart (Some "multipart") (Some "mixed") None (Some "all.pdf")
               None None (Some [pdfLeaf; textLeaf])))
    = d1 :: d2 :: tail
    /\ Mime.partId d1 = "1" /\ Mime.partId d2 = "1".
Proof.
  destruct (root_and_first_child_share_part_id
              (Some "multipart") (Some "mixed") None (Some "all.pdf") None None
              pdfLeaf [textLeaf] eq_refl eq_refl)
    as [d1 [d2 [tail [H [H1 [H2 _]]]]]].
  now exists d1, d2, tail.
Defined.

Lemma legacy_walk_leaf ty sub disp name sz enc pid acc :
  Legacy.walk (mkPart ty sub disp name sz enc None) pid acc
  = if isPdf (mimeTypeOf ty sub) (resolveFilename disp name)
    then acc ++ [Legacy.mkDescriptor
                   (JS.orElse (Some (resolveFilename disp name)) "document.pdf")
                   (mimeTypeOf ty sub) (sizeOr0 sz) pid]
    else acc.
Proof. reflexivity. Qed.

Lemma legacy_walk_node ty sub disp name sz enc cs pid acc :
  Legacy.walk (mkPart ty sub disp name sz enc (Some cs)) pid acc
  = JS.forEach
      (fun child index a =>
         Legacy.walk child (pid ++ "." ++ JS.showNat (index + 1)) a)
      cs 0
      (if isPdf (mimeTypeOf ty sub) (resolveFilename disp name)
       then acc ++ [Legacy.mkDescriptor
                      (JS.orElse (Some (resolveFilename disp name))
                         "document.pdf")
                      (mimeTypeOf ty sub) (sizeOr0 sz) pid]
       else acc).
Proof. reflexivity. Qed.

(** Below the root, the walker of [src/index.js] walks at ["1."] and the
    path of the current walker. *)
Lemma legacy_walk_shift (p : Part) :
  forall path acc,
    JS.truthy path = true ->
    Legacy.walk p ("1." ++ path) (map legacyOf acc)
    = map legacyOf (walk p path acc).
Proof.
  assert (push : forall ty sub disp name sz enc path acc,
             JS.truthy path = true ->
             (if isPdf (mimeTypeOf ty sub) (resolveFilename disp name)
              then map legacyOf acc
                   ++ [Legacy.mkDescriptor
                         (JS.orElse (Some (resolveFilename disp name))
                            "document.pdf")
                         (mimeTypeOf ty sub) (sizeOr0 sz) ("1." ++ path)]
              else map legacyOf acc)
             = map legacyOf (pushPdf ty sub disp name sz enc path acc)).
  { intros ty sub disp name sz enc path acc Hp. unfold pushPdf.
    destruct (isPdf _ _); [|reflexivity].
    rewrite map_app. cbn [map]. unfold legacyOf at 3.
    cbn [filename mimeType dsize Mime.partId].
    now rewrite orElse_path by exact Hp. }
  induction p as [ty sub disp name sz enc|ty sub disp name sz enc cs IH]
    using Part_induction; intros path acc Hp.
  - rewrite legacy_walk_leaf, walk_leaf. now apply push.
  - rewrite legacy_walk_node, walk_node.
    rewrite (push ty sub disp name sz enc path acc Hp).
    apply (forEach_rel (fun a' a => a' = map legacyOf a)); [|reflexivity].
    eapply Forall_impl; [|exact IH]. intros c Hc i a' a ->.
    rewrite <- (Hc (childPath path i) a (childPath_truthy path i)).
    unfold childPath. rewrite Hp. reflexivity.
Qed.

(** X7.  On a message whose root fails the PDF test the walker of
    [src/index.js] reports the parts that the current walker reports, in the
    same order and with the same names, types and sizes, every part id
    with ["1."] before it. *)
Theorem legacy_walker_prefixes_part_ids :
  forall p,
    isPdfNode p = false ->
    Legacy.extractPdfAttachments (Some p)
    = map legacyOf (extractPdfAttachments (Some p)).
Proof.
  intros [ty sub disp name sz enc [cs|]] Hroot; unfold isPdfNode in Hroot;
    cbn in Hroot; cbn [extractPdfAttachments Legacy.extractPdfAttachments].
  - rewrite legacy_walk_node, walk_node. unfold pushPdf. rewrite Hroot.
    apply (forEach_rel (fun a' a => a' = map legacyOf a)); [|reflexivity].
    apply Forall_forall. intros c _ i a' a ->.
    rewrite <- (legacy_walk_shift c (childPath "" i) a (childPath_truthy "" i)).
    reflexivity.
  - rewrite legacy_walk_leaf, walk_leaf. unfold pushPdf. now rewrite Hroot.
Qed.

Lemma legacy_walker_prefixes_part_ids_witness :
  Legacy.extractPdfAttachments (Some plainRoot)
  = map legacyOf (extractPdfAttachments (Some plainRoot)).
Proof.
  apply (legacy_walker_prefixes_part_ids plainRoot). reflexivity.
Defined.

(** ** The scans, on every session *)

Import StreamSpec.

Local Open Scope Z_scope.

Lemma insertDesc_perm x l : Permutation (x :: l) (insertDesc x l).
Proof.
  induction l as [|y l IH]; cbn; [reflexivity|].
  destruct (y <=? x); [reflexivity|].
  rewrite perm_swap. now apply perm_skip.
Qed.

Lemma sortDesc_perm l : Permutation l (sortDesc l).
Proof.
  induction l as [|x l IH]; cbn; [constructor|].
  rewrite <- insertDesc_perm. now apply perm_skip.
Qed.

Lemma insertDesc_descending x l : descending l -> descending (insertDesc x l).
Proof.
  unfold descending. induction 1 as [|y l Hl IH Hy]; cbn.
  - repeat constructor.
  - destruct (Z.leb_spec y x) as [Hle|Hgt].
    + constructor; [now constructor|]. constructor; [exact Hle|].
      eapply Forall_impl; [|exact Hy]. intros z Hz. cbn in Hz. lia.
    + constructor; [exact IH|].
      apply (Permutation_Forall (insertDesc_perm x l)).
      constructor; [lia|exact Hy].
Qed.

Lemma sortDesc_descending l : descending (sortDesc l).
Proof.
  induction l as [|x l IH]; cbn; [constructor|].
  now apply insertDesc_descending.
Qed.

Lemma slices_sizes fuel :
  forall l,
    Forall (fun b => (1 <= List.length b <= 100)%nat) (slices fuel l).
Proof.
  induction fuel as [|fuel IH]; intros l; cbn [slices]; [constructor|].
  destruct l as [|x r]; [constructor|]. constructor; [|apply IH].
  rewrite length_firstn. unfold FETCH_BATCH_SIZE. cbn [List.length]. lia.
Qed.

Lemma slices_count fuel :
  forall l,
    (List.length l <= fuel)%nat ->
    List.length (slices fuel l) = ((List.length l + 99) / 100)%nat.
Proof.
  induction fuel as [|fuel IH]; intros l Hl.
  - destruct l; [reflexivity|cbn in Hl; lia].
  - destruct l as [|x r]; [reflexivity|].
    cbn [slices List.length]. rewrite IH.
    + rewrite length_skipn. unfold FETCH_BATCH_SIZE. cbn [List.length].
      generalize (List.length r). intros n.
      pose proof (Nat.div_mod_eq (S n + 99) 100) as E1.
      pose proof (Nat.mod_upper_bound (S n + 99) 100 ltac:(lia)) as B1.
      pose proof (Nat.div_mod_eq (S n - 100 + 99) 100) as E2.
      pose proof (Nat.mod_upper_bound (S n - 100 + 99) 100 ltac:(lia)) as B2.
      lia.
    + rewrite length_skipn. unfold FETCH_BATCH_SIZE.
      cbn [List.length] in *. lia.
Qed.

(** X8.  The batch loop fetches the UIDs found by the search newest first:
    the batches, one after the other, are the search result in descending
    order, none lost and none added; each batch has between 1 and 100 UIDs
    and there are [ceil(n / 100)] of them. *)
Theorem batches_cover_uids_newest_first :
  forall (searchResult : list Z),
    let allUids := sortDesc searchResult in
    Permutation searchResult (List.concat (batches allUids))
    /\ descending (List.concat (batches allUids))
    /\ Forall (fun b => (1 <= List.length b <= 100)%nat) (batches allUids)
    /\ List.length (batches allUids)
       = ((List.length searchResult + 99) / 100)%nat.
Proof.
  intros searchResult allUids. rewrite batches_concat. repeat split.
  - apply sortDesc_perm.
  - apply sortDesc_descending.
  - apply slices_sizes.
  - unfold batches. rewrite slices_count by lia. subst allUids.
    now rewrite <- (Permutation_length (sortDesc_perm searchResult)).
Qed.

(** What [/search-stream] writes: an early failure, or the events of the loop
    over the messages delivered, followed by an error or by the flush and the
    end. *)
Lemma postSearchStream_cases (req : StreamRequest) (s : Session) (now : Z) :
  forall logs events,
    postSearchStream req s now = EventStream logs events ->
    (exists m, events = [Error (JS.orElse m "Search failed")])
    \/ exists n N l,
        let st := fold_left (stepOf req N) l (initialState req n) in
        (exists m, events = sent st ++ [Error (JS.orElse m "Search failed")])
        \/ (exists m,
               events = flushed st ++ [Error (JS.orElse m "Search failed")])
        \/ events = flushed st ++ [completeOf req st].
Proof.
  intros logs events. unfold postSearchStream, failWith.
  destruct (missing (s_email req) || missing (s_password req))%bool;
    [discriminate|].
  destruct (connect s);
    [|intros H; injection H as <- <-; left; eauto].
  destruct (status s) as [n|];
    [|intros H; injection H as <- <-; left; eauto].
  assert (early : forall m,
             exists n0 N l,
               let st := fold_left (stepOf req N) l (initialState req n0) in
               (exists m0, sent (initialState req n)
                             ++ [Error (JS.orElse m "Search failed")]
                           = sent st ++ [Error (JS.orElse m0 "Search failed")])
               \/ (exists m0, sent (initialState req n)
                                ++ [Error (JS.orElse m "Search failed")]
                              = flushed st
                                  ++ [Error (JS.orElse m0 "Search failed")])
               \/ sent (initialState req n)
                    ++ [Error (JS.orElse m "Search failed")]
                  = flushed st ++ [completeOf req st]).
  { intros m. exists n, 0%nat, []. left. now exists m. }
  destruct (Scan.mailboxOpen s);
    [|intros H; injection H as <- <-; right; apply early].
  match goal with |- context [search s ?c] => destruct (search s c) as [r|m] end;
    [|intros H; injection H as <- <-; right; apply early].
  match goal with
  | |- context [streamBatches ?a ?b ?c ?d s ?bs ?st0] =>
      destruct (streamBatches_yielded a b c d s bs st0) as [l Hl];
      destruct (streamBatches a b c d s bs st0) as [st thrown];
      change st0 with (initialState req n) in Hl;
      change (streamOne a b c d) with (stepOf req d) in Hl;
      set (N := d) in *
  end.
  cbn [fst] in Hl. subst st.
  destruct thrown as [m|].
  - intros H; injection H as <- <-. right. exists n, N, l. left. now exists m.
  - destruct (Scan.logout s); intros H; injection H as <- <-;
      right; exists n, N, l; right; [right|left; eexists]; reflexivity.
Qed.

Lemma batchSizes_progress l a b c d :
  batchSizes (l ++ [Progress a b c d]) = batchSizes l.
Proof. unfold batchSizes. rewrite flat_map_app. cbn. apply app_nil_r. Qed.

Lemma batchSizes_batch l msgs w :
  batchSizes (l ++ [PdfBatch msgs w]) = batchSizes l ++ [List.length msgs].
Proof. unfold batchSizes. rewrite flat_map_app. reflexivity. Qed.

Lemma progressCounts_progress l a b c d :
  progressCounts (l ++ [Progress a b c d]) = progressCounts l ++ [a].
Proof. unfold progressCounts. rewrite flat_map_app. reflexivity. Qed.

Lemma progressCounts_batch l msgs w :
  progressCounts (l ++ [PdfBatch msgs w]) = progressCounts l.
Proof. unfold progressCounts. rewrite flat_map_app. cbn. apply app_nil_r. Qed.

Lemma everyFifty_next previous scanned :
  previous <= scanned ->
  everyFifty previous (scanned + 1)
  = if Z.rem (scanned + 1 - previous) 50 =? 0
    then everyFifty previous scanned ++ [scanned + 1]
    else everyFifty previous scanned.
Proof.
  intros H. unfold everyFifty.
  destruct (Z.eqb_spec (Z.rem (scanned + 1 - previous) 50) 0) as [E|E].
  - replace (Z.to_nat ((scanned + 1 - previous) / 50))
      with (S (Z.to_nat ((scanned - previous) / 50)))
      by (Z.div_mod_to_equations; Z.quot_rem_to_equations; lia).
    rewrite seq_S, map_app. cbn [map]. do 2 f_equal.
    Z.div_mod_to_equations; Z.quot_rem_to_equations; lia.
  - replace (Z.to_nat ((scanned + 1 - previous) / 50))
      with (Z.to_nat ((scanned - previous) / 50))
      by (Z.div_mod_to_equations; Z.quot_rem_to_equations; lia).
    reflexivity.
Qed.

Section StreamInvariants.

Variable resumeAfter : NumOrNull.
Variable maxResults : NumOrNull.
Variable previous : Z.
Variable allUidsLength : nat.

Let step := streamOne resumeAfter maxResults previous allUidsLength.

Ltac split_ifs :=
  repeat match goal with
    | |- context [if ?c then _ else _] => destruct c eqn:?
    end.

(** One turn writes [progress] and [pdf_batch] events only, after the
    events already written. *)
Lemma streamOne_sent st msg :
  exists extra,
    sent (step st msg) = sent st ++ extra /\ Forall (fun e => isInner e = true) extra.
Proof.
  unfold step, streamOne. split_ifs; cbn [sent];
    try (exists []; split; [now rewrite app_nil_r|constructor]);
    rewrite <- ?app_assoc; eexists; split; try reflexivity;
    repeat constructor.
Qed.

Lemma stream_fold_sent l :
  forall st,
    exists extra,
      sent (fold_left step l st) = sent st ++ extra
      /\ Forall (fun e => isInner e = true) extra.
Proof.
  induction l as [|msg l IH]; intros st.
  - exists []. split; [now rewrite app_nil_r|constructor].
  - cbn [fold_left]. destruct (IH (step st msg)) as [e2 [E2 H2]].
    destruct (streamOne_sent st msg) as [e1 [E1 H1]].
    exists (e1 ++ e2). rewrite E2, E1, <- app_assoc. split; [reflexivity|].
    apply Forall_app. now split.
Qed.

(** The batches written are full; fewer than ten messages are pending. *)
Lemma streamOne_batchSizes st msg :
  (exists k, batchSizes (sent st) = repeat 10%nat k) ->
  (List.length (pendingMessages st) < 10)%nat ->
  (exists k, batchSizes (sent (step st msg)) = repeat 10%nat k)
  /\ (List.length (pendingMessages (step st msg)) < 10)%nat.
Proof.
  intros [k Hk] Hp. unfold step, streamOne, PDF_BATCH_SIZE.
  split_ifs; cbn [sent pendingMessages];
    rewrite ?batchSizes_progress, ?batchSizes_batch, ?Hk;
    repeat match goal with
      | H : (10 <=? _)%nat = true |- _ => apply Nat.leb_le in H
      | H : (10 <=? _)%nat = false |- _ => apply Nat.leb_gt in H
      end;
    rewrite ?length_app in *; cbn [List.length] in *;
    try (split; [now exists k|lia]).
  all: replace (List.length (pendingMessages st) + 1)%nat with 10%nat by lia.
  all: split; [exists (S k); rewrite <- repeat_cons; reflexivity|lia].
Qed.

Lemma stream_fold_batchSizes l :
  forall st,
    (exists k, batchSizes (sent st) = repeat 10%nat k) ->
    (List.length (pendingMessages st) < 10)%nat ->
    (exists k, batchSizes (sent (fold_left step l st)) = repeat 10%nat k)
    /\ (List.length (pendingMessages (fold_left step l st)) < 10)%nat.
Proof.
  induction l as [|msg l IH]; intros st Hk Hp; [now split|].
  cbn [fold_left]. destruct (streamOne_batchSizes st msg Hk Hp) as [Hk' Hp'].
  now apply IH.
Qed.

(** The last UID is the UID of the last message that was not skipped. *)
Lemma stream_fold_lastUid l :
  forall st,
    lastProcessedUid (fold_left step l st)
    = lastUidOf (lastProcessedUid st) (filter (keep resumeAfter) l).
Proof.
  induction l as [|msg l IH]; intros st; [reflexivity|].
  cbn [fold_left filter]. rewrite IH. unfold keep at 2.
  unfold step at 1, streamOne.
  destruct (truthyN resumeAfter && (toNumber resumeAfter <=? uid msg))%bool;
    cbn [negb]; [reflexivity|].
  unfold lastUidOf. cbn [fold_left]. f_equal.
  split_ifs; reflexivity.
Qed.

(** A [progress] event is written at every fiftieth message scanned in this
    run, with the count reached. *)
Lemma streamOne_progressCounts st msg :
  previous <= st_totalEmailsScanned st ->
  progressCounts (sent st) = everyFifty previous (st_totalEmailsScanned st) ->
  previous <= st_totalEmailsScanned (step st msg)
  /\ progressCounts (sent (step st msg))
     = everyFifty previous (st_totalEmailsScanned (step st msg)).
Proof.
  intros Hle Hc. unfold step, streamOne, PROGRESS_INTERVAL.
  destruct (truthyN resumeAfter && (toNumber resumeAfter <=? uid msg))%bool;
    [now split|].
  pose proof (everyFifty_next previous (st_totalEmailsScanned st) Hle) as Hn.
  split_ifs; cbn [sent st_totalEmailsScanned];
    rewrite ?progressCounts_progress, ?progressCounts_batch, Hc;
    (split; [lia|]); now rewrite Hn.
Qed.

Lemma stream_fold_progressCounts l :
  forall st,
    previous <= st_totalEmailsScanned st ->
    progressCounts (sent st) = everyFifty previous (st_totalEmailsScanned st) ->
    progressCounts (sent (fold_left step l st))
    = everyFifty previous (st_totalEmailsScanned (fold_left step l st)).
Proof.
  induction l as [|msg l IH]; intros st Hle Hc; [exact Hc|].
  cbn [fold_left].
  destruct (streamOne_progressCounts st msg Hle Hc) as [Hle' Hc'].
  now apply IH.
Qed.

End StreamInvariants.

Lemma batchSizes_error l m : batchSizes (l ++ [Error m]) = batchSizes l.
Proof. unfold batchSizes. rewrite flat_map_app. cbn. apply app_nil_r. Qed.

Lemma batchSizes_complete l a b c d :
  batchSizes (l ++ [Complete a b c d]) = batchSizes l.
Proof. unfold batchSizes. rewrite flat_map_app. cbn. apply app_nil_r. Qed.

Lemma progressCounts_error l m : progressCounts (l ++ [Error m]) = progressCounts l.
Proof. unfold progressCounts. rewrite flat_map_app. cbn. apply app_nil_r. Qed.

Lemma progressCounts_complete l a b c d :
  progressCounts (l ++ [Complete a b c d]) = progressCounts l.
Proof. unfold progressCounts. rewrite flat_map_app. cbn. apply app_nil_r. Qed.

(** The state of the loop after the messages [l]. *)
Lemma stream_state_facts (req : StreamRequest) (n : Z) (N : nat)
  (l : list Message) :
  let st := fold_left (stepOf req N) l (initialState req n) in
  let kept := filter (keep (destructure Null (resumeAfterUid req))) l in
  (exists start inner,
      sent st = start :: inner /\ isStart start = true
      /\ Forall (fun e => isInner e = true) inner)
  /\ (exists k, batchSizes (sent st) = repeat 10%nat k)
  /\ (List.length (pendingMessages st) < 10)%nat
  /\ progressCounts (sent st)
     = everyFifty (orZero (previousScanned req)) (st_totalEmailsScanned st)
  /\ st_totalEmailsScanned st
     = orZero (previousScanned req) + Z.of_nat (List.length kept)
  /\ st_totalWithPdf st
     = orZero (previousWithPdf req)
       + Z.of_nat (List.length (filter hasPdf kept))
  /\ lastProcessedUid st
     = lastUidOf (destructure Null (resumeAfterUid req)) kept.
Proof.
  intros st kept. subst st. unfold stepOf.
  pose proof (stream_fold_counters
                (destructure Null (resumeAfterUid req))
                (destructure (Num 5000) (s_maxResults req))
                (orZero (previousScanned req)) N l (initialState req n)) as Hc.
  unfold counters in Hc.
  cbn [initialState st_messages st_totalEmailsScanned st_totalWithPdf] in Hc.
  rewrite scanOne_fold in Hc. injection Hc as _ Hs Hw. fold kept in Hs, Hw.
  split; [|split; [|split; [|split; [|split; [|split]]]]].
  - destruct (stream_fold_sent
                (destructure Null (resumeAfterUid req))
                (destructure (Num 5000) (s_maxResults req))
                (orZero (previousScanned req)) N l (initialState req n))
      as [extra [E H]].
    rewrite E. cbn [initialState sent app]. now do 2 eexists.
  - apply stream_fold_batchSizes; [now exists 0%nat|cbn; lia].
  - apply stream_fold_batchSizes; [now exists 0%nat|cbn; lia].
  - apply stream_fold_progressCounts; cbn [initialState st_totalEmailsScanned sent];
      [lia|].
    unfold everyFifty. now rewrite Z.sub_diag.
  - exact Hs.
  - exact Hw.
  - rewrite stream_fold_lastUid. reflexivity.
Qed.

(** X9.  The events of a stream come in one order: when the session could be
    opened a single start event comes first, then progress and pdf_batch
    events only, and exactly one terminal event, complete or error, comes
    last. *)
Theorem stream_events_are_ordered :
  forall req s now logs events,
    postSearchStream req s now = EventStream logs events ->
    exists body last,
      events = body ++ [last]
      /\ isTerminal last = true
      /\ (body = []
          \/ exists start inner,
               body = start :: inner /\ isStart start = true
               /\ Forall (fun e => isInner e = true) inner).
Proof.
  intros req s now logs events H.
  destruct (postSearchStream_cases req s now logs events H)
    as [[m ->]|[n [N [l Hcases]]]].
  - exists [], (Error (JS.orElse m "Search failed")). repeat split. now left.
  - cbv zeta in Hcases.
    destruct (stream_state_facts req n N l)
      as [[start [inner [Hsent [Hstart Hinner]]]] _].
    cbv zeta in Hsent.
    assert (Hflush : exists inner',
               flushed (fold_left (stepOf req N) l (initialState req n))
               = start :: inner'
               /\ Forall (fun e => isInner e = true) inner').
    { unfold flushed. rewrite Hsent. destruct (_ <? _)%nat.
      - exists (inner ++ [PdfBatch
                            (pendingMessages
                               (fold_left (stepOf req N) l (initialState req n)))
                            (st_totalWithPdf
                               (fold_left (stepOf req N) l
                                  (initialState req n)))]).
        split; [reflexivity|]. apply Forall_app. split; [exact Hinner|].
        repeat constructor.
      - now exists inner. }
    destruct Hflush as [inner' [Hflush Hinner']].
    destruct Hcases as [[m ->]|[[m ->]| ->]].
    + rewrite Hsent. do 2 eexists. split; [reflexivity|]. split; [reflexivity|].
      right. now exists start, inner.
    + rewrite Hflush. do 2 eexists. split; [reflexivity|]. split; [reflexivity|].
      right. now exists start, inner'.
    + rewrite Hflush. do 2 eexists. split; [reflexivity|]. split; [reflexivity|].
      right. now exists start, inner'.
Qed.

Lemma stream_events_are_ordered_witness :
  exists body last,
    match postSearchStream resumeRequest (mailboxSession scenarioMailbox) 20000
    with
    | EventStream _ events => events = body ++ [last]
    | BadRequest _ => False
    end
    /\ isTerminal last = true.
Proof.
  destruct (stream_events_are_ordered resumeRequest
              (mailboxSession scenarioMailbox) 20000 _ _ eq_refl)
    as [body [last [H [Ht _]]]].
  exists body, last. split; [exact H|exact Ht].
Defined.

(** X10.  Every pdf_batch event carries exactly 10 messages, except that the
    last one may be the flush of what is pending, with between 1 and 9. *)
Theorem pdf_batches_are_full :
  forall req s now logs events,
    postSearchStream req s now = EventStream logs events ->
    exists k rest,
      batchSizes events = repeat 10%nat k ++ rest
      /\ (rest = [] \/ exists size, rest = [size] /\ (1 <= size <= 9)%nat).
Proof.
  intros req s now logs events H.
  destruct (postSearchStream_cases req s now logs events H)
    as [[m ->]|[n [N [l Hcases]]]].
  - exists 0%nat, []. split; [reflexivity|now left].
  - cbv zeta in Hcases.
    destruct (stream_state_facts req n N l) as [_ [[k Hk] [Hp _]]].
    cbv zeta in Hk, Hp.
    assert (Hflush : exists rest,
               batchSizes (flushed (fold_left (stepOf req N) l
                                      (initialState req n)))
               = repeat 10%nat k ++ rest
               /\ (rest = []
                   \/ exists size, rest = [size] /\ (1 <= size <= 9)%nat)).
    { unfold flushed. destruct (Nat.ltb_spec 0 (List.length (pendingMessages
                 (fold_left (stepOf req N) l (initialState req n))))).
      - rewrite batchSizes_batch, Hk. eexists. split; [reflexivity|].
        right. eexists. split; [reflexivity|]. lia.
      - exists []. rewrite app_nil_r. split; [exact Hk|now left]. }
    destruct Hflush as [rest [Hflush Hrest]].
    destruct Hcases as [[m ->]|[[m ->]| ->]].
    + rewrite batchSizes_error, Hk. exists k, [].
      split; [now rewrite app_nil_r|now left].
    + rewrite batchSizes_error, Hflush. now exists k, rest.
    + unfold completeOf. rewrite batchSizes_complete, Hflush. now exists k, rest.
Qed.

Lemma pdf_batches_are_full_witness :
  exists k rest,
    match postSearchStream resumeRequest (mailboxSession scenarioMailbox) 20000
    with
    | EventStream _ events => batchSizes events = repeat 10%nat k ++ rest
    | BadRequest _ => False
    end.
Proof.
  destruct (pdf_batches_are_full resumeRequest
              (mailboxSession scenarioMailbox) 20000 _ _ eq_refl)
    as [k [rest [H _]]].
  now exists k, rest.
Defined.

(** X11.  A progress event is written at every fiftieth message scanned in
    this run and at no other: the counts of the progress events are
    [previousScanned + 50], [previousScanned + 100], ... in order, up to the
    count reached, which is the total of the complete event. *)
Theorem progress_every_fifty_messages :
  forall req s now logs events,
    postSearchStream req s now = EventStream logs events ->
    exists scanned,
      orZero (previousScanned req) <= scanned
      /\ progressCounts events
         = map (fun k => orZero (previousScanned req) + 50 * Z.of_nat k)
             (seq 1 (Z.to_nat ((scanned - orZero (previousScanned req)) / 50)))
      /\ (forall t w d u, In (Complete t w d u) events -> t = scanned).
Proof.
  intros req s now logs events H.
  destruct (postSearchStream_cases req s now logs events H)
    as [[m ->]|[n [N [l Hcases]]]].
  - exists (orZero (previousScanned req)). split; [lia|]. split.
    + now rewrite Z.sub_diag.
    + intros t w d u [E|[]]. discriminate.
  - cbv zeta in Hcases.
    destruct (stream_state_facts req n N l)
      as [[start [inner [Hsent [Hstart Hinner]]]] [_ [_ [Hc [Hs _]]]]].
    cbv zeta in Hsent, Hc, Hs.
    set (st := fold_left (stepOf req N) l (initialState req n)) in *.
    assert (Hflush : progressCounts (flushed st) = progressCounts (sent st)).
    { unfold flushed. destruct (_ <? _)%nat; [|reflexivity].
      apply progressCounts_batch. }
    assert (Hno : forall t w d u, ~ In (Complete t w d u) (flushed st)).
    { intros t w d u Hin. unfold flushed in Hin. rewrite Hsent in Hin.
      assert (Hin' : In (Complete t w d u)
                       (start :: inner
                        ++ [PdfBatch (pendingMessages st) (st_totalWithPdf st)])).
      { destruct (_ <? _)%nat; [exact Hin|].
        destruct Hin as [E|Hin]; [now left|right].
        apply in_or_app. now left. }
      destruct Hin' as [E|Hin']; [subst start; discriminate|].
      apply in_app_or in Hin'. destruct Hin' as [Hin'|[E|[]]]; [|discriminate].
      rewrite Forall_forall in Hinner. specialize (Hinner _ Hin').
      discriminate. }
    exists (st_totalEmailsScanned st). split; [rewrite Hs; lia|].
    destruct Hcases as [[m ->]|[[m ->]| ->]].
    + rewrite progressCounts_error. split; [exact Hc|].
      intros t w d u Hin. apply in_app_or in Hin.
      destruct Hin as [Hin|[E|[]]]; [|discriminate].
      exfalso. apply (Hno t w d u). unfold flushed.
      destruct (_ <? _)%nat; [apply in_or_app; now left|exact Hin].
    + rewrite progressCounts_error, Hflush. split; [exact Hc|].
      intros t w d u Hin. apply in_app_or in Hin.
      destruct Hin as [Hin|[E|[]]]; [|discriminate].
      exfalso. now apply (Hno t w d u).
    + unfold completeOf. rewrite progressCounts_complete, Hflush.
      split; [exact Hc|].
      intros t w d u Hin. apply in_app_or in Hin.
      destruct Hin as [Hin|[E|[]]].
      * exfalso. now apply (Hno t w d u).
      * now injection E as <- _ _ _.
Qed.

Lemma progress_every_fifty_messages_witness :
  exists scanned,
    match postSearchStream resumeRequest (mailboxSession scenarioMailbox) 20000
    with
    | EventStream _ events =>
        progressCounts events
        = map (fun k => 21 + 50 * Z.of_nat k)
            (seq 1 (Z.to_nat ((scanned - 21) / 50)))
    | BadRequest _ => False
    end.
Proof.
  destruct (progress_every_fifty_messages resumeRequest
              (mailboxSession scenarioMailbox) 20000 _ _ eq_refl)
    as [scanned [_ [H _]]].
  now exists scanned.
Defined.

(** The end of a stream on a healthy session. *)
Lemma postSearchStream_complete (req : StreamRequest) (s : Session) (now : Z) :
  missing (s_email req) = false -> missing (s_password req) = false ->
  healthy s ->
  let kept :=
    filter (keep (destructure Null (resumeAfterUid req)))
      (fetchedMessages s (candidates s (criteriaOf req now))) in
  exists logs evs,
    postSearchStream req s now
    = EventStream logs
        (evs ++ [Complete
                   (orZero (previousScanned req) + Z.of_nat (List.length kept))
                   (orZero (previousWithPdf req)
                    + Z.of_nat (List.length (filter hasPdf kept)))
                   (effectiveDaysBack (destructure (Num 365) (s_daysBack req)))
                   (lastUidOf (destructure Null (resumeAfterUid req)) kept)]).
Proof.
  intros He Hp [H1 [n H2] H3 H4 H5 H6]. cbv zeta.
  unfold postSearchStream, candidates, fetchedMessages, criteriaOf.
  rewrite He, Hp, H1, H2, H3. cbn [orb].
  match goal with |- context [search s ?c] => destruct (H4 c) as [r Hr] end.
  rewrite Hr. rewrite (streamBatches_healthy _ _ _ _ s H5).
  match goal with
  | |- context [fold_left (streamOne ?a ?b ?c ?d) ?l ?st0] =>
      destruct (stream_state_facts req n d l) as [_ [_ [_ [_ [Hs [Hw Hu]]]]]];
      cbv zeta in Hs, Hw, Hu;
      change (fold_left (streamOne a b c d) l st0)
        with (fold_left (stepOf req d) l (initialState req n))
  end.
  rewrite H6, Hs, Hw, Hu. do 2 eexists. reflexivity.
Qed.

Lemma sorted_app_inv {A : Type} (R : A -> A -> Prop) (a b : list A) :
  StronglySorted R (a ++ b) ->
  StronglySorted R b /\ Forall (fun x => Forall (R x) b) a.
Proof.
  induction a as [|x a IH]; cbn; intros H; [split; [exact H|constructor]|].
  apply StronglySorted_inv in H. destruct H as [Hs Hx].
  destruct (IH Hs) as [Hb Ha]. split; [exact Hb|].
  constructor; [|exact Ha]. apply Forall_app in Hx. tauto.
Qed.

Lemma filter_none {A : Type} (f : A -> bool) (l : list A) :
  Forall (fun x => f x = false) l -> filter f l = [].
Proof.
  induction 1 as [|x l Hx _ IH]; [reflexivity|]. cbn. now rewrite Hx.
Qed.

Lemma filter_every {A : Type} (f : A -> bool) (l : list A) :
  Forall (fun x => f x = true) l -> filter f l = l.
Proof.
  induction 1 as [|x l Hx _ IH]; [reflexivity|]. cbn. now rewrite Hx, IH.
Qed.

Lemma sorted_prefix {A : Type} (R : A -> A -> Prop) (a : list A) m :
  StronglySorted R (a ++ [m]) -> Forall (fun x => R x m) a.
Proof.
  intros H. apply sorted_app_inv in H. destruct H as [_ H].
  eapply Forall_impl; [|exact H]. intros x Hx.
  now apply Forall_inv in Hx.
Qed.

(** What the resume test keeps of a delivery in descending order. *)
Lemma keep_after_newestFirst (a l2 : list Message) (m : Message) :
  newestFirst (a ++ m :: l2) -> uid m <> 0 ->
  filter (keep (Num (uid m))) (a ++ m :: l2) = l2.
Proof.
  intros H Hm. unfold newestFirst in H.
  destruct (sorted_app_inv _ _ _ H) as [Hml Ha].
  apply StronglySorted_inv in Hml. destruct Hml as [_ Hl2].
  rewrite filter_app. cbn [filter].
  rewrite (keep_uid _ m Hm), Z.ltb_irrefl.
  rewrite filter_none, filter_every; [reflexivity| |].
  - eapply Forall_impl; [|exact Hl2]. intros x Hx. cbn beta in Hx.
    rewrite keep_uid by exact Hm. now apply Z.ltb_lt.
  - eapply Forall_impl; [|exact Ha]. intros x Hx. apply Forall_inv in Hx.
    rewrite keep_uid by exact Hm. apply Z.ltb_ge. lia.
Qed.

(** What the resume test keeps of a delivery in ascending order. *)
Lemma keep_after_oldestFirst (a l2 : list Message) (m : Message) :
  oldestFirst (a ++ m :: l2) -> uid m <> 0 ->
  filter (keep (Num (uid m))) (a ++ m :: l2) = a.
Proof.
  intros H Hm. unfold oldestFirst in H.
  destruct (sorted_app_inv _ _ _ H) as [Hml Ha].
  apply StronglySorted_inv in Hml. destruct Hml as [_ Hl2].
  rewrite filter_app. cbn [filter].
  rewrite (keep_uid _ m Hm), Z.ltb_irrefl.
  rewrite filter_every, filter_none; [apply app_nil_r| |].
  - eapply Forall_impl; [|exact Hl2]. intros x Hx. cbn beta in Hx.
    rewrite keep_uid by exact Hm. apply Z.ltb_ge. lia.
  - eapply Forall_impl; [|exact Ha]. intros x Hx. apply Forall_inv in Hx.
    rewrite keep_uid by exact Hm. now apply Z.ltb_lt.
Qed.

Lemma lastUidOf_last default a m : lastUidOf default (a ++ [m]) = Num (uid m).
Proof. unfold lastUidOf. now rewrite fold_left_app. Qed.

(** X12.  The complete event carries as [lastUid] the UID of the last message
    that was scanned, and the resume point of the request, [null] when there
    is none, when no message was scanned. *)
Theorem complete_carries_last_scanned_uid :
  forall req s now,
    missing (s_email req) = false -> missing (s_password req) = false ->
    healthy s ->
    let kept :=
      filter (keep (destructure Null (resumeAfterUid req)))
        (fetchedMessages s (candidates s (criteriaOf req now))) in
    exists logs evs t w d u,
      postSearchStream req s now = EventStream logs (evs ++ [Complete t w d u])
      /\ (kept = [] -> u = destructure Null (resumeAfterUid req))
      /\ (forall a m, kept = a ++ [m] -> u = Num (uid m)).
Proof.
  intros req s now He Hp Hs kept.
  destruct (postSearchStream_complete req s now He Hp Hs) as [logs [evs H]].
  fold kept in H. do 6 eexists. split; [exact H|]. split.
  - now intros ->.
  - intros a m ->. apply lastUidOf_last.
Qed.

Lemma complete_carries_last_scanned_uid_witness :
  exists logs evs t w d,
    postSearchStream resumeAfter4 (mailboxSession descendingMailbox) 20000
    = EventStream logs (evs ++ [Complete t w d (Num 1)]).
Proof.
  destruct (complete_carries_last_scanned_uid resumeAfter4
              (mailboxSession descendingMailbox) 20000
              eq_refl eq_refl (mailboxSession_healthy descendingMailbox))
    as [logs [evs [t [w [d [u [H [_ Hu]]]]]]]].
  rewrite (Hu (firstn 2 (skipn 2 descendingMailbox))
              (nth 4 descendingMailbox (mkMessage 0 None None None None))
              eq_refl) in H.
  now exists logs, evs, t, w, d.
Defined.

(** X13.  Resuming composes when the messages are delivered newest first: a
    request that resumes after the last UID processed, with the counts
    reached there, completes with the totals of the whole scan and streams
    the messages that were still to come. *)
Theorem resumed_scan_completes_the_totals :
  forall req s now a m rest,
    missing (s_email req) = false -> missing (s_password req) = false ->
    healthy s ->
    fetchedMessages s (candidates s (criteriaOf req now)) = a ++ m :: rest ->
    newestFirst (a ++ m :: rest) ->
    uid m <> 0 ->
    resumeAfterUid req = Some (Num (uid m)) ->
    previousScanned req = Some (Z.of_nat (List.length (a ++ [m]))) ->
    previousWithPdf req
    = Some (Z.of_nat (List.length (filter hasPdf (a ++ [m])))) ->
    exists logs evs d u,
      postSearchStream req s now
      = EventStream logs
          (evs ++ [Complete
                     (Z.of_nat (List.length (a ++ m :: rest)))
                     (Z.of_nat (List.length (filter hasPdf (a ++ m :: rest))))
                     d u])
      /\ batched evs
         = firstn (Z.to_nat (toNumber (destructure (Num 5000) (s_maxResults req))))
             (pdfMsgs rest).
Proof.
  intros req s now a m rest He Hp Hs Hf Hsorted Hm Hr Hps Hpp.
  destruct (postSearchStream_healthy req s now He Hp Hs)
    as [logs [evs [u [H [Hb _]]]]].
  rewrite Hf, Hr in H, Hb. cbn [destructure] in H, Hb.
  rewrite (keep_after_newestFirst a rest m Hsorted Hm) in H, Hb.
  rewrite Hps, Hpp in H. cbn [orZero] in H.
  exists logs, evs,
    (effectiveDaysBack (destructure (Num 365) (s_daysBack req))), u.
  split; [|exact Hb].
  replace (a ++ m :: rest) with ((a ++ [m]) ++ rest)
    by (now rewrite <- app_assoc).
  rewrite filter_app, !(length_app (filter hasPdf (a ++ [m]))),
    (length_app (a ++ [m])), !Nat2Z.inj_add.
  exact H.
Qed.

Lemma resumed_scan_completes_the_totals_witness :
  exists logs evs d u,
    postSearchStream resumeAfter4 (mailboxSession descendingMailbox) 20000
    = EventStream logs (evs ++ [Complete 5 2 d u]).
Proof.
  destruct (resumed_scan_completes_the_totals resumeAfter4
              (mailboxSession descendingMailbox) 20000
              (firstn 1 descendingMailbox)
              (nth 1 descendingMailbox (mkMessage 0 None None None None))
              (skipn 2 descendingMailbox)
              eq_refl eq_refl (mailboxSession_healthy descendingMailbox)
              eq_refl)
    as [logs [evs [d [u [H _]]]]].
  - repeat constructor; cbn; lia.
  - cbn. lia.
  - reflexivity.
  - reflexivity.
  - reflexivity.
  - now exists logs, evs, d, u.
Defined.

(** X14.  When the messages are delivered oldest first, the same resumed
    request skips every message that was still to come and scans again the
    ones before the resume point: none of the messages to come reaches a
    pdf_batch event, and the total adds the old messages a second time. *)
Theorem resumed_scan_of_ascending_delivery :
  forall req s now a m rest,
    missing (s_email req) = false -> missing (s_password req) = false ->
    healthy s ->
    fetchedMessages s (candidates s (criteriaOf req now)) = a ++ m :: rest ->
    oldestFirst (a ++ m :: rest) ->
    uid m <> 0 ->
    resumeAfterUid req = Some (Num (uid m)) ->
    previousScanned req = Some (Z.of_nat (List.length (a ++ [m]))) ->
    exists logs evs w d u,
      postSearchStream req s now
      = EventStream logs
          (evs ++ [Complete
                     (Z.of_nat (List.length (a ++ [m]))
                      + Z.of_nat (List.length a)) w d u])
      /\ batched evs
         = firstn (Z.to_nat (toNumber (destructure (Num 5000) (s_maxResults req))))
             (pdfMsgs a).
Proof.
  intros req s now a m rest He Hp Hs Hf Hsorted Hm Hr Hps.
  destruct (postSearchStream_healthy req s now He Hp Hs)
    as [logs [evs [u [H [Hb _]]]]].
  rewrite Hf, Hr in H, Hb. cbn [destructure] in H, Hb.
  rewrite (keep_after_oldestFirst a rest m Hsorted Hm) in H, Hb.
  rewrite Hps in H. cbn [orZero] in H.
  do 5 eexists. split; [exact H|exact Hb].
Qed.

Lemma resumed_scan_of_ascending_delivery_witness :
  exists logs evs w d u,
    postSearchStream
      (mkStreamRequest (Some "user@example.com") (Some "app-password") None
         None (Some (Num 2)) None (Some 2) (Some 1))
      (mailboxSession ascendingMailbox) 20000
    = EventStream logs (evs ++ [Complete 3 w d u]).
Proof.
  destruct (resumed_scan_of_ascending_delivery
              (mkStreamRequest (Some "user@example.com") (Some "app-password")
                 None None (Some (Num 2)) None (Some 2) (Some 1))
              (mailboxSession ascendingMailbox) 20000
              (firstn 1 ascendingMailbox)
              (nth 1 ascendingMailbox (mkMessage 0 None None None None))
              (skipn 2 ascendingMailbox)
              eq_refl eq_refl (mailboxSession_healthy ascendingMailbox)
              eq_refl)
    as [logs [evs [w [d [u [H _]]]]]].
  - repeat constructor; cbn; lia.
  - cbn. lia.
  - reflexivity.
  - reflexivity.
  - now exists logs, evs, w, d, u.
Defined.

Lemma scanBatches_Ok s maxResults bs :
  forall st r,
    scanBatches s maxResults bs st = Ok r ->
    Forall (fun b => snd (fetch s b) = None) bs
    /\ r = fold_left (scanOne maxResults)
             (flat_map (fun b => fst (fetch s b)) bs) st.
Proof.
  induction bs as [|b bs IH]; intros st r; cbn [scanBatches flat_map].
  - intros H. injection H as <-. split; [constructor|reflexivity].
  - destruct (fetch s b) as [yielded [m|]] eqn:E; [discriminate|].
    intros H. destruct (IH _ _ H) as [Hall ->]. split.
    + constructor; [now rewrite E|exact Hall].
    + now rewrite fold_left_app.
Qed.

(** X15.  [/search] answers a result only when no call of the mail client
    threw, and then the result is the whole scan: every batch was fetched to
    its end, the totals count everything fetched and the messages are the
    first [maxResults] PDF-bearing ones.  A failure never leaves a partial
    result: the answer is then a status with an error text. *)
Theorem search_answers_all_or_nothing :
  forall req s now,
    match postSearch req s now with
    | Json body =>
        let allUids :=
          candidates s
            (Since (sinceDateOf now (destructure (Num 365) (daysBack req)))) in
        let fetched := fetchedMessages s allUids in
        connect s = Ok tt /\ Scan.mailboxOpen s = Ok tt /\ Scan.logout s = Ok tt
        /\ Forall (fun b => snd (fetch s b) = None) (batches allUids)
        /\ messages body
           = firstn (Z.to_nat (toNumber (destructure (Num 5000) (maxResults req))))
               (pdfMsgs fetched)
        /\ totalEmailsScanned body = Z.of_nat (List.length fetched)
        /\ totalWithPdf body = Z.of_nat (List.length (filter hasPdf fetched))
    | Scan.Status code error =>
        (code = 400 \/ code = 500) /\ error <> ""%string
    end.
Proof.
  intros req s now. unfold postSearch, candidates, fetchedMessages.
  destruct (missing (Scan.email req) || missing (Scan.password req))%bool;
    [split; [now left|discriminate]|].
  assert (fails : forall m, (400 = 400 \/ 500 = 500)
                            /\ JS.orElse m "Search failed" <> ""%string).
  { intros [[|c r]|]; split; auto; discriminate. }
  destruct (connect s) as [[]|m]; cbn [Scan.bind];
    [|split; [now right|apply fails]].
  destruct (Scan.mailboxOpen s) as [[]|m]; cbn [Scan.bind];
    [|split; [now right|apply fails]].
  match goal with |- context [search s ?c] => destruct (search s c) as [r|m] end;
    cbn [Scan.bind]; [|split; [now right|apply fails]].
  match goal with
  | |- context [scanBatches s ?M ?bs ?st0] =>
      destruct (scanBatches s M bs st0) as [[[msgs scanned] withPdf]|m] eqn:E
  end; cbn [Scan.bind]; [|split; [now right|apply fails]].
  destruct (Scan.logout s) as [[]|m]; cbn [Scan.bind];
    [|split; [now right|apply fails]].
  apply scanBatches_Ok in E. destruct E as [Hall E].
  rewrite scanOne_fold in E. injection E as -> -> ->.
  cbn [messages totalEmailsScanned totalWithPdf app List.length].
  rewrite Nat.sub_0_r. repeat split; auto.
Qed.

(** ** The other handlers *)

Import HandlersSpec.

Lemma textLoop_spec maxResults thrown (yielded : list Message) :
  forall acc count,
    Handlers.textLoop maxResults yielded thrown acc count
    = let k := Z.to_nat (maxResults - count) in
      if (k <? List.length yielded)%nat
      then Ok (acc ++ map Handlers.textMsgOf (firstn k yielded))
      else match thrown with
           | Some m => Throws m
           | None => Ok (acc ++ map Handlers.textMsgOf yielded)
           end.
Proof.
  induction yielded as [|msg rest IH]; intros acc count; cbv zeta.
  - cbn [Handlers.textLoop List.length].
    destruct (Z.to_nat (maxResults - count)); cbn; now rewrite app_nil_r.
  - cbn [Handlers.textLoop]. destruct (Z.leb_spec maxResults count) as [Hle|Hgt].
    + replace (Z.to_nat (maxResults - count)) with 0%nat by lia.
      cbn. now rewrite app_nil_r.
    + rewrite IH. cbv zeta.
      replace (Z.to_nat (maxResults - count))
        with (S (Z.to_nat (maxResults - (count + 1)))) by lia.
      cbn [List.length firstn map].
      change (S (Z.to_nat (maxResults - (count + 1))) <? S (List.length rest))%nat
        with (Z.to_nat (maxResults - (count + 1)) <? List.length rest)%nat.
      rewrite <- !app_assoc. reflexivity.
Qed.


(** X16.  [/search-text] asks for the messages since [now - daysBack],
    [daysBack] taken as it is, and answers the first [maxResults] messages
    that the fetch yields, with or without a PDF; once [maxResults] messages
    are kept the next message ends the loop, so a failure of the fetch after
    it is not seen, while a failure before it answers status 500. *)
Theorem search_text_keeps_the_first_messages :
  forall req s now,
    missing (Handlers.t_email req) = false ->
    missing (Handlers.t_password req) = false ->
    Handlers.x_connect s = Ok tt ->
    Handlers.x_mailboxOpen s = Ok tt ->
    Handlers.x_logout s = Ok tt ->
    let criteria :=
      Handlers.mkTextCriteria
        (now - toNumber (destructure (Num 30) (Handlers.t_daysBack req)))
        (Handlers.truthyFilter (Handlers.fromFilter req))
        (Handlers.truthyFilter (Handlers.subjectFilter req)) in
    let yielded := fst (Handlers.x_fetch s criteria) in
    let thrown := snd (Handlers.x_fetch s criteria) in
    let k := Z.to_nat (toNumber (destructure (Num 50)
                                   (Handlers.t_maxResults req))) in
    Handlers.postSearchText req s now
    = if (k <? List.length yielded)%nat
      then Handlers.TextJson (map Handlers.textMsgOf (firstn k yielded))
      else match thrown with
           | Some m => Handlers.TextStatus 500 (JS.orElse m "Search failed")
           | None => Handlers.TextJson (map Handlers.textMsgOf yielded)
           end.
Proof.
  intros req s now He Hp Hc Ho Hl. cbv zeta. unfold Handlers.postSearchText.
  rewrite He, Hp, Hc, Ho, Hl. cbn [orb Scan.bind].
  destruct (Handlers.x_fetch s _) as [yielded thrown]. cbn [fst snd].
  rewrite textLoop_spec. cbv zeta. rewrite Z.sub_0_r.
  destruct (_ <? _)%nat; cbn [Scan.bind app]; [reflexivity|].
  now destruct thrown.
Qed.

Lemma search_text_keeps_the_first_messages_witness :
  Handlers.postSearchText
    (Handlers.mkTextRequest (Some "user@example.com"%string)
       (Some "app-password"%string) None (Some "invoice"%string) None
       (Some (Num 2)))
    (textSession descendingMailbox (Some (Some "ECONNRESET"%string))) 20000
  = Handlers.TextJson (map Handlers.textMsgOf (firstn 2 descendingMailbox)).
Proof.
  apply (search_text_keeps_the_first_messages
           (Handlers.mkTextRequest (Some "user@example.com"%string)
              (Some "app-password"%string) None (Some "invoice"%string) None
              (Some (Num 2)))
           (textSession descendingMailbox (Some (Some "ECONNRESET"%string)))
           20000); reflexivity.
Defined.

(** X17.  [/test] answers success exactly when the session could be opened
    and closed again; any other answer has status 401 with one of two fixed
    texts or status 500 with a text that is not empty and mentions neither
    marker.  A failure whose message mentions [AUTHENTICATIONFAILED] answers
    401 with the first text; one that mentions the browser login and not
    [AUTHENTICATIONFAILED] answers 401 with the second; one that mentions
    neither answers 500 with the message itself, and with
    ["Connection failed"] when the message is missing or empty. *)
Theorem test_classifies_failures :
  forall email password s,
    missing email = false -> missing password = false ->
    (Handlers.postTest email password s = Handlers.Success
     <-> connect s = Ok tt /\ Scan.logout s = Ok tt)
    /\ (forall code text,
           Handlers.postTest email password s = Handlers.Failure code text ->
           (code = 401 /\ text = "Invalid email or app password"%string)
           \/ (code = 401
               /\ text = "Please use an App Password (2FA required)"%string)
           \/ (code = 500 /\ text <> ""%string
               /\ JS.includes text "AUTHENTICATIONFAILED" = false
               /\ JS.includes text "Please log in via your web browser" = false))
    /\ (forall m,
           Scan.bind (connect s) (fun _ => Scan.logout s) = Throws (Some m) ->
           JS.includes m "AUTHENTICATIONFAILED" = true ->
           Handlers.postTest email password s
           = Handlers.Failure 401 "Invalid email or app password")
    /\ (forall m,
           Scan.bind (connect s) (fun _ => Scan.logout s) = Throws (Some m) ->
           JS.includes m "AUTHENTICATIONFAILED" = false ->
           JS.includes m "Please log in via your web browser" = true ->
           Handlers.postTest email password s
           = Handlers.Failure 401 "Please use an App Password (2FA required)")
    /\ (forall m,
           Scan.bind (connect s) (fun _ => Scan.logout s) = Throws (Some m) ->
           m <> ""%string ->
           JS.includes m "AUTHENTICATIONFAILED" = false ->
           JS.includes m "Please log in via your web browser" = false ->
           Handlers.postTest email password s = Handlers.Failure 500 m)
    /\ (Scan.bind (connect s) (fun _ => Scan.logout s) = Throws None
        \/ Scan.bind (connect s) (fun _ => Scan.logout s)
           = Throws (Some ""%string) ->
        Handlers.postTest email password s
        = Handlers.Failure 500 "Connection failed").
Proof.
  intros email password s He Hp. unfold Handlers.postTest. rewrite He, Hp.
  cbn [orb]. split; [|split; [|split; [|split; [|split]]]].
  - destruct (connect s) as [[]|m]; cbn [Scan.bind].
    + destruct (Scan.logout s) as [[]|m]; [tauto|].
      split; [|intros [_ H]; discriminate].
      destruct (JS.includes _ _); [discriminate|].
      destruct (JS.includes _ _); discriminate.
    + split; [|intros [H _]; discriminate].
      destruct (JS.includes _ _); [discriminate|].
      destruct (JS.includes _ _); discriminate.
  - intros code text.
    destruct (Scan.bind (connect s) (fun _ => Scan.logout s)) as [u|m];
      [discriminate|].
    destruct (JS.includes (JS.orElse m "Connection failed")
                "AUTHENTICATIONFAILED") eqn:E1.
    { intros H. injection H as <- <-. now left. }
    destruct (JS.includes (JS.orElse m "Connection failed")
                "Please log in via your web browser") eqn:E2.
    { intros H. injection H as <- <-. right. now left. }
    intros H. injection H as <- <-. right. right.
    repeat split; auto. now destruct m as [[|c r]|].
  - intros m -> Hm. destruct m as [|c r]; [discriminate|].
    cbn [JS.orElse]. now rewrite Hm.
  - intros m -> Ha Hm. destruct m as [|c r]; [discriminate|].
    cbn [JS.orElse]. now rewrite Ha, Hm.
  - intros m -> Hne Ha Hm. destruct m as [|c r]; [contradiction|].
    cbn [JS.orElse]. now rewrite Ha, Hm.
  - intros [-> | ->]; reflexivity.
Qed.

Lemma test_classifies_failures_witness :
  Handlers.postTest (Some "user@example.com"%string) (Some "wrong"%string)
    (mkSession
       (Throws (Some "3 NO [AUTHENTICATIONFAILED] Invalid credentials (Failure)"%string))
       (Ok 0) (Ok tt) (fun _ => Ok None) (fun _ => ([], None)) (Ok tt))
  = Handlers.Failure 401 "Invalid email or app password".
Proof.
  destruct (test_classifies_failures (Some "user@example.com"%string)
              (Some "wrong"%string)
              (mkSession
                 (Throws (Some "3 NO [AUTHENTICATIONFAILED] Invalid credentials (Failure)"%string))
                 (Ok 0) (Ok tt) (fun _ => Ok None) (fun _ => ([], None)) (Ok tt))
              eq_refl eq_refl) as [_ [_ [H _]]].
  apply (H "3 NO [AUTHENTICATIONFAILED] Invalid credentials (Failure)"%string);
    reflexivity.
Defined.

(** ** The attachment retrieval, attempt by attempt *)

Import RetrievalSpec.

Local Open Scope nat_scope.


Lemma tryParts_Ok_iff a pdfParts r :
  snd (tryParts a pdfParts) = Ok r
  <-> exists before q after,
        pdfParts = before ++ q :: after
        /\ Forall (throwsAt a) before
        /\ downloadPart a (ppath q) = Ok r.
Proof.
  induction pdfParts as [|p rest IH]; cbn [tryParts].
  - split; [discriminate|]. intros [[|x b] [q [after [H _]]]]; discriminate.
  - unfold Attachment.bind at 1, tell.
    destruct (downloadPart a (ppath p)) as [r'|m] eqn:E.
    + cbn. split.
      * intros H. injection H as <-. exists [], p, rest. repeat split; auto.
      * intros [[|x before] [q [after [H [Hb Hq]]]]].
        -- injection H as <- <-. rewrite E in Hq. now injection Hq as ->.
        -- injection H as <- ->. apply Forall_inv in Hb.
           destruct Hb as [m Hm]. rewrite E in Hm. discriminate.
    + unfold Attachment.bind, tell. destruct (tryParts a rest) as [es o].
      cbn [snd] in *. split.
      * intros H. apply IH in H. destruct H as [before [q [after [-> [Hb Hq]]]]].
        exists (p :: before), q, after. repeat split; auto.
        constructor; [now exists m|exact Hb].
      * intros [[|x before] [q [after [H [Hb Hq]]]]].
        -- injection H as <- <-. rewrite E in Hq. discriminate.
        -- injection H as <- ->. apply IH. exists before, q, after.
           repeat split; auto. now apply Forall_inv_tail in Hb.
Qed.

Lemma snd_bind_tell {B : Type} (e : Effect) (k : unit -> M B) :
  snd (Attachment.bind (tell e) k) = snd (k tt).
Proof.
  unfold Attachment.bind, tell. now destruct (k tt).
Qed.

(** X18.  The download of an attempt is the direct one when it does not
    throw; otherwise it is the download of the first PDF part, in the order
    of the walk over the message's structure, whose download does not
    throw.  No other download is used. *)
Theorem download_is_direct_or_first_candidate :
  forall a part r,
    snd (obtain a part) = Ok r
    <-> download a = Ok r
        \/ (exists err bs before q after,
               download a = Throws err
               /\ fetchOne a = Ok (Some (Some bs))
               /\ findPdfParts bs "" [] = before ++ q :: after
               /\ Forall (throwsAt a) before
               /\ downloadPart a (ppath q) = Ok r).
Proof.
  intros a part r. unfold obtain.
  destruct (download a) as [r'|err].
  - cbn. split.
    + intros H. injection H as <-. now left.
    + intros [H|[e [bs [b [q [af [H _]]]]]]]; [exact H|discriminate].
  - unfold locate. rewrite snd_bind_tell.
    unfold Attachment.bind at 1, call.
    destruct (fetchOne a) as [[[bs|]|]|m].
    + match goal with
      | |- context [let '(es', r0) := ?X in _] =>
          assert (Hsnd : snd X
                         = match findPdfParts bs "" [] with
                           | [] => Throws (Some "No PDF attachments found in message"%string)
                           | _ :: _ => snd (tryParts a (findPdfParts bs "" []))
                           end)
      end.
      { rewrite snd_bind_tell. now destruct (findPdfParts bs "" []). }
      match goal with
      | |- context [let '(es', r0) := ?X in _] => destruct X as [es o]
      end.
      cbn [snd] in *. subst o. split.
      * intros H. right.
        destruct (findPdfParts bs "" []) as [|p rest] eqn:E; [discriminate|].
        apply tryParts_Ok_iff in H.
        destruct H as [before [q [after [H [Hb Hq]]]]].
        exists err, bs, before, q, after. repeat split; auto.
        now rewrite E.
      * intros [H|[e [bs' [before [q [after [_ [Hf [Hp [Hb Hq]]]]]]]]]];
          [discriminate|].
        injection Hf as <-. rewrite Hp.
        destruct (before ++ q :: after) eqn:E;
          [destruct before; discriminate|].
        rewrite <- E. apply tryParts_Ok_iff. now exists before, q, after.
    + cbn. split; [discriminate|].
      intros [H|[e [bs' [b [q [af [_ [H _]]]]]]]]; discriminate.
    + cbn. split; [discriminate|].
      intros [H|[e [bs' [b [q [af [_ [H _]]]]]]]]; discriminate.
    + cbn. split; [discriminate|].
      intros [H|[e [bs' [b [q [af [_ [H _]]]]]]]]; discriminate.
Qed.


Lemma tryParts_find a pdfParts :
  snd (tryParts a pdfParts)
  = match find (works a) pdfParts with
    | Some q => downloadPart a (ppath q)
    | None => Throws (Some "Could not download any PDF attachment"%string)
    end.
Proof.
  induction pdfParts as [|p rest IH]; [reflexivity|].
  cbn [tryParts find]. rewrite snd_bind_tell. unfold works at 1.
  destruct (downloadPart a (ppath p)) as [r|m] eqn:E; [now rewrite E|].
  now rewrite snd_bind_tell.
Qed.

(** X19.  When the direct download throws, its error is only logged: the
    attempt then fails with the error of the structure fetch, with
    ["Could not get message structure"] when there is no structure, with
    ["No PDF attachments found in message"] when the structure has no PDF
    part, and with ["Could not download any PDF attachment"] when the
    download of every PDF part throws. *)
Theorem fallback_failures_are_named :
  forall a part err,
    download a = Throws err ->
    snd (obtain a part)
    = match fetchOne a with
      | Throws m => Throws m
      | Ok (Some (Some bs)) =>
          match findPdfParts bs "" [] with
          | [] => Throws (Some "No PDF attachments found in message"%string)
          | parts =>
              match find (works a) parts with
              | Some q => downloadPart a (ppath q)
              | None =>
                  Throws (Some "Could not download any PDF attachment"%string)
              end
          end
      | Ok _ => Throws (Some "Could not get message structure"%string)
      end
    /\ In (LogDirectFailed part err) (fst (obtain a part)).
Proof.
  intros a part err H. unfold obtain. rewrite H. unfold locate. split.
  - rewrite snd_bind_tell. unfold Attachment.bind at 1, call.
    destruct (fetchOne a) as [[[bs|]|]|m]; try reflexivity.
    match goal with
    | |- snd (let '(es', r0) := ?X in _) = _ =>
        transitivity (snd X); [now destruct X|]
    end.
    rewrite snd_bind_tell.
    destruct (findPdfParts bs "" []) as [|p rest]; [reflexivity|].
    apply tryParts_find.
  - rewrite fst_bind_tell. now left.
Qed.

Lemma fallback_failures_are_named_witness :
  snd (obtain
         (mkAttempt (Ok tt) (Ok tt) (Throws (Some "no such part"%string))
            (Ok (Some (Some textLeaf))) (fun _ => Ok None) (Ok tt))
         "2")
  = Throws (Some "No PDF attachments found in message"%string).
Proof.
  apply (proj1 (fallback_failures_are_named
                  (mkAttempt (Ok tt) (Ok tt)
                     (Throws (Some "no such part"%string))
                     (Ok (Some (Some textLeaf))) (fun _ => Ok None) (Ok tt))
                  "2" (Some "no such part"%string) eq_refl)).
Defined.

(** What an attempt that returns was given and answers. *)
Lemma validate_Ok_payload a dl es r :
  validate a dl = (es, Ok r) ->
  exists b meta,
    dl = Some (mkDownloadResult (Some (Ends b)) meta)
    /\ r = Pdf b (JS.orElse meta "document.pdf") (List.length b)
    /\ Attachment.logout a = Ok tt.
Proof.
  unfold validate. destruct dl as [[[[b|m]|] meta]|]; try discriminate.
  cbn [streamToBuffer ret Attachment.bind].
  destruct b as [|x data]; [discriminate|].
  destruct (isPdfBuffer (x :: data)); [|discriminate].
  unfold Attachment.bind, tell, call, ret.
  destruct (Attachment.logout a) as [[]|m]; [|discriminate].
  intros H. injection H as _ <-. now exists (x :: data), meta.
Qed.

Lemma tryAttempt_Ok_payload req a k es r :
  tryAttempt req a k = (es, Ok r) ->
  exists b meta,
    snd (obtain a (JS.orElse (Attachment.partId req) ""))
    = Ok (Some (mkDownloadResult (Some (Ends b)) meta))
    /\ r = Pdf b (JS.orElse meta "document.pdf") (List.length b)
    /\ Attachment.logout a = Ok tt.
Proof.
  unfold tryAttempt. intros H.
  do 4 (apply bind_Ok in H; destruct H as [? [? [? [_ [H _]]]]]).
  apply bind_Ok in H. destruct H as [es1 [dl [es2 [Ho [H _]]]]].
  apply validate_Ok_payload in H. destruct H as [b [meta [-> [-> Hl]]]].
  exists b, meta. rewrite Ho. auto.
Qed.

(** The answer is the one of the first attempt that returns; no attempt is
    made after it. *)
Lemma retry_first_success req script remaining :
  forall attempt lastError j r,
    attempt <= j < attempt + remaining ->
    (forall i, attempt <= i < j ->
               exists e, snd (tryAttempt req (script i) i) = Throws e) ->
    snd (tryAttempt req (script j) j) = Ok r ->
    snd (retry req script remaining attempt lastError) = r
    /\ connections (fst (retry req script remaining attempt lastError))
       = j - attempt + 1.
Proof.
  induction remaining as [|remaining IH]; intros attempt lastError j r Hj Hf Hs;
    [lia|].
  cbn [retry]. destruct (tryAttempt_effects req (script attempt) attempt)
    as [Hc _].
  destruct (Nat.eq_dec attempt j) as [->|Hne].
  - destruct (tryAttempt req (script j) j) as [es o]. cbn [snd fst] in *.
    subst o. cbn [snd fst]. split; [reflexivity|lia].
  - destruct (Hf attempt ltac:(lia)) as [e He].
    destruct (tryAttempt req (script attempt) attempt) as [es o].
    cbn [snd fst] in *. subst o.
    destruct (IH (S attempt) (Some e) j r ltac:(lia)
                (fun i Hi => Hf i ltac:(lia)) Hs) as [IH1 IH2].
    destruct (retry req script remaining (S attempt) (Some e)) as [es' r'].
    cbn [snd fst] in *. split; [exact IH1|].
    rewrite !connections_app, Hc, IH2.
    unfold MAX_RETRIES. destruct (attempt <? 3); cbn; lia.
Qed.

(** X20.  [/attachment] answers what its first attempt that returns answers,
    after as many connections as attempts were needed: the bytes are those
    that the download of that attempt delivered, unchanged, the size is
    their number and the filename is the one of the download's metadata, or
    ["document.pdf"]. *)
Theorem first_successful_attempt_answers :
  forall req script j r,
    missing (Attachment.email req) = false ->
    missing (Attachment.password req) = false ->
    messageUid req <> 0%Z ->
    missing (Attachment.partId req) = false ->
    1 <= j <= 3 ->
    (forall i, 1 <= i < j ->
               exists e, snd (tryAttempt req (script i) i) = Throws e) ->
    snd (tryAttempt req (script j) j) = Ok r ->
    snd (postAttachment req script) = r
    /\ connections (fst (postAttachment req script)) = j
    /\ exists b meta,
         snd (obtain (script j) (JS.orElse (Attachment.partId req) ""))
         = Ok (Some (mkDownloadResult (Some (Ends b)) meta))
         /\ r = Pdf b (JS.orElse meta "document.pdf") (List.length b).
Proof.
  intros req script j r He Hp Hu Hpart Hj Hf Hs.
  assert (Hpost : postAttachment req script = retry req script 3 1 None).
  { unfold postAttachment. rewrite He, Hp, Hpart.
    destruct (Z.eqb_spec (messageUid req) 0); [contradiction|reflexivity]. }
  rewrite Hpost.
  destruct (retry_first_success req script 3 1 None j r ltac:(lia) Hf Hs)
    as [H1 H2].
  split; [exact H1|]. split; [lia|].
  destruct (tryAttempt req (script j) j) as [es o] eqn:E. cbn [snd] in Hs.
  subst o. destruct (tryAttempt_Ok_payload _ _ _ _ _ E) as [b [meta [Ho [Hr _]]]].
  now exists b, meta.
Qed.

Lemma first_successful_attempt_answers_witness :
  snd (postAttachment attachmentRequest
         (fun k => if k <? 2 then failing (Some "ETIMEDOUT"%string)
                   else serving pdfPayload))
  = Pdf pdfPayload "inv.pdf" 8.
Proof.
  apply (first_successful_attempt_answers attachmentRequest
           (fun k => if k <? 2 then failing (Some "ETIMEDOUT"%string)
                     else serving pdfPayload)
           2 (Pdf pdfPayload "inv.pdf" 8)
           eq_refl eq_refl ltac:(discriminate) eq_refl ltac:(lia)).
  - intros i Hi. assert (i = 1) as -> by lia. eexists. reflexivity.
  - reflexivity.
Defined.

(** ** The decoding of a body *)


Import Body BodySpec.

Lemma includes_no_equals c r :
  JS.includes (String c r) "=" = false ->
  isChar 61 c = false /\ JS.includes r "=" = false.
Proof.
  cbn [JS.includes String.prefix]. unfold isChar.
  destruct (Ascii.ascii_dec "="%char c) as [<-|Hne].
  - cbn. destruct r; discriminate.
  - intros H. apply orb_false_iff in H. destruct H as [_ H]. split; [|exact H].
    apply Nat.eqb_neq. intros E. apply Hne.
    rewrite <- (ascii_nat_embedding c), E. reflexivity.
Qed.

Lemma removeSoftBreaks_plain s :
  JS.includes s "=" = false -> removeSoftBreaks s = s.
Proof.
  induction s as [|c r IH]; [reflexivity|]. intros H.
  apply includes_no_equals in H. destruct H as [Hc Hr].
  cbn [removeSoftBreaks]. rewrite Hc. now rewrite IH.
Qed.

Lemma decodeHex_plain s :
  JS.includes s "=" = false -> decodeHex s = s.
Proof.
  induction s as [|c r IH]; [reflexivity|]. intros H.
  apply includes_no_equals in H. destruct H as [Hc Hr].
  cbn [decodeHex]. rewrite Hc. now rewrite IH.
Qed.

Lemma removeSoftBreaks_length n :
  forall s, String.length s <= n ->
            String.length (removeSoftBreaks s) <= String.length s.
Proof.
  induction n as [|n IH]; intros s Hs.
  - destruct s; [cbn; lia|cbn in Hs; lia].
  - destruct s as [|c r]; [cbn; lia|]. cbn [String.length] in Hs.
    assert (Hr : String.length (removeSoftBreaks r) <= String.length r)
      by (apply IH; lia).
    cbn [removeSoftBreaks].
    destruct (isChar 61 c); [|cbn [String.length]; lia].
    destruct r as [|c1 r1]; [cbn [String.length] in *; lia|].
    cbn [String.length] in Hs.
    destruct (isChar 10 c1).
    { specialize (IH r1 ltac:(lia)). cbn [String.length]. lia. }
    destruct (isChar 13 c1); [|cbn [String.length] in *; lia].
    destruct r1 as [|c2 r2]; [cbn [String.length] in *; lia|].
    cbn [String.length] in Hs.
    destruct (isChar 10 c2); [|cbn [String.length] in *; lia].
    specialize (IH r2 ltac:(lia)). cbn [String.length]. lia.
Qed.

Lemma decodeHex_length n :
  forall s, String.length s <= n ->
            String.length (decodeHex s) <= String.length s.
Proof.
  induction n as [|n IH]; intros s Hs.
  - destruct s; [cbn; lia|cbn in Hs; lia].
  - destruct s as [|c r]; [cbn; lia|]. cbn [String.length] in Hs.
    assert (Hr : String.length (decodeHex r) <= String.length r)
      by (apply IH; lia).
    cbn [decodeHex].
    destruct (isChar 61 c); [|cbn [String.length]; lia].
    destruct r as [|h1 [|h2 r2]]; try (cbn [String.length] in *; lia).
    cbn [String.length] in Hs.
    destruct (hexVal h1), (hexVal h2); try (cbn [String.length] in *; lia).
    specialize (IH r2 ltac:(lia)). cbn [String.length]. lia.
Qed.

Lemma decodeContent_unguarded content :
  decodeContent content = decodeHex (removeSoftBreaks content).
Proof.
  unfold decodeContent.
  destruct (JS.includes content "=") eqn:H; [reflexivity|].
  now rewrite (removeSoftBreaks_plain _ H), (decodeHex_plain _ H).
Qed.

(** X21.  [decodeContent] is the two replacements, one after the other, on
    every content: the test for an equals sign only saves the work, since
    both replacements leave a content without an equals sign as it is.  The
    decoded content is never longer than the content. *)
Theorem decodeContent_is_both_replacements :
  forall content,
    decodeContent content = decodeHex (removeSoftBreaks content)
    /\ String.length (decodeContent content) <= String.length content.
Proof.
  intros content. split; [apply decodeContent_unguarded|].
  rewrite decodeContent_unguarded.
  pose proof (removeSoftBreaks_length _ content (le_n _)).
  pose proof (decodeHex_length _ (removeSoftBreaks content) (le_n _)). lia.
Qed.

Lemma hexDigit_hexVal n : n < 16 -> hexVal (hexDigit n) = Some n.
Proof.
  intros H. do 16 (destruct n as [|n]; [reflexivity|]). lia.
Qed.

Lemma hexDigit_not_special n :
  n < 16 ->
  isChar 61 (hexDigit n) = false /\ isChar 10 (hexDigit n) = false
  /\ isChar 13 (hexDigit n) = false.
Proof.
  intros H. do 16 (destruct n as [|n]; [repeat split; reflexivity|]). lia.
Qed.

Lemma literal_not_equals c : literal c = true -> isChar 61 c = false.
Proof.
  unfold literal. intros H. apply andb_true_iff in H. destruct H as [_ H].
  now apply negb_true_iff in H.
Qed.

Lemma code_split c :
  nat_of_ascii c / 16 < 16 /\ nat_of_ascii c mod 16 < 16
  /\ ascii_of_nat (16 * (nat_of_ascii c / 16) + nat_of_ascii c mod 16) = c.
Proof.
  pose proof (nat_ascii_bounded c) as Hb.
  split; [apply Nat.Div0.div_lt_upper_bound; lia|].
  split; [apply Nat.mod_upper_bound; lia|].
  rewrite <- Nat.div_mod_eq. apply ascii_nat_embedding.
Qed.

Lemma removeSoftBreaks_encode s t :
  removeSoftBreaks (encode s ++ t) = (encode s ++ removeSoftBreaks t)%string.
Proof.
  induction s as [|c r IH]; [reflexivity|]. cbn [encode].
  destruct (literal c) eqn:L.
  - cbn [String.append removeSoftBreaks]. rewrite (literal_not_equals _ L).
    now rewrite IH.
  - destruct (code_split c) as [H1 [H2 _]].
    destruct (hexDigit_not_special _ H1) as [A1 [A2 A3]].
    destruct (hexDigit_not_special _ H2) as [B1 _].
    cbn [String.append removeSoftBreaks].
    change (isChar 61 "="%char) with true. cbv iota.
    rewrite A2, A3, A1, B1. now rewrite IH.
Qed.

Lemma decodeHex_encode s t :
  decodeHex (encode s ++ t) = (s ++ decodeHex t)%string.
Proof.
  induction s as [|c r IH]; [reflexivity|]. cbn [encode].
  destruct (literal c) eqn:L.
  - cbn [String.append decodeHex]. rewrite (literal_not_equals _ L).
    now rewrite IH.
  - destruct (code_split c) as [H1 [H2 H3]].
    cbn [String.append decodeHex].
    change (isChar 61 "="%char) with true. cbv iota.
    rewrite (hexDigit_hexVal _ H1), (hexDigit_hexVal _ H2), H3.
    now rewrite IH.
Qed.

Lemma removeSoftBreaks_break_lf t :
  removeSoftBreaks (String "="%char (String (ascii_of_nat 10) t))
  = removeSoftBreaks t.
Proof. reflexivity. Qed.

Lemma removeSoftBreaks_break_crlf t :
  removeSoftBreaks
    (String "="%char (String (ascii_of_nat 13) (String (ascii_of_nat 10) t)))
  = removeSoftBreaks t.
Proof. reflexivity. Qed.

(** X22.  [decodeContent] undoes the quoted-printable encoding: the encoded
    chunks of a body, each followed by a soft line break ([=] and a line end,
    LF or CR LF), decode to the chunks joined, whatever bytes they hold. *)
Theorem decodeContent_undoes_quoted_printable :
  forall eol chunks,
    eol = String (ascii_of_nat 10) EmptyString
    \/ eol = String (ascii_of_nat 13) (String (ascii_of_nat 10) EmptyString) ->
    decodeContent (wrapped eol chunks) = joined chunks.
Proof.
  intros eol chunks Heol.
  rewrite decodeContent_unguarded.
  assert (H : removeSoftBreaks (wrapped eol chunks) = encode (joined chunks)).
  { induction chunks as [|chunk rest IH]; [reflexivity|].
    cbn [wrapped joined]. rewrite removeSoftBreaks_encode.
    assert (Hb : removeSoftBreaks ("=" ++ eol ++ wrapped eol rest)
                 = removeSoftBreaks (wrapped eol rest)).
    { destruct Heol as [-> | ->];
        [apply removeSoftBreaks_break_lf|apply removeSoftBreaks_break_crlf]. }
    rewrite Hb, IH. clear.
    induction chunk as [|c r IHc]; [reflexivity|].
    cbn [encode String.append]. destruct (literal c); cbn [String.append];
      now rewrite IHc. }
  rewrite H. rewrite <- (str_app_nil_r (encode (joined chunks))).
  rewrite decodeHex_encode. cbn [decodeHex]. apply str_app_nil_r.
Qed.

Lemma decodeContent_undoes_quoted_printable_witness :
  decodeContent
    (wrapped (String (ascii_of_nat 13) (String (ascii_of_nat 10) EmptyString))
       ["Total = 12"%string; String (ascii_of_nat 233) " EUR"%string])
  = ("Total = 12" ++ String (ascii_of_nat 233) " EUR")%string.
Proof.
  apply (decodeContent_undoes_quoted_printable
           (String (ascii_of_nat 13) (String (ascii_of_nat 10) EmptyString))
           ["Total = 12"%string; String (ascii_of_nat 233) " EUR"%string]).
  right. reflexivity.
Defined.

(** * The texts of errors, events and log lines *)

Import LeakSpec.

Local Open Scope nat_scope.




(** ** The handlers on a session *)












(** ** The attempts of [/attachment] *)

Section Origins.

Variable req : Request.
Variable made : Attempt -> Prop.
Variable a : Attempt.
Hypothesis a_made : made a.










End Origins.

Lemma effectOrigin_mono req (made made' : Attempt -> Prop) e :
  (forall a, made a -> made' a) ->
  effectOrigin req made e -> effectOrigin req made' e.
Proof.
  intros Hm. destruct e; cbn; try tauto.
  - intros [H [a [Ha Hd]]]. eauto.
  - intros [a [bs [Ha H]]]. exists a, bs. auto.
  - intros [a [bs [q [Ha H]]]]. exists a, bs, q. auto.
  - intros [a [Ha H]]. eauto.
  - intros [a [b [Ha H]]]. exists a, b. auto.
  - intros [a [Ha H]]. eauto.
  - intros [H1 [H2 [H3|[a [Ha H3]]]]]; eauto 10.
Qed.



(** ** What a payload that is no PDF leaves in a text *)





